(** * spider: a threaded, level-synchronised web spider

    Shallow embedding of [src/spider.py] (class [Spider] and
    [SpiderResults]) and the properties of its traversal engine.

    The sequential pieces of the code ([mime], [ishtml], the body of
    [_get], the body of the link loop of [_processPage]) are pure
    functions on the shared [SpiderResults].  The threads of one run of
    [Spider.spider] (the control thread and the workers of the pool) are
    a labelled transition system: a state holds the shared results, the
    two locks, the pool and one program counter per thread; a label says
    which thread moves (and, for [urllib2.urlopen], what the network
    answers).

    A step is one region protected by a lock, or one stretch of code
    that touches the shared results once.  Three accesses of the source
    are outside the lock that guards their reader: the write of
    [visited] in [_get] (under [connectLock], read under [graphLock] by
    the link loop), and the [popleft] and [len] of the control thread.
    Each is a single dictionary or deque operation, atomic under the
    interpreter lock; a body of the link loop interrupted by one of them
    leaves the same state as the body run before it ([visited] is only
    tested for membership, [popleft] takes from the left what was there
    before the level began and [append] adds on the right), so taking the
    body as one step loses no reachable result.  An [RLock] is modelled
    by its owner: no thread of the source takes a lock it holds.

    Callbacks are user code outside the repository: the model keeps
    whether one is registered, records each call in the trace and lets
    it return.  The attribute [root] that [spider] adds to the results
    is written once and read by nothing; it is left out. *)

From Stdlib Require Import ZArith List Lia Ascii String.
From stdpp Require Import base option list sorting strings gmap.

Local Open Scope string_scope.
Local Open Scope list_scope.
Local Open Scope Z_scope.

(** ** Data *)

(** Exception classes that the code can meet; [exc = excInfo[0]] stores
    the class, not the instance. *)
Inductive ExcType :=
| URLError | HTTPError | SocketTimeout | BadStatusLine | ValueError
| AttributeError | XMLSyntaxError | IOError | KeyError | IndexError
| OtherExc (name : string).

#[global] Instance ExcType_eq_dec : EqDecision ExcType.
Proof. solve_decision. Defined.

(** One item of [html.iterlinks()]: (element, attribute, link, pos).
    The element is an opaque handle; the attribute is [None] for links
    found in text content. *)
Record LinkOcc := {
  lk_element : nat;
  lk_attribute : option string;
  lk_link : string;
  lk_pos : nat
}.

(** What [lxml.html.parse(response).getroot()] followed by
    [make_links_absolute] and [iterlinks] gives for a body: an
    exception, no root element, or the link occurrences in document
    order. *)
Inductive Document :=
| ParseRaises (e : ExcType)
| RootNone
| Root (links : list LinkOcc).

(** A urllib2 response, as far as the spider looks at it. *)
Record Response := {
  geturl : string;
  header_content_type : option string;
  header_content_enc : option string;
  document : Document
}.

(** [urllib2.urlopen(url, timeout)] raises or returns a response. *)
Inductive FetchOutcome :=
| Raises (e : ExcType)
| Returns (r : Response).

(** The dictionary stored in [results.visited[url]]. *)
Record VisitInfo := {
  redirected : bool;
  redirectUrl : string;
  content_type : option string;
  content_enc : option string;
  dead : bool;
  exc : option ExcType;
  times : nat
}.

#[global] Instance VisitInfo_eq_dec : EqDecision VisitInfo.
Proof. solve_decision. Defined.

(** [SpiderResults]: [graph], [visited] and the deque [_urls]. *)
Record SpiderResults := {
  graph : gmap string (list string);
  visited : gmap string VisitInfo;
  _urls : list string
}.

Definition SpiderResults_init : SpiderResults :=
  {| graph := ∅; visited := ∅; _urls := [] |}.

(** ** [mime], [ishtml], [isimage] *)

(** [s.split(';')[0]]: the part of [s] before the first semicolon. *)
Fixpoint split_semicolon_0 (s : string) : string :=
  match s with
  | EmptyString => EmptyString
  | String c rest =>
      if Ascii.eqb c ";"%char then EmptyString
      else String c (split_semicolon_0 rest)
  end.

(** [mime(response)]; [getheader] gives [None] for a missing header and
    [None.split] raises AttributeError. *)
Definition mime (response : Response) : ExcType + string :=
  match header_content_type response with
  | None => inl AttributeError
  | Some h => inr (split_semicolon_0 h)
  end.

Definition ishtml (response : Response) : ExcType + bool :=
  match mime response with
  | inl e => inl e
  | inr mimeType => inr (bool_decide (mimeType ∈ ["text/html"]))
  end.

Definition isimage (response : Response) : ExcType + bool :=
  let imageTypes := ["image/gif"; "image/bmp"; "image/jpeg"; "image/png"] in
  match mime response with
  | inl e => inl e
  | inr mimeType => inr (bool_decide (mimeType ∈ imageTypes))
  end.

(** ** [Spider._get] *)

(** The local variables of [_get] when its [try] statement is left. *)
Record GetLocals := {
  l_response : option Response;
  l_isDead : bool;
  l_redirected : bool;
  l_contentType : option string;
  l_redirectUrl : string;
  l_contentEnc : option string;
  l_exc : option ExcType
}.

(** Lines 166-184: the initial values and the [try]/[except] blocks. *)
Definition get_try (url : string) (o : FetchOutcome) : GetLocals :=
  match o with
  | Returns response =>
      {| l_response := Some response;
         l_isDead := false;
         l_redirected := negb (bool_decide (url = geturl response));
         l_contentType := header_content_type response;
         l_redirectUrl := geturl response;
         l_contentEnc := header_content_enc response;
         l_exc := None |}
  | Raises e =>
      {| l_response := None;
         l_isDead := true;
         l_redirected := false;
         l_contentType := Some "";
         l_redirectUrl := url;
         l_contentEnc := Some "";
         l_exc := Some e |}
  end.

(** Lines 186-198: count the attempt and store the record. *)
Definition get_record (url : string) (L : GetLocals)
    (visited : gmap string VisitInfo) : gmap string VisitInfo :=
  let times :=
    match visited !! url with
    | Some v => (times v + 1)%nat
    | None => 1%nat
    end in
  <[url := {| redirected := l_redirected L;
              redirectUrl := l_redirectUrl L;
              content_type := l_contentType L;
              content_enc := l_contentEnc L;
              dead := l_isDead L;
              exc := l_exc L;
              times := times |}]> visited.

(** Lines 201-202: the adjacency list of a live page is created once. *)
Definition get_graph (url : string) (L : GetLocals)
    (graph : gmap string (list string)) : gmap string (list string) :=
  if negb (l_isDead L) && negb (bool_decide (url ∈ dom graph))
  then <[url := []]> graph
  else graph.

(** [_get] run without interruption: the response (or [None]) and the
    results it leaves. *)
Definition _get (url : string) (o : FetchOutcome) (results : SpiderResults)
    : option Response * SpiderResults :=
  let L := get_try url o in
  let visited' := get_record url L (visited results) in
  let graph' := get_graph url L (graph results) in
  (l_response L,
   {| graph := graph'; visited := visited'; _urls := _urls results |}).

(** ** The link loop of [Spider._processPage] *)

(** What one pass through the body of the loop (lines 233-244) did. *)
Inductive LinkResult :=
| LinkSkipped
| LinkFound (results : SpiderResults)
| LinkKeyError.

(** The condition of lines 234-237 is evaluated left to right and stops
    at the first false conjunct; [results.graph[url]] raises KeyError
    when [url] is not a key. *)
Definition link_body (url : string) (lk : LinkOcc) (results : SpiderResults)
    : LinkResult :=
  if bool_decide (lk_attribute lk = Some "href")
     && negb (bool_decide (lk_link lk ∈ _urls results))
     && negb (bool_decide (lk_link lk ∈ dom (visited results)))
  then
    match graph results !! url with
    | None => LinkKeyError
    | Some adj =>
        if bool_decide (lk_link lk ∈ adj) then LinkSkipped
        else LinkFound
               {| graph := <[url := adj ++ [lk_link lk]]> (graph results);
                  visited := visited results;
                  _urls := _urls results ++ [lk_link lk] |}
    end
  else LinkSkipped.

(** The whole loop run without interruption, with the links handed to
    [linkCallback] in order; [inl] is the KeyError. *)
Fixpoint link_loop (url : string) (links : list LinkOcc)
    (results : SpiderResults) (found : list LinkOcc)
    : ExcType + (SpiderResults * list LinkOcc) :=
  match links with
  | [] => inr (results, found)
  | lk :: rest =>
      match link_body url lk results with
      | LinkSkipped => link_loop url rest results found
      | LinkFound results' => link_loop url rest results' (found ++ [lk])
      | LinkKeyError => inl KeyError
      end
  end.

(** [_processPage] run without interruption: the exception that leaves
    it, if any, the results, and the links reported to [linkCallback]. *)
Definition _processPage (url : string) (o : FetchOutcome)
    (results : SpiderResults)
    : option ExcType * SpiderResults * list LinkOcc :=
  match _get url o results with
  | (None, results1) => (None, results1, [])
  | (Some response, results1) =>
      match ishtml response with
      | inl e => (Some e, results1, [])
      | inr false => (None, results1, [])
      | inr true =>
          match document response with
          | ParseRaises e => (Some e, results1, [])
          | RootNone => (None, results1, [])
          | Root links =>
              match link_loop url links results1 [] with
              | inl e => (Some e, results1, [])
              | inr (results2, found) => (None, results2, found)
              end
          end
      end
  end.

(** ** The spider, its pool and its threads *)

(** The attributes of a [Spider].  A callback is user code: the model
    keeps whether one is registered, records every invocation in the
    trace and lets it return. *)
Record Spider := {
  url : string;
  maxDepth : Z;
  timeout : Z;
  threads : nat;
  linkCallback : bool;
  responseCallback : bool;
  htmlCallback : bool;
  levelCallback : bool
}.

(** A task of the pool: [_processPage(url, results)].  The level at
    which it was submitted is carried along for the statements only; no
    step reads it to decide anything. *)
Record Task := {
  t_level : Z;
  t_url : string
}.

#[global] Instance Task_eq_dec : EqDecision Task.
Proof. solve_decision. Defined.

(** Where a worker stands in [_processPage] and the [_get] it calls. *)
Inductive PC :=
| PConnect                                   (* line 163, before acquire *)
| PUrlopen                                   (* lines 165-175, connectLock held *)
| PFinally (L : GetLocals)                   (* lines 186-198 *)
| PGraphAcq (L : GetLocals)                  (* line 200, before acquire *)
| PGraphInit (L : GetLocals)                 (* lines 201-206 and 219 *)
| PPage (response : Response)                (* lines 220-229 *)
| PLink (links : list LinkOcc)               (* lines 231-232, before acquire *)
| PLinkLocked (lk : LinkOcc) (rest : list LinkOcc). (* lines 233-244 *)

Record Worker := {
  w_task : Task;
  w_pc : PC
}.

(** Where the control thread stands in [spider]. *)
Inductive Ctl :=
| CStart                                     (* lines 257-266 *)
| CLoop (depth : Z)                          (* lines 268-276 and 282-284 *)
| CDrain (depth : Z) (n : nat)               (* lines 276-280, n passes left *)
| CDone (depth : Z)                          (* returned [results] *)
| CRaised (e : ExcType).                     (* left [spider] by an exception *)

(** What happened, in order. *)
Inductive Event :=
| EvLevelCb (level : Z)
| EvSubmit (t : Task)
| EvFetch (t : Task) (o : FetchOutcome)
| EvResponseCb (t : Task) (response : Response)
| EvHtmlCb (t : Task)
| EvDiscover (t : Task) (link : string)
| EvLinkCb (t : Task) (lk : LinkOcc)
| EvEnd (t : Task) (e : option ExcType).

Record State := {
  results : SpiderResults;
  connectLock : option nat;
  graphLock : option nat;
  queue : list Task;
  workers : gmap nat Worker;
  ctl : Ctl;
  trace : list Event
}.

Inductive Action :=
| ACtl
| AWork (i : nat)
| AFetch (i : nat) (o : FetchOutcome).

Definition init : State :=
  {| results := SpiderResults_init;
     connectLock := None; graphLock := None;
     queue := []; workers := ∅;
     ctl := CStart; trace := [] |}.

Definition when (b : bool) (e : Event) : list Event :=
  if b then [e] else [].

(** How a worker leaves a step: at another place of the task, or out
    of [_processPage] by [return] or by an exception. *)
Inductive Next :=
| Goto (pc : PC)
| Return
| Raise (e : ExcType).

(** What one step of a worker does to what the threads share. *)
Record Effect := {
  e_results : SpiderResults;
  e_connectLock : option nat;
  e_graphLock : option nat;
  e_events : list Event;
  e_next : Next
}.

Section Run.

Variable self : Spider.

(** One step of worker [i] running [_processPage(t_url t, results)] at
    [pc].  [o] is the answer of the network and is there exactly when
    the step is the call of [urlopen].  [None]: the worker cannot move
    (it waits for a lock). *)
Definition pc_step (i : nat) (t : Task) (pc : PC) (o : option FetchOutcome)
    (s : State) : option Effect :=
  let r := results s in
  let cl := connectLock s in
  let gl := graphLock s in
  match pc, o with
  | PConnect, None =>
      match cl with
      | None =>
          Some {| e_results := r; e_connectLock := Some i; e_graphLock := gl;
                  e_events := []; e_next := Goto PUrlopen |}
      | Some _ => None
      end
  | PUrlopen, Some o =>
      Some {| e_results := r; e_connectLock := cl; e_graphLock := gl;
              e_events := [EvFetch t o];
              e_next := Goto (PFinally (get_try (t_url t) o)) |}
  | PFinally L, None =>
      Some {| e_results :=
                {| graph := graph r;
                   visited := get_record (t_url t) L (visited r);
                   _urls := _urls r |};
              e_connectLock := cl; e_graphLock := gl;
              e_events := []; e_next := Goto (PGraphAcq L) |}
  | PGraphAcq L, None =>
      match gl with
      | None =>
          Some {| e_results := r; e_connectLock := cl; e_graphLock := Some i;
                  e_events := []; e_next := Goto (PGraphInit L) |}
      | Some _ => None
      end
  | PGraphInit L, None =>
      Some {| e_results :=
                {| graph := get_graph (t_url t) L (graph r);
                   visited := visited r;
                   _urls := _urls r |};
              e_connectLock := None; e_graphLock := None;
              e_events := [];
              e_next := match l_response L with
                        | None => Return
                        | Some response => Goto (PPage response)
                        end |}
  | PPage response, None =>
      let cb := when (responseCallback self) (EvResponseCb t response) in
      Some {| e_results := r; e_connectLock := cl; e_graphLock := gl;
              e_events :=
                match ishtml response, document response with
                | inr true, Root _ => cb ++ when (htmlCallback self) (EvHtmlCb t)
                | _, _ => cb
                end;
              e_next :=
                match ishtml response with
                | inl e => Raise e
                | inr false => Return
                | inr true =>
                    match document response with
                    | ParseRaises e => Raise e
                    | RootNone => Return
                    | Root links => Goto (PLink links)
                    end
                end |}
  | PLink [], None =>
      Some {| e_results := r; e_connectLock := cl; e_graphLock := gl;
              e_events := []; e_next := Return |}
  | PLink (lk :: rest), None =>
      match gl with
      | None =>
          Some {| e_results := r; e_connectLock := cl; e_graphLock := Some i;
                  e_events := []; e_next := Goto (PLinkLocked lk rest) |}
      | Some _ => None
      end
  | PLinkLocked lk rest, None =>
      match link_body (t_url t) lk r with
      | LinkSkipped =>
          Some {| e_results := r; e_connectLock := cl; e_graphLock := None;
                  e_events := []; e_next := Goto (PLink rest) |}
      | LinkFound r' =>
          Some {| e_results := r'; e_connectLock := cl; e_graphLock := None;
                  e_events := EvDiscover t (lk_link lk)
                                :: when (linkCallback self) (EvLinkCb t lk);
                  e_next := Goto (PLink rest) |}
      | LinkKeyError =>
          Some {| e_results := r; e_connectLock := cl; e_graphLock := None;
                  e_events := []; e_next := Raise KeyError |}
      end
  | _, _ => None
  end.

(** Modelled from the spec: the module ThreadPool is not among the
    sources.  The pool "executes submitted units of work on a fixed
    number of concurrent workers" and its wait "blocks until all
    submitted work, including work submitted during execution of other
    work, has completed".  [add_task] appends the task to the queue of
    the pool. *)
Definition add_task (t : Task) (s : State) : State :=
  {| results := results s;
     connectLock := connectLock s; graphLock := graphLock s;
     queue := queue s ++ [t]; workers := workers s;
     ctl := ctl s; trace := trace s ++ [EvSubmit t] |}.

(** Modelled from the spec: ThreadPool is absent.  An idle worker, one
    of the [threads] workers of the pool, takes the oldest queued task
    and starts to run it. *)
Definition take_task (i : nat) (s : State) : option State :=
  if decide (i < threads self)%nat then
    match queue s with
    | [] => None
    | t :: q =>
        Some {| results := results s;
                connectLock := connectLock s; graphLock := graphLock s;
                queue := q;
                workers := <[i := {| w_task := t; w_pc := PConnect |}]> (workers s);
                ctl := ctl s; trace := trace s |}
    end
  else None.

(** Modelled from the spec: ThreadPool is absent.  [wait_completion]
    lets its caller go on when no task is queued and none is running. *)
Definition pool_idle (s : State) : bool :=
  match queue s with
  | [] => bool_decide (dom (workers s) = ∅)
  | _ :: _ => false
  end.

(** Modelled from the spec: ThreadPool is absent.  A unit of work is
    completed when its function returns or raises: a worker whose task
    went on keeps it, one whose task returned or raised is idle again.
    The result, the locks and the trace are what the step of the task
    made them. *)
Definition apply_effect (i : nat) (t : Task) (e : Effect) (s : State)
    : State :=
  {| results := e_results e;
     connectLock := e_connectLock e; graphLock := e_graphLock e;
     queue := queue s;
     workers := match e_next e with
                | Goto pc => <[i := {| w_task := t; w_pc := pc |}]> (workers s)
                | Return | Raise _ => delete i (workers s)
                end;
     ctl := ctl s;
     trace := trace s ++ e_events e ++
              match e_next e with
              | Goto _ => []
              | Return => [EvEnd t None]
              | Raise x => [EvEnd t (Some x)]
              end |}.

Definition work_step (i : nat) (o : option FetchOutcome) (s : State)
    : option State :=
  match workers s !! i with
  | None => match o with None => take_task i s | Some _ => None end
  | Some w =>
      match pc_step i (w_task w) (w_pc w) o s with
      | Some e => Some (apply_effect i (w_task w) e s)
      | None => None
      end
  end.

Definition emit (evs : list Event) (s : State) : State :=
  {| results := results s;
     connectLock := connectLock s; graphLock := graphLock s;
     queue := queue s; workers := workers s;
     ctl := ctl s; trace := trace s ++ evs |}.

Definition set_ctl (c : Ctl) (s : State) : State :=
  {| results := results s;
     connectLock := connectLock s; graphLock := graphLock s;
     queue := queue s; workers := workers s;
     ctl := c; trace := trace s |}.

Definition popleft (s : State) : option (string * State) :=
  match _urls (results s) with
  | [] => None
  | u :: rest =>
      Some (u, {| results := {| graph := graph (results s);
                                visited := visited (results s);
                                _urls := rest |};
                  connectLock := connectLock s; graphLock := graphLock s;
                  queue := queue s; workers := workers s;
                  ctl := ctl s; trace := trace s |})
  end.

(** One step of the control thread in [spider]. *)
Definition ctl_step (s : State) : option State :=
  match ctl s with
  | CStart =>
      Some (set_ctl (CLoop 1)
              (add_task {| t_level := 1; t_url := url self |}
                 (emit (when (levelCallback self) (EvLevelCb 1)) s)))
  | CLoop depth =>
      if pool_idle s then
        if bool_decide (depth < maxDepth self) then
          Some (set_ctl (CDrain depth (length (_urls (results s))))
                  (emit (when (levelCallback self) (EvLevelCb (depth + 1))) s))
        else Some (set_ctl (CDone depth) s)
      else None
  | CDrain depth (S n) =>
      match popleft s with
      | None => Some (set_ctl (CRaised IndexError) s)
      | Some (u, s1) =>
          Some (set_ctl (CDrain depth n)
                  (add_task {| t_level := depth + 1; t_url := u |} s1))
      end
  | CDrain depth O => Some (set_ctl (CLoop (depth + 1)) s)
  | CDone _ => None
  | CRaised _ => None
  end.

Definition step (a : Action) (s : State) : option State :=
  match a with
  | ACtl => ctl_step s
  | AWork i => work_step i None s
  | AFetch i o => work_step i (Some o) s
  end.

Fixpoint run (acts : list Action) (s : State) : option State :=
  match acts with
  | [] => Some s
  | a :: rest =>
      match step a s with
      | Some s' => run rest s'
      | None => None
      end
  end.

Definition reachable (s : State) : Prop :=
  ∃ acts, run acts init = Some s.

End Run.

(** A small site to try the model on. *)
Module Demo.

Definition href (n : nat) (link : string) : LinkOcc :=
  {| lk_element := n; lk_attribute := Some "href"; lk_link := link;
     lk_pos := 0 |}.

Definition page (u : string) (links : list LinkOcc) : FetchOutcome :=
  Returns {| geturl := u;
             header_content_type := Some "text/html; charset=utf-8";
             header_content_enc := None;
             document := Root links |}.

Definition spider1 (depth : Z) : Spider :=
  {| url := "r"; maxDepth := depth; timeout := 3; threads := 1;
     linkCallback := true; responseCallback := false;
     htmlCallback := false; levelCallback := true |}.

Definition w (n : nat) := repeat (AWork 0) n.

Definition actsE : list Action :=
  [ACtl; AWork 0; AWork 0;
   AFetch 0 (page "r" [href 0 "p1"; href 1 "p2"])] ++ w 9 ++
  [ACtl; ACtl; ACtl; ACtl; AWork 0; AWork 0;
   AFetch 0 (page "p1" [href 0 "x"])] ++ w 7 ++
  [AWork 0; AWork 0; AFetch 0 (page "p2" [href 0 "x"])] ++ w 7 ++ [ACtl].

End Demo.

(** ** Reading the trace *)

Definition ev_level (e : Event) : Z :=
  match e with
  | EvLevelCb l => l
  | EvSubmit t | EvFetch t _ | EvResponseCb t _ | EvHtmlCb t
  | EvDiscover t _ | EvLinkCb t _ | EvEnd t _ => t_level t
  end.

(** The URLs handed to [add_task] at level [l], in order. *)
Definition submitted (l : Z) (tr : list Event) : list string :=
  omap (λ e, match e with
             | EvSubmit t => if decide (t_level t = l) then Some (t_url t) else None
             | _ => None
             end) tr.

(** The links appended to [_urls] by the pages of level [l], in order. *)
Definition discovered (l : Z) (tr : list Event) : list string :=
  omap (λ e, match e with
             | EvDiscover t x => if decide (t_level t = l) then Some x else None
             | _ => None
             end) tr.

(** The links appended to [graph[u]], in order. *)
Definition discovered_by (u : string) (tr : list Event) : list string :=
  omap (λ e, match e with
             | EvDiscover t x => if decide (t_url t = u) then Some x else None
             | _ => None
             end) tr.

(** The links handed to [linkCallback] with parent [u], in order. *)
Definition linkcbs_by (u : string) (tr : list Event) : list LinkOcc :=
  omap (λ e, match e with
             | EvLinkCb t lk => if decide (t_url t = u) then Some lk else None
             | _ => None
             end) tr.

(** The calls of [urlopen], in order. *)
Definition fetches (tr : list Event) : list (string * FetchOutcome) :=
  omap (λ e, match e with
             | EvFetch t o => Some (t_url t, o)
             | _ => None
             end) tr.

(** The exceptions that left a task. *)
Definition task_raises (tr : list Event) : list (Task * ExcType) :=
  omap (λ e, match e with
             | EvEnd t (Some x) => Some (t, x)
             | _ => None
             end) tr.

Definition holds_connect (pc : PC) : bool :=
  match pc with
  | PUrlopen | PFinally _ | PGraphAcq _ | PGraphInit _ => true
  | _ => false
  end.

Definition holds_graph (pc : PC) : bool :=
  match pc with
  | PGraphInit _ | PLinkLocked _ _ => true
  | _ => false
  end.

(** The level whose pages the pool is working on. *)
Definition cur_level (c : Ctl) : Z :=
  match c with
  | CStart => 1
  | CLoop d => d
  | CDrain d _ => d + 1
  | CDone d => d
  | CRaised _ => 0
  end.

(** ** Runs *)

Section RunLemmas.

Variable self : Spider.

Lemma run_app acts1 acts2 s :
  run self (acts1 ++ acts2) s = run self acts1 s ≫= run self acts2.
Proof.
  revert s. induction acts1 as [|a acts1 IH]; intros s; simpl; [done|].
  destruct (step self a s); simpl; [apply IH|done].
Qed.

Lemma reachable_init : reachable self init.
Proof. by exists []. Qed.

Lemma reachable_step a s s' :
  reachable self s → step self a s = Some s' → reachable self s'.
Proof.
  intros [acts Hrun] Hstep. exists (acts ++ [a]).
  rewrite run_app, Hrun. simpl. by rewrite Hstep.
Qed.

Lemma reachable_run acts s s' :
  reachable self s → run self acts s = Some s' → reachable self s'.
Proof.
  intros [acts0 Hrun] Hs. exists (acts0 ++ acts).
  rewrite run_app, Hrun. done.
Qed.

(** Induction over the runs: a property of [init] kept by every step
    holds in every reachable state. *)
Lemma reachable_ind (P : State → Prop) :
  P init →
  (∀ a s s', reachable self s → P s → step self a s = Some s' → P s') →
  ∀ s, reachable self s → P s.
Proof.
  intros Hinit Hstep s [acts Hrun]. revert s Hrun.
  induction acts as [|a acts IH] using rev_ind; intros s Hrun.
  - simpl in Hrun. by simplify_eq.
  - rewrite run_app in Hrun.
    destruct (run self acts init) as [s0|] eqn:Hs0; simpl in Hrun; [|done].
    destruct (step self a s0) as [s1|] eqn:Hs1; simpl in Hrun; [|done].
    simplify_eq. eapply Hstep; [by exists acts | by apply IH | done].
Qed.

(** The three kinds of steps. *)
Inductive StepKind (s s' : State) : Prop :=
| StepCtl : ctl_step self s = Some s' → StepKind s s'
| StepTake i : workers s !! i = None → take_task self i s = Some s' →
               StepKind s s'
| StepWork i t pc o e :
    workers s !! i = Some {| w_task := t; w_pc := pc |} →
    pc_step self i t pc o s = Some e →
    s' = apply_effect i t e s → StepKind s s'.

Lemma step_kind a s s' : step self a s = Some s' → StepKind s s'.
Proof.
  destruct a as [|i|i o]; simpl; [by constructor|..]; unfold work_step;
    destruct (workers s !! i) as [[t pc]|] eqn:Hw; simpl; try done.
  - destruct (pc_step self i t pc None s) eqn:He; [|done].
    intros [= <-]. by econstructor 3.
  - by econstructor 2.
  - destruct (pc_step self i t pc (Some o) s) eqn:He; [|done].
    intros [= <-]. by econstructor 3.
Qed.

Lemma take_task_inv i s s' :
  take_task self i s = Some s' →
  ∃ t q, queue s = t :: q ∧ (i < threads self)%nat ∧
    s' = {| results := results s;
            connectLock := connectLock s; graphLock := graphLock s;
            queue := q;
            workers := <[i := {| w_task := t; w_pc := PConnect |}]> (workers s);
            ctl := ctl s; trace := trace s |}.
Proof.
  unfold take_task. case_decide; [|done].
  destruct (queue s) as [|t q]; [done|]. intros [= <-]. by exists t, q.
Qed.

Lemma popleft_Some s u s1 :
  popleft s = Some (u, s1) →
  ∃ rest, _urls (results s) = u :: rest ∧
    s1 = {| results := {| graph := graph (results s);
                          visited := visited (results s);
                          _urls := rest |};
            connectLock := connectLock s; graphLock := graphLock s;
            queue := queue s; workers := workers s;
            ctl := ctl s; trace := trace s |}.
Proof.
  unfold popleft. destruct (_urls (results s)) as [|x rest]; [done|].
  intros [= <- <-]. by exists rest.
Qed.

Lemma popleft_None s : popleft s = None → _urls (results s) = [].
Proof. unfold popleft. by destruct (_urls (results s)). Qed.

End RunLemmas.

(** Splits [pc_step ... = Some e] into the cases of the program
    counter. *)
Ltac pc_cases H :=
  unfold pc_step in H;
  repeat (match type of H with
          | context [match ?x with _ => _ end] => destruct x eqn:?; simpl in H
          end; try discriminate H);
  injection H as <-; subst.

(** Splits [ctl_step s = Some s'] into its cases. *)
Ltac ctl_cases H :=
  match type of H with
  | ctl_step _ ?s = Some _ =>
      unfold ctl_step in H; destruct (ctl s) as [| |? [|?]| |] eqn:?;
      simpl in H; try discriminate H
  end;
  repeat (match type of H with
          | context [match popleft ?s with _ => _ end] =>
              let E := fresh "Hpop" in
              destruct (popleft s) as [[? ?]|] eqn:E; simpl in H;
              [apply popleft_Some in E as (? & ? & ->)
              |apply popleft_None in E]
          | context [match ?x with _ => _ end] => destruct x eqn:?; simpl in H
          end; try discriminate H);
  injection H as <-; subst.

(** ** The two locks *)

Definition next_holds (holds : PC → bool) (n : Next) : bool :=
  match n with
  | Goto pc => holds pc
  | Return | Raise _ => false
  end.

(** The workers after worker [i] left a step by [n]. *)
Definition next_workers (i : nat) (t : Task) (n : Next) (W : gmap nat Worker)
    : gmap nat Worker :=
  match n with
  | Goto pc => <[i := {| w_task := t; w_pc := pc |}]> W
  | Return | Raise _ => delete i W
  end.

Lemma next_workers_ne i j t n (W : gmap nat Worker) :
  i ≠ j → next_workers i t n W !! j = W !! j.
Proof.
  intros. destruct n; simpl;
    [by rewrite lookup_insert_ne | by rewrite lookup_delete_ne ..].
Qed.

Lemma next_workers_eq i t n (W : gmap nat Worker) :
  next_workers i t n W !! i =
    match n with
    | Goto pc => Some {| w_task := t; w_pc := pc |}
    | _ => None
    end.
Proof.
  destruct n; simpl; [by rewrite lookup_insert_eq | by rewrite lookup_delete_eq ..].
Qed.

Lemma next_workers_Some i j t n (W : gmap nat Worker) w :
  next_workers i t n W !! j = Some w →
  (j = i ∧ ∃ pc, n = Goto pc ∧ w = {| w_task := t; w_pc := pc |}) ∨
  (j ≠ i ∧ W !! j = Some w).
Proof.
  destruct (decide (i = j)) as [<-|Hne].
  - rewrite next_workers_eq. destruct n; [|done..]. intros [= <-]. left. eauto.
  - rewrite next_workers_ne by done. right. split; [congruence|done].
Qed.

Section LockOk.

(** [lock] is owned by worker [i] exactly when [i] stands in a region
    that [holds] tells to be protected. *)
Variable holds : PC → bool.

Definition lock_ok (lock : option nat) (W : gmap nat Worker) : Prop :=
  (∀ i, lock = Some i → ∃ w, W !! i = Some w ∧ holds (w_pc w) = true) ∧
  (∀ i w, W !! i = Some w → holds (w_pc w) = true → lock = Some i).

(** What a step of worker [i] from [pc] to [n] may do to a lock: leave
    it, take it when it is free, or give it back. *)
Definition lock_change (i : nat) (lock : option nat) (pc : PC)
    (lock' : option nat) (n : Next) : Prop :=
  (lock' = lock ∧ next_holds holds n = holds pc) ∨
  (lock = None ∧ lock' = Some i ∧ next_holds holds n = true) ∨
  (holds pc = true ∧ lock' = None ∧ next_holds holds n = false).

Lemma lock_ok_free (W : gmap nat Worker) i w :
  lock_ok None W → W !! i = Some w → holds (w_pc w) = false.
Proof.
  intros [_ H] Hw. destruct (holds (w_pc w)) eqn:E; [|done].
  by specialize (H i w Hw E).
Qed.

Lemma lock_ok_owner lock (W : gmap nat Worker) i w :
  lock_ok lock W → W !! i = Some w →
  holds (w_pc w) = true ↔ lock = Some i.
Proof.
  intros [H1 H2] Hw. split; [by apply H2|].
  intros Hl. destruct (H1 i Hl) as (w' & ? & ?). by simplify_eq.
Qed.

Lemma lock_ok_new lock (W : gmap nat Worker) i w' :
  lock_ok lock W → W !! i = None → holds (w_pc w') = false →
  lock_ok lock (<[i := w']> W).
Proof.
  intros [H1 H2] Hw Hh. split.
  - intros j Hj. destruct (H1 j Hj) as (wj & Hwj & Hhj).
    exists wj. rewrite lookup_insert_ne; [done|congruence].
  - intros j wj. destruct (decide (j = i)) as [->|].
    + rewrite lookup_insert_eq. intros [= <-]. congruence.
    + rewrite lookup_insert_ne by done. apply H2.
Qed.

Lemma lock_ok_change lock lock' (W : gmap nat Worker) i t pc n :
  lock_ok lock W → W !! i = Some {| w_task := t; w_pc := pc |} →
  lock_change i lock pc lock' n →
  lock_ok lock' (next_workers i t n W).
Proof.
  intros HW Hw Hch. pose proof (lock_ok_owner _ _ _ _ HW Hw) as Hown.
  destruct HW as [H1 H2]. simpl in Hown. split.
  - intros j Hj. destruct (decide (i = j)) as [<-|Hne].
    + rewrite next_workers_eq.
      destruct Hch as [[-> Hh]|[(-> & _ & Hh)|(_ & ? & _)]]; [| |congruence].
      * apply Hown in Hj. rewrite <-Hh in Hj.
        destruct n; simpl in *; [eauto|done..].
      * destruct n; simpl in *; [eauto|done..].
    + rewrite next_workers_ne by done.
      destruct Hch as [[-> Hh]|[(_ & ? & _)|(_ & ? & _)]];
        [by apply H1|congruence..].
  - intros j wj [(-> & pc' & -> & ->)|[Hne Hwj]]%next_workers_Some; simpl in *.
    + intros Hh. destruct Hch as [[-> Hh']|[(_ & ? & _)|(_ & _ & ?)]];
        simpl in *; [|done|congruence]. apply Hown. congruence.
    + intros Hh. pose proof (H2 _ _ Hwj Hh) as Hl.
      destruct Hch as [[-> _]|[(? & _ & _)|(Hpc & _ & _)]];
        [done|congruence|].
      apply Hown in Hpc. congruence.
Qed.

End LockOk.

Section Locks.

Variable self : Spider.

(** Mutual exclusion: each lock is owned by the one worker that stands
    in a region it protects, and by nobody otherwise. *)
Definition inv_locks (s : State) : Prop :=
  lock_ok holds_connect (connectLock s) (workers s) ∧
  lock_ok holds_graph (graphLock s) (workers s).

Lemma pc_step_locks i t pc o s e :
  pc_step self i t pc o s = Some e →
  lock_change holds_connect i (connectLock s) pc (e_connectLock e) (e_next e) ∧
  lock_change holds_graph i (graphLock s) pc (e_graphLock e) (e_next e).
Proof.
  intros H. pc_cases H; simpl; unfold lock_change; simpl.
  all: try (split; naive_solver).
Qed.

Lemma ctl_step_frame s s' :
  ctl_step self s = Some s' →
  connectLock s' = connectLock s ∧ graphLock s' = graphLock s ∧
  workers s' = workers s ∧
  graph (results s') = graph (results s) ∧
  visited (results s') = visited (results s).
Proof. intros H. ctl_cases H; simpl; auto. Qed.

Lemma inv_locks_init : inv_locks init.
Proof.
  split; (split; [done|]); intros i w; simpl; by rewrite lookup_empty.
Qed.

Lemma inv_locks_step a s s' :
  inv_locks s → step self a s = Some s' → inv_locks s'.
Proof.
  intros [Hc Hg] [Hctl|i Hi Htake|i t pc o e Hw He ->]%step_kind.
  - apply ctl_step_frame in Hctl as (E1 & E2 & E3 & _).
    unfold inv_locks. by rewrite E1, E2, E3.
  - apply take_task_inv in Htake as (t & q & _ & _ & ->).
    split; simpl; by apply lock_ok_new.
  - apply pc_step_locks in He as [H1 H2].
    split; simpl; by eapply lock_ok_change.
Qed.

End Locks.

(** ** Levels *)

Definition level_le (e1 e2 : Event) : Prop := ev_level e1 ≤ ev_level e2.

Lemma level_sorted_snoc c c' tr evs :
  Forall (λ e, ev_level e ≤ c) tr → StronglySorted level_le tr →
  c ≤ c' → Forall (λ e, ev_level e = c') evs →
  Forall (λ e, ev_level e ≤ c') (tr ++ evs) ∧
  StronglySorted level_le (tr ++ evs).
Proof.
  intros Hle Hs Hc Hevs. split.
  - apply Forall_app. split.
    + eapply Forall_impl; [done|]. simpl. intros. lia.
    + eapply Forall_impl; [done|]. simpl. intros. lia.
  - apply StronglySorted_app_2; [|done|].
    + intros e1 e2 H1 H2. rewrite Forall_forall in Hle, Hevs.
      specialize (Hle _ H1). specialize (Hevs _ H2). unfold level_le. lia.
    + clear -Hevs. induction Hevs as [|e evs He Hevs IH]; constructor; [done|].
      eapply Forall_impl; [exact Hevs|]. unfold level_le. simpl. intros. lia.
Qed.

(** The events that [apply_effect] appends to the trace. *)
Definition effect_events (t : Task) (e : Effect) : list Event :=
  e_events e ++
  match e_next e with
  | Goto _ => []
  | Return => [EvEnd t None]
  | Raise x => [EvEnd t (Some x)]
  end.

Lemma apply_effect_trace i t e s :
  trace (apply_effect i t e s) = trace s ++ effect_events t e.
Proof. done. Qed.

Lemma apply_effect_results i t e s :
  results (apply_effect i t e s) = e_results e.
Proof. done. Qed.

Section Levels.

Variable self : Spider.

Lemma pool_idle_true s :
  pool_idle s = true → queue s = [] ∧ workers s = ∅.
Proof.
  unfold pool_idle. destruct (queue s); [|done].
  intros H%bool_decide_eq_true. split; [done|]. by apply dom_empty_iff_L.
Qed.

Lemma when_level b e c :
  ev_level e = c → Forall (λ e, ev_level e = c) (when b e).
Proof. intros. destruct b; simpl; by repeat constructor. Qed.

Lemma pc_step_events_level i t pc o s e :
  pc_step self i t pc o s = Some e →
  Forall (λ ev, ev_level ev = t_level t) (effect_events t e).
Proof.
  intros H. unfold effect_events. pc_cases H; simpl.
  all: repeat first [ apply Forall_app; split | apply when_level; done
                    | apply Forall_cons; split; [done|] | apply Forall_nil_2 ].
Qed.

Lemma link_body_found u lk r r' :
  link_body u lk r = LinkFound r' →
  ∃ adj, lk_attribute lk = Some "href" ∧
    (lk_link lk ∉ _urls r) ∧ (lk_link lk ∉ dom (visited r)) ∧
    graph r !! u = Some adj ∧ (lk_link lk ∉ adj) ∧
    r' = {| graph := <[u := adj ++ [lk_link lk]]> (graph r);
            visited := visited r;
            _urls := _urls r ++ [lk_link lk] |}.
Proof.
  unfold link_body.
  destruct (bool_decide (lk_attribute lk = Some "href")) eqn:E1; [|done].
  destruct (bool_decide (lk_link lk ∈ _urls r)) eqn:E2; [done|].
  destruct (bool_decide (lk_link lk ∈ dom (visited r))) eqn:E3; [done|].
  simpl. destruct (graph r !! u) as [adj|]; [|done].
  destruct (bool_decide (lk_link lk ∈ adj)) eqn:E4; [done|].
  intros [= <-]. exists adj.
  apply bool_decide_eq_true in E1. apply bool_decide_eq_false in E2, E3, E4.
  done.
Qed.

(** A worker only ever appends to [_urls]. *)
Lemma pc_step_urls i t pc o s e :
  pc_step self i t pc o s = Some e →
  _urls (e_results e) = _urls (results s) ++ discovered (t_level t) (e_events e).
Proof.
  intros H. pc_cases H; simpl; rewrite ?app_nil_r; try done.
  all: try (destruct (responseCallback self), (htmlCallback self); simpl;
            by rewrite ?app_nil_r).
  match goal with H : link_body _ _ _ = LinkFound _ |- _ =>
    apply link_body_found in H as (adj & _ & _ & _ & _ & _ & ->) end.
  simpl. rewrite decide_True by done.
  destruct (linkCallback self); simpl; done.
Qed.

(** Where the control thread can stand, and with what. *)
Definition ctl_ok (s : State) : Prop :=
  match ctl s with
  | CStart => queue s = [] ∧ workers s = ∅ ∧ trace s = []
  | CLoop d => 1 ≤ d ∧ (d ≤ 1 ∨ d ≤ maxDepth self)
  | CDrain d n =>
      1 ≤ d < maxDepth self ∧ (n ≤ length (_urls (results s)))%nat
  | CDone d => d = Z.max 1 (maxDepth self) ∧ queue s = [] ∧ workers s = ∅
  | CRaised _ => False
  end.

(** Every task in the pool belongs to the current level, and the levels
    of the events never decrease. *)
Record inv_level (s : State) : Prop := {
  lv_queue t : t ∈ queue s → t_level t = cur_level (ctl s);
  lv_workers i w :
    workers s !! i = Some w → t_level (w_task w) = cur_level (ctl s);
  lv_sorted :
    Forall (λ e, ev_level e ≤ cur_level (ctl s)) (trace s) ∧
    StronglySorted level_le (trace s);
  lv_ctl : ctl_ok s
}.

Lemma inv_level_init : inv_level init.
Proof.
  split; simpl; try done.
  - intros t H. by apply elem_of_nil in H.
  - split; constructor.
Qed.

Lemma inv_level_ctl_step s s' :
  inv_level s → ctl_step self s = Some s' → inv_level s'.
Proof.
  intros [Hq Hw [Ht Hs] Hc] Hctl. unfold ctl_ok in Hc. ctl_cases Hctl.
  all: repeat match goal with
       | H : pool_idle _ = true |- _ =>
           apply pool_idle_true in H as [Hidleq Hidlew]
       | H : bool_decide _ = _ |- _ =>
           first [apply bool_decide_eq_true in H
                 |apply bool_decide_eq_false in H]
       | H : ctl _ = _ |- _ => rewrite H in *
       end; simpl in *.
  - (* CStart *)
    destruct Hc as (Hq0 & Hw0 & Ht0). split; unfold ctl_ok; simpl.
    + rewrite Hq0. intros t ->%list_elem_of_singleton. done.
    + done.
    + rewrite Ht0. simpl. destruct (levelCallback self); simpl;
        split; repeat constructor; unfold level_le; simpl; lia.
    + lia.
  - (* CLoop, another level *)
    split; unfold ctl_ok; simpl.
    + intros t. rewrite Hidleq. by intros ?%elem_of_nil.
    + intros i w. rewrite Hidlew. by rewrite lookup_empty.
    + eapply level_sorted_snoc; [done..|lia|]. by apply when_level.
    + lia.
  - (* CLoop, the last wait *)
    split; unfold ctl_ok; simpl; [done..|]. split; [lia|done].
  - (* CDrain, all passes done *)
    split; unfold ctl_ok; simpl; [done..|lia].
  - (* CDrain, one pass *)
    split; unfold ctl_ok; simpl.
    + intros t [?| ->%list_elem_of_singleton]%elem_of_app; by auto.
    + done.
    + eapply level_sorted_snoc; [done..|lia|]. by repeat constructor.
    + match goal with H : _urls _ = _ |- _ => rewrite H in Hc end.
      simpl in Hc. lia.
  - (* CDrain, popleft from an empty deque: excluded *)
    match goal with H : _urls _ = _ |- _ => rewrite H in Hc end.
    simpl in Hc. lia.
Qed.

Lemma inv_level_step a s s' :
  inv_level s → step self a s = Some s' → inv_level s'.
Proof.
  intros Hinv [Hctl|i Hi Htake|i t pc o e Hwi He ->]%step_kind.
  - by eapply inv_level_ctl_step.
  - destruct Hinv as [Hq Hw [Ht Hs] Hc]. unfold ctl_ok in Hc.
    apply take_task_inv in Htake as (t & q & Hqs & _ & ->).
    split; unfold ctl_ok; simpl.
    + intros t' Ht'. apply Hq. rewrite Hqs. by right.
    + intros j w [[-> <-]|[_ ?]]%lookup_insert_Some; simpl; [|by eauto].
      apply Hq. rewrite Hqs. by left.
    + done.
    + destruct (ctl s); try done; destruct Hc as (? & ? & ?); congruence.
  - destruct Hinv as [Hq Hw [Ht Hs] Hc]. unfold ctl_ok in Hc.
    pose proof (Hw _ _ Hwi) as Hlv. simpl in Hlv.
    split; unfold ctl_ok; simpl.
    + done.
    + intros j w [(-> & pc' & _ & ->)|[_ ?]]%next_workers_Some; by eauto.
    + eapply level_sorted_snoc; [done..|lia|]. rewrite <-Hlv.
      by eapply pc_step_events_level.
    + destruct (ctl s); try done.
      * destruct Hc as (_ & Hw0 & _). by rewrite Hw0, lookup_empty in Hwi.
      * rewrite (pc_step_urls _ _ _ _ _ _ He), length_app. lia.
      * destruct Hc as (_ & _ & Hw0). by rewrite Hw0, lookup_empty in Hwi.
Qed.

End Levels.

(** ** No URL twice in the pool *)

Section Distinct.

Variable self : Spider.

(** [u] is the URL of a task that is queued or running. *)
Definition in_pool (s : State) (u : string) : Prop :=
  u ∈ (t_url <$> queue s) ∨
  ∃ i w, workers s !! i = Some w ∧ t_url (w_task w) = u.

(** The deque has no duplicates, the tasks of the pool have pairwise
    different URLs, and the URLs that the running drain still has to pop
    are not in the pool. *)
Record inv_dup (s : State) : Prop := {
  du_urls : NoDup (_urls (results s));
  du_queue : NoDup (t_url <$> queue s);
  du_wq i w :
    workers s !! i = Some w → t_url (w_task w) ∉ t_url <$> queue s;
  du_ww i j wi wj :
    workers s !! i = Some wi → workers s !! j = Some wj →
    t_url (w_task wi) = t_url (w_task wj) → i = j;
  du_drain d n x :
    ctl s = CDrain d n → x ∈ take n (_urls (results s)) → ¬ in_pool s x
}.

Lemma inv_dup_init : inv_dup init.
Proof.
  split; simpl; try done; constructor.
Qed.

Lemma pc_step_urls_NoDup i t pc o s e :
  pc_step self i t pc o s = Some e →
  NoDup (_urls (results s)) → NoDup (_urls (e_results e)).
Proof.
  intros H Hnd. pc_cases H; simpl; try done.
  match goal with H : link_body _ _ _ = LinkFound _ |- _ =>
    apply link_body_found in H as (adj & _ & Hx & _ & _ & _ & ->) end.
  simpl. apply NoDup_app. split_and!; [done| |apply NoDup_singleton].
  intros x Hin ->%list_elem_of_singleton. done.
Qed.

Lemma inv_dup_ctl_step s s' :
  inv_level self s → inv_dup s → ctl_step self s = Some s' → inv_dup s'.
Proof.
  intros [_ _ _ Hc] [Hu Hq Hwq Hww Hd] Hctl. unfold ctl_ok in Hc.
  ctl_cases Hctl.
  all: repeat match goal with
       | H : pool_idle _ = true |- _ =>
           apply pool_idle_true in H as [Hidleq Hidlew]
       | H : ctl _ = _ |- _ => rewrite H in *
       end; simpl in *.
  - (* CStart *)
    destruct Hc as (Hq0 & Hw0 & _).
    split; simpl; try done.
    + rewrite Hq0. simpl. apply NoDup_singleton.
    + intros i w. by rewrite Hw0, lookup_empty.
  - (* CLoop, another level *)
    split; simpl; try done.
    intros d n x _ _ [Hin|(i & w & Hw & _)]; simpl in *.
    + rewrite Hidleq in Hin. by apply elem_of_nil in Hin.
    + by rewrite Hidlew, lookup_empty in Hw.
  - (* CLoop, the last wait *)
    split; simpl; done.
  - (* CDrain, all passes done *)
    split; simpl; done.
  - (* CDrain, one pass *)
    match goal with H : _urls _ = _ |- _ => rename H into Hurls end.
    rewrite Hurls in *. apply NoDup_cons in Hu as [Hs0 Hx].
    assert (¬ in_pool s s0) as Hpool.
    { eapply Hd; [done|]. simpl. by left. }
    split; simpl.
    + done.
    + rewrite fmap_app. apply NoDup_app. split_and!; [done| |apply NoDup_singleton].
      intros u Hin ->%list_elem_of_singleton. apply Hpool. by left.
    + intros i w Hw. rewrite fmap_app, not_elem_of_app. split; [by eauto|].
      simpl. intros E%list_elem_of_singleton. apply Hpool. right. eauto.
    + done.
    + intros d' n' u [= <- <-] Hin [Hq'|Hw']; simpl in *.
      * rewrite fmap_app, elem_of_app in Hq'. destruct Hq' as [Hq'|Hq'].
        -- eapply (Hd _ _ u); [done| |by left]. simpl. by right.
        -- simpl in Hq'. apply list_elem_of_singleton in Hq' as ->.
           apply Hs0. by eapply subseteq_take.
      * eapply (Hd _ _ u); [done| |by right]. simpl. by right.
  - (* CDrain, popleft from an empty deque *)
    split; simpl; done.
Qed.

Lemma inv_dup_step a s s' :
  inv_level self s → inv_dup s → step self a s = Some s' → inv_dup s'.
Proof.
  intros Hlv Hinv [Hctl|i Hi Htake|i t pc o e Hwi He ->]%step_kind.
  - by eapply inv_dup_ctl_step.
  - destruct Hinv as [Hu Hq Hwq Hww Hd].
    apply take_task_inv in Htake as (t & q & Hqs & _ & ->).
    rewrite Hqs in *. simpl in *. apply NoDup_cons in Hq as [Htq Hq].
    split; simpl.
    + done.
    + done.
    + intros j w [[-> <-]|[_ Hw]]%lookup_insert_Some; simpl; [done|].
      specialize (Hwq _ _ Hw). by apply not_elem_of_cons in Hwq as [_ ?].
    + intros j k wj wk [[-> <-]|[? Hj]]%lookup_insert_Some
                       [[-> <-]|[? Hk]]%lookup_insert_Some; simpl;
        [done| | |by eauto].
      * intros E. specialize (Hwq _ _ Hk). rewrite <-E in Hwq.
        by apply not_elem_of_cons in Hwq as [? _].
      * intros E. specialize (Hwq _ _ Hj). rewrite E in Hwq.
        by apply not_elem_of_cons in Hwq as [? _].
    + intros d n x Hc Hx [Hin|(j & w & Hw & Hjx)]; simpl in *;
        (eapply (Hd d n x); [done..|]).
      * left. rewrite Hqs. simpl. by right.
      * apply lookup_insert_Some in Hw as [[-> <-]|[_ Hw]]; simpl in *.
        -- left. rewrite Hqs. simpl. rewrite <-Hjx. by left.
        -- right. eauto.
  - destruct Hinv as [Hu Hq Hwq Hww Hd].
    split; simpl.
    + by eapply pc_step_urls_NoDup.
    + done.
    + intros j w [(-> & pc' & _ & ->)|[_ ?]]%next_workers_Some; simpl;
        [|by eauto]. by apply (Hwq _ _ Hwi).
    + intros j k wj wk [(-> & pcj & _ & ->)|[? Hj]]%next_workers_Some
                       [(-> & pck & _ & ->)|[? Hk]]%next_workers_Some; simpl;
        [done| | |by eauto].
      * intros E. by apply (Hww _ _ _ _ Hwi Hk).
      * intros E. by apply (Hww _ _ _ _ Hj Hwi).
    + intros d n x Hc Hx [Hin|(j & w & Hw & Hjx)]; simpl in *.
      all: destruct Hlv as [_ _ _ Hok]; unfold ctl_ok in Hok;
        rewrite Hc in Hok; destruct Hok as [_ Hn];
        rewrite (pc_step_urls _ _ _ _ _ _ _ He), take_app_le in Hx by done;
        eapply (Hd d n x); [done..|].
      * by left.
      * right. apply next_workers_Some in Hw as [(-> & pc' & _ & ->)|[_ ?]];
          simpl in *; eauto.
Qed.

End Distinct.

(** ** The visit records *)

(** [visited] after the given calls of [urlopen] have been recorded. *)
Definition replay (fs : list (string * FetchOutcome))
    : gmap string VisitInfo :=
  foldl (λ V f, get_record f.1 (get_try f.1 f.2) V) ∅ fs.

(** The call of [urlopen] that has returned but is not recorded yet:
    the owner of [connectLock] stands before line 186. *)
Definition pending (s : State) : option (Task * GetLocals) :=
  i ← connectLock s;
  w ← workers s !! i;
  match w_pc w with
  | PFinally L => Some (w_task w, L)
  | _ => None
  end.

(** How often [u] was fetched in [fs]. *)
Definition attempts (u : string) (fs : list (string * FetchOutcome)) : nat :=
  length (filter (λ f, f.1 = u) fs).

Section Visits.

Variable self : Spider.

(** [visited] is what the recorded calls of [urlopen] make it. *)
Definition inv_visit (s : State) : Prop :=
  match pending s with
  | Some (t, L) =>
      ∃ fs o, fetches (trace s) = fs ++ [(t_url t, o)] ∧
        L = get_try (t_url t) o ∧ visited (results s) = replay fs
  | None => visited (results s) = replay (fetches (trace s))
  end.

Lemma replay_snoc fs u o :
  replay (fs ++ [(u, o)]) = get_record u (get_try u o) (replay fs).
Proof. unfold replay. by rewrite foldl_snoc. Qed.

Lemma fetches_app tr1 tr2 : fetches (tr1 ++ tr2) = fetches tr1 ++ fetches tr2.
Proof. apply omap_app. Qed.

Lemma fetches_when b e :
  (∀ t o, e ≠ EvFetch t o) → fetches (when b e) = [].
Proof. intros H. destruct b; [|done]. destruct e; try done. by destruct (H t o). Qed.

Lemma pending_frame s s' :
  connectLock s' = connectLock s →
  (∀ j, connectLock s = Some j → workers s' !! j = workers s !! j) →
  pending s' = pending s.
Proof.
  intros Hl Hw. unfold pending. rewrite Hl.
  destruct (connectLock s) as [j|]; simpl; [|done]. by rewrite Hw.
Qed.

Lemma ctl_step_fetches s s' :
  ctl_step self s = Some s' → fetches (trace s') = fetches (trace s).
Proof.
  intros H. ctl_cases H; simpl; rewrite ?fetches_app, ?fetches_when;
    simpl; by rewrite ?app_nil_r.
Qed.

Lemma pc_step_fetches i t pc o s e :
  pc_step self i t pc o s = Some e →
  fetches (effect_events t e) =
    match o with Some o' => [(t_url t, o')] | None => [] end.
Proof.
  intros H. unfold effect_events. pc_cases H; simpl; try done.
  all: rewrite ?fetches_app, ?fetches_when; simpl; done.
Qed.

Lemma pc_step_visited i t pc o s e :
  pc_step self i t pc o s = Some e →
  visited (e_results e) =
    match pc with
    | PFinally L => get_record (t_url t) L (visited (results s))
    | _ => visited (results s)
    end.
Proof.
  intros H. pc_cases H; simpl; try done.
  match goal with H : link_body _ _ _ = LinkFound _ |- _ =>
    apply link_body_found in H as (adj & _ & _ & _ & _ & _ & ->) end.
  done.
Qed.

Lemma inv_visit_init : inv_visit init.
Proof. done. Qed.

Lemma inv_visit_step a s s' :
  inv_locks s → inv_visit s → step self a s = Some s' → inv_visit s'.
Proof.
  intros [Hc _] Hinv [Hctl|i Hi Htake|i t pc o e Hwi He ->]%step_kind.
  - pose proof (ctl_step_fetches _ _ Hctl) as Hf.
    apply ctl_step_frame in Hctl as (E1 & _ & E3 & _ & E5).
    unfold inv_visit in *. rewrite Hf, E5.
    rewrite (pending_frame s s'); [done|done|]. intros. by rewrite E3.
  - apply take_task_inv in Htake as (t & q & _ & _ & ->).
    unfold inv_visit in *. simpl.
    erewrite (pending_frame s); [done|done|]. simpl.
    intros j Hj. destruct Hc as [Hc _]. destruct (Hc j Hj) as (w & Hw & _).
    rewrite lookup_insert_ne; [done|congruence].
  - pose proof (pc_step_fetches _ _ _ _ _ _ He) as Hf.
    pose proof (pc_step_visited _ _ _ _ _ _ He) as Hv.
    pose proof (pc_step_locks _ _ _ _ _ _ _ He) as [Hch _].
    pose proof (lock_ok_owner _ _ _ _ _ Hc Hwi) as Hown. simpl in Hown.
    assert (fetches (trace (apply_effect i t e s)) =
            fetches (trace s) ++
            match o with Some o' => [(t_url t, o')] | None => [] end) as Htr.
    { simpl. by rewrite fetches_app, <-Hf. }
    unfold inv_visit in *. rewrite Htr. clear Htr Hf.
    change (results (apply_effect i t e s)) with (e_results e). rewrite Hv.
    clear Hv.
    destruct Hch as [[Hl Hh]|[(Hl & Hl' & Hh)|(Hpc & Hl' & Hh)]].
    + (* the lock stays where it is *)
      destruct (holds_connect pc) eqn:Hpc.
      * (* and this worker owns it *)
        assert (connectLock s = Some i) as Hown' by by apply Hown.
        unfold pending in *. simpl. rewrite Hl.
        rewrite Hown' in *. simpl in *. rewrite Hwi in Hinv. simpl in Hinv.
        pc_cases He; simpl in *; try done; rewrite lookup_insert_eq; simpl.
        -- by eauto.
        -- destruct Hinv as (fs & o & -> & -> & ->).
           by rewrite app_nil_r, replay_snoc.
        -- by rewrite app_nil_r.
      * (* and this worker does not own it *)
        assert (connectLock s ≠ Some i) as Hown'.
        { rewrite <-Hown. congruence. }
        rewrite (pending_frame s).
        -- destruct (pending s) as [[t0 L0]|].
           all: pc_cases He; simpl in *; rewrite ?app_nil_r; done.
        -- done.
        -- intros j Hj. simpl.
           apply (next_workers_ne i j t (e_next e)). congruence.
    + (* the lock is taken *)
      unfold pending in *. simpl. rewrite Hl'. rewrite Hl in Hinv.
      simpl in *. 
      pc_cases He; simpl in *; try congruence; rewrite lookup_insert_eq; simpl.
      by rewrite app_nil_r.
    + (* the lock is given back *)
      assert (connectLock s = Some i) as Hown' by by apply Hown.
      unfold pending in *. simpl. rewrite Hl'.
      rewrite Hown' in *. simpl in *. rewrite Hwi in Hinv. simpl in Hinv.
      pc_cases He; simpl in *; try done.
      all: by rewrite app_nil_r.
Qed.

End Visits.

(** ** Pages that are being processed *)

(** What holds of the shared results while a worker stands at [pc] in
    the task for [u]: after the visit record is written it is there; once
    [_get] has returned a response the record is that of a live page and
    [u] is a key of [graph]. *)
Definition live_ok (r : SpiderResults) (u : string) (pc : PC) : Prop :=
  match pc with
  | PConnect | PUrlopen => True
  | PFinally L => ∃ o, L = get_try u o
  | PGraphAcq L | PGraphInit L =>
      (∃ o, L = get_try u o) ∧
      ∃ v, visited r !! u = Some v ∧ dead v = l_isDead L ∧ exc v = l_exc L
  | PPage _ | PLink _ | PLinkLocked _ _ =>
      is_Some (graph r !! u) ∧
      ∃ v, visited r !! u = Some v ∧ dead v = false
  end.

Section Live.

Variable self : Spider.

Definition inv_live (s : State) : Prop :=
  ∀ i w, workers s !! i = Some w →
    live_ok (results s) (t_url (w_task w)) (w_pc w).

Lemma get_record_lookup u L (V : gmap string VisitInfo) :
  ∃ v, get_record u L V !! u = Some v ∧
    redirected v = l_redirected L ∧ redirectUrl v = l_redirectUrl L ∧
    content_type v = l_contentType L ∧ content_enc v = l_contentEnc L ∧
    dead v = l_isDead L ∧ exc v = l_exc L ∧
    times v = match V !! u with Some v0 => (times v0 + 1)%nat | None => 1%nat end.
Proof. unfold get_record. rewrite lookup_insert_eq. eexists. by split. Qed.

Lemma get_record_lookup_ne u u' L (V : gmap string VisitInfo) :
  u ≠ u' → get_record u L V !! u' = V !! u'.
Proof. intros. unfold get_record. by rewrite lookup_insert_ne. Qed.

Lemma get_graph_mono u u' L (G : gmap string (list string)) :
  is_Some (G !! u') → is_Some (get_graph u L G !! u').
Proof.
  unfold get_graph. case_match; [|done]. intros Hu.
  destruct (decide (u = u')) as [->|]; [by rewrite lookup_insert_eq|].
  by rewrite lookup_insert_ne.
Qed.

Lemma get_graph_live u L (G : gmap string (list string)) :
  l_isDead L = false → is_Some (get_graph u L G !! u).
Proof.
  intros HL. unfold get_graph. rewrite HL. simpl.
  case_bool_decide as Hd; simpl.
  - by apply elem_of_dom in Hd.
  - by rewrite lookup_insert_eq.
Qed.

Lemma pc_step_graph_mono i t pc o s e u :
  pc_step self i t pc o s = Some e →
  is_Some (graph (results s) !! u) → is_Some (graph (e_results e) !! u).
Proof.
  intros H Hu. pc_cases H; simpl; try done.
  all: try (by apply get_graph_mono).
  match goal with H : link_body _ _ _ = LinkFound _ |- _ =>
    apply link_body_found in H as (adj & _ & _ & _ & _ & _ & ->) end.
  simpl. destruct (decide (t_url t = u)) as [->|].
  - by rewrite lookup_insert_eq.
  - by rewrite lookup_insert_ne.
Qed.

Lemma pc_step_visited_ne i t pc o s e u :
  pc_step self i t pc o s = Some e → t_url t ≠ u →
  visited (e_results e) !! u = visited (results s) !! u.
Proof.
  intros H Hne. rewrite (pc_step_visited _ _ _ _ _ _ _ H).
  destruct pc; try done. by apply get_record_lookup_ne.
Qed.

Lemma live_ok_frame r r' u pc :
  visited r' !! u = visited r !! u →
  (is_Some (graph r !! u) → is_Some (graph r' !! u)) →
  live_ok r u pc → live_ok r' u pc.
Proof.
  intros Hv Hg. destruct pc; simpl; rewrite ?Hv; try done.
  all: intros [? ?]; split; by auto.
Qed.

Lemma inv_live_init : inv_live init.
Proof. intros i w. simpl. by rewrite lookup_empty. Qed.

Lemma get_try_response u o r :
  l_response (get_try u o) = Some r → l_isDead (get_try u o) = false.
Proof. by destruct o. Qed.

Lemma inv_live_step a s s' :
  inv_dup s → inv_live s → step self a s = Some s' → inv_live s'.
Proof.
  intros Hdup Hinv [Hctl|i Hi Htake|i t pc o e Hwi He ->]%step_kind.
  - apply ctl_step_frame in Hctl as (_ & _ & E3 & E4 & E5).
    intros i w. rewrite E3. intros Hw. specialize (Hinv _ _ Hw).
    eapply live_ok_frame; [| |done]; by rewrite ?E4, ?E5.
  - apply take_task_inv in Htake as (t & q & _ & _ & ->).
    intros j w. simpl. intros [[-> <-]|[_ Hw]]%lookup_insert_Some; [done|].
    by apply (Hinv _ _ Hw).
  - intros j w. simpl.
    intros [(-> & pc' & Hn & ->)|[Hne Hw]]%next_workers_Some; simpl.
    + specialize (Hinv _ _ Hwi). simpl in Hinv.
      pc_cases He; simpl in *; simplify_eq; try done; unfold live_ok; simpl.
      * by eauto.
      * split; [done|].
        destruct (get_record_lookup (t_url t) L (visited (results s)))
          as (v & Hv & _ & _ & _ & _ & Hd & Hx & _).
        by eauto.
      * destruct Hinv as [[o' ->] (v & Hv & Hd & _)].
        match goal with H : l_response _ = Some _ |- _ =>
          apply get_try_response in H as Hlive end.
        split; [by apply get_graph_live|]. exists v. split; congruence.
      * match goal with H : link_body _ _ _ = LinkFound _ |- _ =>
          apply link_body_found in H as (adj & _ & _ & _ & _ & _ & ->) end.
        simpl. rewrite lookup_insert_eq. split; [by eauto|]. by apply Hinv.
    + specialize (Hinv _ _ Hw).
      assert (t_url t ≠ t_url (w_task w)) as Hu.
      { intros E. by apply Hne, (du_ww _ Hdup _ _ _ _ Hw Hwi). }
      eapply live_ok_frame; [| |done].
      * by eapply pc_step_visited_ne.
      * by eapply pc_step_graph_mono.
Qed.

End Live.

(** ** The adjacency lists *)

Definition ctl_event (e : Event) : Prop :=
  match e with
  | EvLevelCb _ | EvSubmit _ => True
  | _ => False
  end.

Definition adjacency (r : SpiderResults) (u : string) : list string :=
  default [] (graph r !! u).

Section Graph.

Variable self : Spider.

Lemma ctl_step_trace s s' :
  ctl_step self s = Some s' →
  ∃ evs, trace s' = trace s ++ evs ∧ Forall ctl_event evs.
Proof.
  intros H. ctl_cases H; simpl.
  all: try (exists []; by rewrite app_nil_r).
  - eexists. rewrite <-(assoc_L app). split; [done|].
    destruct (levelCallback self); simpl; by repeat constructor.
  - eexists. split; [done|].
    destruct (levelCallback self); simpl; by repeat constructor.
  - eexists. split; [done|]. by repeat constructor.
Qed.

Lemma discovered_by_ctl u evs : Forall ctl_event evs → discovered_by u evs = [].
Proof. induction 1 as [|[] ? ? ? IH]; simpl in *; done. Qed.

Lemma linkcbs_by_ctl u evs : Forall ctl_event evs → linkcbs_by u evs = [].
Proof. induction 1 as [|[] ? ? ? IH]; simpl in *; done. Qed.

Lemma discovered_ctl l evs : Forall ctl_event evs → discovered l evs = [].
Proof. induction 1 as [|[] ? ? ? IH]; simpl in *; done. Qed.

Lemma get_graph_adjacency u u' L (G : gmap string (list string)) :
  default [] (get_graph u L G !! u') = default [] (G !! u').
Proof.
  unfold get_graph. case_match eqn:E; [|done].
  apply andb_true_iff in E as [_ E]. apply negb_true_iff in E.
  apply bool_decide_eq_false in E. apply not_elem_of_dom in E.
  destruct (decide (u = u')) as [<-|].
  - by rewrite lookup_insert_eq, E.
  - by rewrite lookup_insert_ne.
Qed.

Lemma get_graph_lookup u u' L (G : gmap string (list string)) adj :
  get_graph u L G !! u' = Some adj → adj = [] ∨ G !! u' = Some adj.
Proof.
  unfold get_graph. case_match; [|by right].
  destruct (decide (u = u')) as [<-|].
  - rewrite lookup_insert_eq. intros [= <-]. by left.
  - rewrite lookup_insert_ne by done. by right.
Qed.

(** What a step of a worker does to the adjacency lists, and which
    links it reports. *)
Lemma pc_step_graph i t pc o s e :
  pc_step self i t pc o s = Some e →
  (∀ u, adjacency (e_results e) u =
        adjacency (results s) u ++ discovered_by u (effect_events t e)) ∧
  (∀ u, lk_link <$> linkcbs_by u (effect_events t e) =
        if linkCallback self then discovered_by u (effect_events t e) else []) ∧
  (∀ u adj', graph (e_results e) !! u = Some adj' →
     (∀ adj, graph (results s) !! u = Some adj → NoDup adj) → NoDup adj').
Proof.
  intros H. unfold adjacency, effect_events. pc_cases H; simpl.
  all: try (split_and!; [intros; by rewrite app_nil_r
                        |by destruct (linkCallback self)
                        |by eauto]).
  all: try (split_and!;
            [intros; by rewrite app_nil_r, get_graph_adjacency
            |by destruct (linkCallback self)
            |intros u adj' [->|?]%get_graph_lookup ?;
               [apply NoDup_nil_2|by eauto]]).
  all: try (destruct (responseCallback self), (htmlCallback self),
              (linkCallback self); simpl;
            (split_and!; [intros; by rewrite app_nil_r|done|by eauto])).
  match goal with H : link_body _ _ _ = LinkFound _ |- _ =>
    apply link_body_found in H as (adj & _ & _ & _ & Hadj & Hx & ->) end.
  simpl. split_and!.
  - intros u. destruct (decide (t_url t = u)) as [<-|].
    + rewrite lookup_insert_eq, Hadj. simpl.
      by destruct (linkCallback self).
    + rewrite lookup_insert_ne by done.
      destruct (linkCallback self); simpl; by rewrite app_nil_r.
  - intros u. destruct (linkCallback self); simpl; [|done].
    by destruct (decide (t_url t = u)).
  - intros u adj'. destruct (decide (t_url t = u)) as [<-|].
    + rewrite lookup_insert_eq. intros [= <-] Hnd.
      apply NoDup_app. split_and!; [by eauto| |apply NoDup_singleton].
      intros x Hin ->%list_elem_of_singleton. done.
    + rewrite lookup_insert_ne by done. by eauto.
Qed.

(** [graph[u]] holds the links discovered on [u], each once, and
    [linkCallback] was called for each of them. *)
Record inv_graph (s : State) : Prop := {
  gr_adj u : adjacency (results s) u = discovered_by u (trace s);
  gr_nodup u adj : graph (results s) !! u = Some adj → NoDup adj;
  gr_cb u :
    lk_link <$> linkcbs_by u (trace s) =
    if linkCallback self then discovered_by u (trace s) else []
}.

Lemma inv_graph_init : inv_graph init.
Proof. split; try done. intros u. simpl. by destruct (linkCallback self). Qed.

Lemma inv_graph_step a s s' :
  inv_graph s → step self a s = Some s' → inv_graph s'.
Proof.
  intros [Ha Hn Hcb] [Hctl|i Hi Htake|i t pc o e Hwi He ->]%step_kind.
  - destruct (ctl_step_trace _ _ Hctl) as (evs & Htr & Hevs).
    apply ctl_step_frame in Hctl as (_ & _ & _ & E4 & _).
    split; unfold adjacency; rewrite ?E4, ?Htr.
    + intros u. unfold discovered_by. rewrite omap_app.
      fold (discovered_by u evs). rewrite discovered_by_ctl by done.
      rewrite app_nil_r. apply Ha.
    + done.
    + intros u. unfold discovered_by, linkcbs_by. rewrite !omap_app.
      fold (discovered_by u evs) (linkcbs_by u evs).
      rewrite discovered_by_ctl, linkcbs_by_ctl by done.
      rewrite !app_nil_r. apply Hcb.
  - apply take_task_inv in Htake as (t & q & _ & _ & ->). by split.
  - destruct (pc_step_graph _ _ _ _ _ _ He) as (Ha' & Hcb' & Hn').
    split; rewrite ?apply_effect_trace, ?apply_effect_results.
    + intros u. rewrite Ha', Ha. unfold discovered_by. by rewrite omap_app.
    + intros u adj Hadj. eapply Hn'; [done|]. apply Hn.
    + intros u. unfold discovered_by, linkcbs_by. rewrite !omap_app, fmap_app.
      fold (discovered_by u (trace s)) (linkcbs_by u (trace s)).
      fold (discovered_by u (effect_events t e))
           (linkcbs_by u (effect_events t e)).
      rewrite Hcb, Hcb'. by destruct (linkCallback self).
Qed.

End Graph.

(** ** The deque between two drains *)

(** The levels whose pages have all been handed to the pool. *)
Definition done_level (c : Ctl) : Z :=
  match c with
  | CStart | CRaised _ => 0
  | CLoop d | CDrain d _ | CDone d => d
  end.

(** The arguments of the calls of [levelCallback], in order. *)
Definition levels_started (tr : list Event) : list Z :=
  omap (λ e, match e with EvLevelCb l => Some l | _ => None end) tr.

Section Frontier.

Variable self : Spider.

(** [_urls] holds what the pages of the current level have discovered
    (behind what a running drain still has to pop), and each level was
    submitted as the level before discovered it. *)
Record inv_frontier (s : State) : Prop := {
  fr_seed : ctl s ≠ CStart → submitted 1 (trace s) = [url self];
  fr_sub l :
    1 ≤ l < done_level (ctl s) →
    submitted (l + 1) (trace s) = discovered l (trace s);
  fr_cur :
    match ctl s with
    | CStart => _urls (results s) = []
    | CLoop d | CDone d => _urls (results s) = discovered d (trace s)
    | CDrain d n =>
        submitted (d + 1) (trace s) ++ take n (_urls (results s)) =
          discovered d (trace s) ∧
        drop n (_urls (results s)) = discovered (d + 1) (trace s)
    | CRaised _ => True
    end;
  fr_nodup l : NoDup (discovered l (trace s));
  fr_levels :
    levels_started (trace s) =
    if levelCallback self
    then match ctl s with
         | CStart => []
         | c => seqZ 1 (cur_level c)
         end
    else []
}.

Lemma inv_frontier_init : inv_frontier init.
Proof.
  split; simpl.
  - done.
  - intros. lia.
  - done.
  - intros. constructor.
  - by destruct (levelCallback self).
Qed.

Lemma submitted_app l tr1 tr2 :
  submitted l (tr1 ++ tr2) = submitted l tr1 ++ submitted l tr2.
Proof. apply omap_app. Qed.

Lemma discovered_app l tr1 tr2 :
  discovered l (tr1 ++ tr2) = discovered l tr1 ++ discovered l tr2.
Proof. apply omap_app. Qed.

Lemma levels_started_app tr1 tr2 :
  levels_started (tr1 ++ tr2) = levels_started tr1 ++ levels_started tr2.
Proof. apply omap_app. Qed.

Lemma above_level_nil c l tr :
  Forall (λ e, ev_level e ≤ c) tr → c < l →
  discovered l tr = [] ∧ submitted l tr = [].
Proof.
  intros H Hl. induction H as [|e tr He _ [IH1 IH2]]; [done|].
  change (e :: tr) with ([e] ++ tr).
  rewrite discovered_app, submitted_app, IH1, IH2, !app_nil_r.
  destruct e; simpl in *; try done; case_decide; try done; lia.
Qed.

(** The events of a worker: no submission, no level callback, and
    discoveries at the level of its task only. *)
Lemma pc_step_events i t pc o s e :
  pc_step self i t pc o s = Some e →
  (∀ l, submitted l (effect_events t e) = []) ∧
  levels_started (effect_events t e) = [] ∧
  (∀ l, l ≠ t_level t → discovered l (effect_events t e) = []) ∧
  discovered (t_level t) (effect_events t e) =
    discovered (t_level t) (e_events e).
Proof.
  intros H. unfold effect_events. pc_cases H; simpl.
  all: try done.
  all: try (destruct (responseCallback self), (htmlCallback self); by simpl).
  destruct (linkCallback self); simpl; (split_and!; try done).
  all: intros l Hl; by rewrite decide_False.
Qed.

Lemma seqZ_snoc d : 0 ≤ d → seqZ 1 (d + 1) = seqZ 1 d ++ [d + 1].
Proof.
  intros. rewrite seqZ_app by lia. f_equal.
  rewrite seqZ_cons by lia. rewrite seqZ_nil by lia. f_equal. lia.
Qed.

Lemma inv_frontier_ctl_step s s' :
  inv_level self s → inv_dup s → inv_frontier s →
  ctl_step self s = Some s' → inv_frontier s'.
Proof.
  intros [_ _ [Hle _] Hc] Hdup [Hseed Hsub Hcur Hnd Hlv] Hctl.
  unfold ctl_ok in Hc. ctl_cases Hctl.
  all: repeat match goal with
       | H : pool_idle _ = true |- _ =>
           apply pool_idle_true in H as [Hidleq Hidlew]
       | H : bool_decide _ = _ |- _ =>
           first [apply bool_decide_eq_true in H
                 |apply bool_decide_eq_false in H]
       | H : ctl _ = _ |- _ => rewrite H in *
       end; simpl in *.
  - (* CStart *)
    destruct Hc as (_ & _ & Htr).
    split; simpl; rewrite Htr; simpl.
    + intros _. by destruct (levelCallback self).
    + intros. lia.
    + rewrite Hcur. by destruct (levelCallback self).
    + intros l. destruct (levelCallback self); simpl; constructor.
    + by destruct (levelCallback self).
  - (* CLoop, another level *)
    assert (∀ l, discovered l (when (levelCallback self) (EvLevelCb (depth + 1))) = []
                 ∧ submitted l (when (levelCallback self) (EvLevelCb (depth + 1))) = [])
      as Hw. { intros l. by destruct (levelCallback self). }
    destruct (above_level_nil depth (depth + 1) (trace s)) as [Hd0 Hs0];
      [done|lia|].
    split; simpl.
    + intros _. rewrite submitted_app, (proj2 (Hw _)), app_nil_r.
      by apply Hseed.
    + intros l Hl. rewrite submitted_app, discovered_app.
      rewrite (proj1 (Hw _)), (proj2 (Hw _)), !app_nil_r. by apply Hsub.
    + rewrite !submitted_app, !discovered_app.
      rewrite !(proj1 (Hw _)), !(proj2 (Hw _)), !app_nil_r.
      rewrite firstn_all, drop_all, Hs0, Hd0. done.
    + intros l. rewrite discovered_app, (proj1 (Hw _)), app_nil_r. apply Hnd.
    + rewrite levels_started_app, Hlv.
      destruct (levelCallback self); simpl; [|done].
      apply eq_sym, seqZ_snoc. lia.
  - (* CLoop, the last wait *)
    split; simpl; try done. intros _. by apply Hseed.
  - (* CDrain, all passes done *)
    destruct Hcur as [Hcur1 Hcur2]. rewrite take_0, app_nil_r in Hcur1.
    rewrite drop_0 in Hcur2.
    split; simpl; try done.
    + intros _. by apply Hseed.
    + intros l Hl. destruct (decide (l = depth)) as [->|]; [done|].
      apply Hsub. lia.
  - (* CDrain, one pass *)
    match goal with H : _urls _ = _ |- _ => rename H into Hurls end.
    rewrite Hurls in *. simpl in *. destruct Hcur as [Hcur1 Hcur2].
    split; simpl.
    + intros _. rewrite submitted_app. simpl.
      rewrite decide_False by lia. rewrite app_nil_r. by apply Hseed.
    + intros l Hl. rewrite submitted_app, discovered_app. simpl.
      rewrite decide_False by lia. rewrite !app_nil_r. by apply Hsub.
    + rewrite !submitted_app, !discovered_app. simpl.
      rewrite decide_True by done. rewrite !app_nil_r, <-(assoc_L app).
      by split.
    + intros l. rewrite discovered_app. simpl. rewrite app_nil_r. apply Hnd.
    + rewrite levels_started_app. simpl. by rewrite app_nil_r.
  - (* CDrain, popleft from an empty deque: excluded *)
    match goal with H : _urls _ = [] |- _ => rewrite H in Hc end.
    simpl in Hc. lia.
Qed.

Lemma inv_frontier_step a s s' :
  inv_level self s → inv_dup s → inv_frontier s →
  step self a s = Some s' → inv_frontier s'.
Proof.
  intros Hlevel Hdup Hinv Hstep.
  pose proof (inv_dup_step self _ _ _ Hlevel Hdup Hstep) as Hdup'.
  apply step_kind in Hstep as [Hctl|i Hi Htake|i t pc o e Hwi He ->].
  - by eapply inv_frontier_ctl_step.
  - apply take_task_inv in Htake as (t & q & _ & _ & ->).
    destruct Hinv. by split.
  - destruct Hinv as [Hseed Hsub Hcur Hnd Hlv].
    destruct (pc_step_events _ _ _ _ _ _ He) as (Es & El & Ed & Ed').
    pose proof (pc_step_urls _ _ _ _ _ _ _ He) as Eu. rewrite <-Ed' in Eu.
    pose proof (lv_workers _ _ Hlevel _ _ Hwi) as Ht. simpl in Ht.
    pose proof (lv_ctl _ _ Hlevel) as Hok. unfold ctl_ok in Hok.
    rewrite Ht in Eu.
    assert (∀ l, l ≠ cur_level (ctl s) →
              discovered l (trace s ++ effect_events t e) =
              discovered l (trace s)) as Hother.
    { intros l Hl. rewrite discovered_app, Ed, app_nil_r; [done|congruence]. }
    assert (fr_cur' :
      match ctl s with
      | CStart => _urls (e_results e) = []
      | CLoop d | CDone d =>
          _urls (e_results e) = discovered d (trace s ++ effect_events t e)
      | CDrain d n =>
          submitted (d + 1) (trace s ++ effect_events t e) ++
            take n (_urls (e_results e)) =
            discovered d (trace s ++ effect_events t e) ∧
          drop n (_urls (e_results e)) =
            discovered (d + 1) (trace s ++ effect_events t e)
      | CRaised _ => True
      end).
    { destruct (ctl s) eqn:Hctl; simpl in *.
      - destruct Hok as (_ & Hw0 & _). by rewrite Hw0, lookup_empty in Hwi.
      - by rewrite Eu, discovered_app, Hcur.
      - destruct Hcur as [Hc1 Hc2]. destruct Hok as [_ Hn].
        rewrite Eu, submitted_app, Es, app_nil_r.
        rewrite take_app_le, drop_app_le by done.
        rewrite Hother by lia. rewrite discovered_app, Hc2. done.
      - by rewrite Eu, discovered_app, Hcur.
      - done. }
    split; rewrite ?apply_effect_trace, ?apply_effect_results; simpl ctl.
    + intros Hne. rewrite submitted_app, Es, app_nil_r. by apply Hseed.
    + intros l Hl. rewrite submitted_app, Es, app_nil_r.
      rewrite Hother; [by apply Hsub|].
      destruct (ctl s); simpl in *; lia.
    + exact fr_cur'.
    + intros l. destruct (decide (l = cur_level (ctl s))) as [->|Hl];
        [|rewrite Hother by done; apply Hnd].
      pose proof (du_urls _ Hdup') as Hnd'. simpl in Hnd'.
      destruct (ctl s) eqn:Hctl; simpl in *.
      * destruct Hok as (_ & Hw0 & _). by rewrite Hw0, lookup_empty in Hwi.
      * by rewrite <-fr_cur'.
      * destruct fr_cur' as [_ <-].
        eapply sublist_NoDup; [exact Hnd'|apply sublist_drop].
      * by rewrite <-fr_cur'.
      * done.
    + rewrite levels_started_app, El, app_nil_r, Hlv. done.
Qed.

End Frontier.

(** ** Submitted tasks end *)

Section Ended.

Variable self : Spider.

Definition running (s : State) (t : Task) : Prop :=
  t ∈ queue s ∨ ∃ i w, workers s !! i = Some w ∧ w_task w = t.

(** A submitted task is queued, running or over. *)
Definition inv_ended (s : State) : Prop :=
  ∀ t, EvSubmit t ∈ trace s → (∃ x, EvEnd t x ∈ trace s) ∨ running s t.

Lemma inv_ended_init : inv_ended init.
Proof. intros t H. by apply elem_of_nil in H. Qed.

Lemma when_elem_of b (e e' : Event) : e' ∈ when b e → e' = e.
Proof. destruct b; simpl; [by intros ?%list_elem_of_singleton|by intros ?%elem_of_nil]. Qed.

Lemma pc_step_no_submit i t pc o s e t' :
  pc_step self i t pc o s = Some e → EvSubmit t' ∉ effect_events t e.
Proof.
  intros H Hin. unfold effect_events in Hin. pc_cases H; simpl in *.
  all: repeat (apply elem_of_app in Hin as [Hin|Hin]
               || apply elem_of_cons in Hin as [Hin|Hin]
               || apply when_elem_of in Hin
               || apply elem_of_nil in Hin); done.
Qed.

Lemma effect_events_end t e :
  (∃ pc, e_next e = Goto pc) ∨ ∃ x, EvEnd t x ∈ effect_events t e.
Proof.
  unfold effect_events. destruct (e_next e); [left; eauto|right..].
  - exists None. apply elem_of_app. right. by left.
  - eexists (Some _). apply elem_of_app. right. by left.
Qed.

Lemma ctl_step_submits s s' t :
  ctl_step self s = Some s' →
  (t ∈ queue s → t ∈ queue s') ∧
  (EvSubmit t ∈ trace s' → EvSubmit t ∈ trace s ∨ t ∈ queue s').
Proof.
  intros H. ctl_cases H; simpl; rewrite ?elem_of_app; split; auto.
  all: intros Hin;
    repeat match goal with
           | H : _ ∨ _ |- _ => destruct H
           | H : _ ∈ when _ _ |- _ => apply when_elem_of in H
           | H : _ ∈ [_] |- _ => apply list_elem_of_singleton in H
           end; simplify_eq; auto.
  all: right; right; by apply list_elem_of_singleton.
Qed.

Lemma inv_ended_step a s s' :
  inv_ended s → step self a s = Some s' → inv_ended s'.
Proof.
  intros Hinv [Hctl|i Hi Htake|i t pc o e Hwi He ->]%step_kind.
  - assert (∀ t, running s t → running s' t) as Hmono.
    { intros t [Hq|Hw]; [left|right].
      - by apply (ctl_step_submits _ _ t Hctl).
      - apply ctl_step_frame in Hctl as (_ & _ & -> & _). done. }
    destruct (ctl_step_trace _ _ _ Hctl) as (evs & Htr & _).
    intros t [Hin|Hin]%(ctl_step_submits _ _ t Hctl); [|right; by left].
    destruct (Hinv t Hin) as [[x Hx]|Hr]; [left|right; by auto].
    exists x. rewrite Htr, elem_of_app. by left.
  - apply take_task_inv in Htake as (t & q & Hq & _ & ->).
    intros t' Hin. simpl in *.
    destruct (Hinv t' Hin) as [Hx|[Hr|(j & w & Hw & <-)]]; [by left|..].
    + right. rewrite Hq in Hr. apply elem_of_cons in Hr as [->|Hr].
      * right. exists i, {| w_task := t; w_pc := PConnect |}.
        simpl. by rewrite lookup_insert_eq.
      * by left.
    + right. right. exists j, w. split; [|done]. simpl.
      rewrite lookup_insert_ne; [done|congruence].
  - intros t'. rewrite apply_effect_trace, elem_of_app.
    intros [Hin|Hin]; [|by eapply pc_step_no_submit in Hin].
    destruct (Hinv t' Hin) as [[x Hx]|[Hr|(j & w & Hw & <-)]].
    + left. exists x. apply elem_of_app. by left.
    + right. by left.
    + destruct (decide (i = j)) as [->|Hne].
      * simplify_eq. simpl.
        destruct (effect_events_end t e) as [[pc' Hn]|[x Hx]].
        -- right. right. exists j, {| w_task := t; w_pc := pc' |}.
           split; [|done]. simpl. rewrite Hn. by rewrite lookup_insert_eq.
        -- left. exists x. apply elem_of_app. by right.
      * right. right. exists j, w. split; [|done].
        simpl. rewrite <-Hw. by apply (next_workers_ne i j t (e_next e)).
Qed.

End Ended.

(** ** The keys of [graph] *)

(** The locals of [_get] once [urlopen] has answered. *)
Definition after_urlopen (pc : PC) : option GetLocals :=
  match pc with
  | PFinally L | PGraphAcq L | PGraphInit L => Some L
  | _ => None
  end.

Section Keys.

Variable self : Spider.

(** The keys of [graph] are the URLs for which [urlopen] returned a
    response, but for the one whose worker has not reached line 202
    yet. *)
Record inv_keys (s : State) : Prop := {
  ky_worker i t pc L :
    workers s !! i = Some {| w_task := t; w_pc := pc |} →
    after_urlopen pc = Some L →
    ∃ o, L = get_try (t_url t) o ∧ (t_url t, o) ∈ fetches (trace s);
  ky_graph u :
    is_Some (graph (results s) !! u) →
    ∃ r, (u, Returns r) ∈ fetches (trace s);
  ky_fetched u r :
    (u, Returns r) ∈ fetches (trace s) →
    is_Some (graph (results s) !! u) ∨
    ∃ i t pc L, workers s !! i = Some {| w_task := t; w_pc := pc |} ∧
      t_url t = u ∧ after_urlopen pc = Some L ∧ l_isDead L = false
}.

Lemma inv_keys_init : inv_keys init.
Proof.
  split; simpl.
  - intros i t pc L. by rewrite lookup_empty.
  - intros u. rewrite lookup_empty. by intros [? ?].
  - intros u r ?%elem_of_nil. done.
Qed.

Lemma get_graph_key u u' L (G : gmap string (list string)) :
  is_Some (get_graph u L G !! u') →
  is_Some (G !! u') ∨ (u' = u ∧ l_isDead L = false).
Proof.
  unfold get_graph. destruct (l_isDead L); simpl; [by left|].
  case_bool_decide; simpl; [by left|].
  destruct (decide (u = u')) as [->|]; [by right|].
  rewrite lookup_insert_ne by done. by left.
Qed.

Lemma pc_step_graph_key i t pc o s e u :
  pc_step self i t pc o s = Some e →
  is_Some (graph (e_results e) !! u) →
  is_Some (graph (results s) !! u) ∨
  (∃ L, pc = PGraphInit L ∧ u = t_url t ∧ l_isDead L = false).
Proof.
  intros H. pc_cases H; simpl; try (by left).
  1,2: intros [?|[-> ?]]%get_graph_key; [by left|right; by eauto..].
  match goal with H : link_body _ _ _ = LinkFound _ |- _ =>
    apply link_body_found in H as (adj & _ & _ & _ & Hadj & _ & ->) end.
  simpl. destruct (decide (t_url t = u)) as [<-|].
  - intros _. left. by eauto.
  - rewrite lookup_insert_ne by done. by left.
Qed.

Lemma pc_step_after_urlopen i t pc o s e pc' L :
  pc_step self i t pc o s = Some e → e_next e = Goto pc' →
  after_urlopen pc' = Some L →
  after_urlopen pc = Some L ∨
  (∃ o', pc = PUrlopen ∧ o = Some o' ∧ L = get_try (t_url t) o').
Proof.
  intros H. pc_cases H; simpl; intros; simplify_eq; simpl in *;
    simplify_eq; try done.
  all: try (left; done).
  right. by eauto.
Qed.

Lemma inv_keys_step a s s' :
  inv_keys s → step self a s = Some s' → inv_keys s'.
Proof.
  intros [Hw Hg Hf] [Hctl|i Hi Htake|i t pc o e Hwi He ->]%step_kind.
  - rewrite <-(ctl_step_fetches _ _ _ Hctl) in *.
    apply ctl_step_frame in Hctl as (_ & _ & E3 & E4 & _).
    split; rewrite ?E3, ?E4; done.
  - apply take_task_inv in Htake as (t & q & _ & _ & ->).
    split; simpl.
    + intros j t' pc L [[-> [= <- <-]]|[_ Hj]]%lookup_insert_Some; [done|].
      by eauto.
    + done.
    + intros u r Hin. destruct (Hf u r Hin) as [?|(j & t' & pc & L & Hj & ?)];
        [by left|right].
      exists j, t', pc, L. split; [|done].
      rewrite lookup_insert_ne; [done|congruence].
  - pose proof (pc_step_fetches _ _ _ _ _ _ _ He) as Hfe.
    assert (∀ f, f ∈ fetches (trace s) →
              f ∈ fetches (trace s ++ effect_events t e)) as Hmono.
    { intros f Hin. rewrite fetches_app, elem_of_app. by left. }
    split; rewrite ?apply_effect_results, ?apply_effect_trace.
    + intros j t' pc' L. simpl.
      intros [(-> & pc1 & Hn & [= <- <-])|[Hne Hj]]%next_workers_Some Hpc.
      * destruct (pc_step_after_urlopen _ _ _ _ _ _ _ _ He Hn Hpc)
          as [Hold|(o' & -> & -> & ->)].
        -- destruct (Hw _ _ _ _ Hwi Hold) as (o1 & ? & ?). by eauto.
        -- eexists. split; [done|].
           rewrite fetches_app, Hfe, elem_of_app.
           right. by left.
      * destruct (Hw _ _ _ _ Hj Hpc) as (o1 & ? & ?). by eauto.
    + intros u [Hu|(L & -> & -> & HL)]%(pc_step_graph_key _ _ _ _ _ _ _ He).
      * destruct (Hg u Hu) as [r Hr]. by eauto.
      * destruct (Hw _ _ _ _ Hwi eq_refl) as (o1 & -> & Hin).
        destruct o1 as [|r]; [done|]. by eauto.
    + intros u r. rewrite fetches_app, Hfe, elem_of_app.
      intros [Hin|Hin].
      * destruct (Hf u r Hin) as [Hu|(j & t' & pc' & L & Hj & <- & Hpc & HL)].
        { left. by eapply pc_step_graph_mono. }
        destruct (decide (i = j)) as [<-|Hne].
        -- simplify_eq. destruct pc; simpl in Hpc; simplify_eq.
           ++ right. pc_cases He. do 4 eexists.
              split; [simpl; by rewrite lookup_insert_eq|done].
           ++ right. pc_cases He. do 4 eexists.
              split; [simpl; by rewrite lookup_insert_eq|done].
           ++ left. pc_cases He; simpl; by apply get_graph_live.
        -- right. exists j, t', pc', L. split; [|done].
           simpl. rewrite <-Hj. by apply (next_workers_ne i j t (e_next e)).
      * destruct o as [o'|]; [|by apply elem_of_nil in Hin].
        apply list_elem_of_singleton in Hin as [= -> <-].
        right. pc_cases He.
        exists i, t, (PFinally (get_try (t_url t) (Returns r))), 
          (get_try (t_url t) (Returns r)).
        simpl. by rewrite lookup_insert_eq.
Qed.

End Keys.

(** ** All invariants *)

Section All.

Variable self : Spider.

Record inv (s : State) : Prop := {
  inv_1 : inv_locks s;
  inv_2 : inv_level self s;
  inv_3 : inv_dup s;
  inv_4 : inv_visit s;
  inv_5 : inv_live s;
  inv_6 : inv_graph self s;
  inv_7 : inv_frontier self s;
  inv_8 : inv_ended s;
  inv_9 : inv_keys s
}.

Lemma reachable_inv s : reachable self s → inv s.
Proof.
  revert s. apply reachable_ind.
  - split.
    + apply inv_locks_init.
    + apply inv_level_init.
    + apply inv_dup_init.
    + apply inv_visit_init.
    + apply inv_live_init.
    + apply inv_graph_init.
    + apply inv_frontier_init.
    + apply inv_ended_init.
    + apply inv_keys_init.
  - intros a s s' _ [] Hstep. split.
    + by eapply inv_locks_step.
    + by eapply inv_level_step.
    + by eapply inv_dup_step.
    + by eapply inv_visit_step.
    + by eapply inv_live_step.
    + by eapply inv_graph_step.
    + by eapply inv_frontier_step.
    + by eapply inv_ended_step.
    + by eapply inv_keys_step.
Qed.

End All.

(** ** What the visit records say *)

(** The record that [_get] writes from its locals, with the count given. *)
Definition visit_info (L : GetLocals) (n : nat) : VisitInfo :=
  {| redirected := l_redirected L;
     redirectUrl := l_redirectUrl L;
     content_type := l_contentType L;
     content_enc := l_contentEnc L;
     dead := l_isDead L;
     exc := l_exc L;
     times := n |}.

(** The answer to the last call of [urlopen] for [u]. *)
Definition last_fetch (u : string) (fs : list (string * FetchOutcome))
    : option FetchOutcome :=
  last (omap (λ f, if decide (f.1 = u) then Some f.2 else None) fs).

Lemma attempts_snoc u fs u' o :
  attempts u (fs ++ [(u', o)]) =
    if decide (u' = u) then S (attempts u fs) else attempts u fs.
Proof.
  unfold attempts. rewrite filter_app, length_app.
  rewrite filter_cons, filter_nil. simpl.
  case_decide; simpl; lia.
Qed.

Lemma last_fetch_snoc u fs u' o :
  last_fetch u (fs ++ [(u', o)]) =
    if decide (u' = u) then Some o else last_fetch u fs.
Proof.
  unfold last_fetch. rewrite omap_app. simpl.
  case_decide; simpl; [by rewrite last_snoc|by rewrite app_nil_r].
Qed.

(** [visited[u]] is the record of the last fetch of [u], with the
    number of fetches of [u]. *)
Lemma replay_lookup fs u :
  replay fs !! u =
    (λ o, visit_info (get_try u o) (attempts u fs)) <$> last_fetch u fs.
Proof.
  induction fs as [|[u' o] fs IH] using rev_ind; [done|].
  rewrite replay_snoc, attempts_snoc, last_fetch_snoc.
  unfold get_record. case_decide as Hu.
  - subst u'. rewrite lookup_insert_eq. simpl. f_equal.
    unfold visit_info. f_equal. rewrite IH.
    destruct (last_fetch u fs) eqn:E; simpl; [lia|].
    unfold last_fetch in E. apply last_None in E.
    unfold attempts. clear IH. 
    assert (filter (λ f : string * FetchOutcome, f.1 = u) fs = []) as ->; [|done].
    induction fs as [|[u1 o1] fs IHfs]; [done|].
    simpl in E. rewrite filter_cons. simpl in *. case_decide; [done|].
    by apply IHfs.
  - rewrite lookup_insert_ne by done. done.
Qed.

Lemma last_fetch_attempts u fs o :
  last_fetch u fs = Some o → (1 ≤ attempts u fs)%nat.
Proof.
  induction fs as [|[u' o'] fs IH] using rev_ind; [done|].
  rewrite last_fetch_snoc, attempts_snoc. case_decide; [lia|]. apply IH.
Qed.

Lemma last_fetch_elem_of u fs o :
  (u, o) ∈ fs → is_Some (last_fetch u fs).
Proof.
  induction fs as [|[u' o'] fs IH] using rev_ind.
  - by intros ?%elem_of_nil.
  - rewrite last_fetch_snoc, elem_of_app. case_decide; [by eauto|].
    intros [?|[=]%list_elem_of_singleton]; [by auto|congruence].
Qed.

(** ** Runs of the model on small sites *)

Module Runs.

Import Demo.

Definition failing_seed : list Action :=
  [ACtl; AWork 0; AWork 0; AFetch 0 (Raises URLError);
   AWork 0; AWork 0; AWork 0; ACtl; ACtl; ACtl; ACtl; ACtl].

(** The site of [actsE], crawled to depth 2 as far as the end. *)
Definition sE : State :=
  Eval vm_compute in default init (run (spider1 2) actsE init).

(** The same crawl, stopped while the page "p1" is in the body of its
    link loop. *)
Definition sLink : State :=
  Eval vm_compute in default init (run (spider1 2) (take 25 actsE) init).

(** The same crawl, stopped right after the call of [urlopen] for "p1". *)
Definition sFetched : State :=
  Eval vm_compute in default init (run (spider1 2) (take 20 actsE) init).

(** A crawl to depth 3 whose seed cannot be fetched. *)
Definition sFail : State :=
  Eval vm_compute in default init (run (spider1 3) failing_seed init).

(** A seed page that links to itself twice and to "b" once, crawled to
    depth 1. *)
Definition self_links : list Action :=
  [ACtl; AWork 0; AWork 0;
   AFetch 0 (page "r" [href 0 "r"; href 1 "b"; href 2 "r"])] ++ w 11 ++ [ACtl].

Definition sSelf : State :=
  Eval vm_compute in default init (run (spider1 1) self_links init).




Lemma sSelf_reachable : reachable (spider1 1) sSelf.
Proof. exists self_links. vm_compute. reflexivity. Qed.


Lemma sE_reachable : reachable (spider1 2) sE.
Proof. exists actsE. vm_compute. reflexivity. Qed.

Lemma sLink_reachable : reachable (spider1 2) sLink.
Proof. exists (take 25 actsE). vm_compute. reflexivity. Qed.

Lemma sFetched_reachable : reachable (spider1 2) sFetched.
Proof. exists (take 20 actsE). vm_compute. reflexivity. Qed.

Lemma sFail_reachable : reachable (spider1 3) sFail.
Proof. exists failing_seed. vm_compute. reflexivity. Qed.

End Runs.

(** ** The link loop by itself *)

(** How often [x] occurs in [l]. *)
Definition occurrences (x : string) (l : list string) : nat :=
  length (filter (λ y, y = x) l).

Lemma occurrences_cons x y l :
  occurrences x (y :: l) =
    if decide (y = x) then S (occurrences x l) else occurrences x l.
Proof. unfold occurrences. rewrite filter_cons. by case_decide. Qed.

Lemma occurrences_not_elem_of x l : x ∉ l → occurrences x l = 0%nat.
Proof.
  induction l as [|y l IH]; [done|]. rewrite not_elem_of_cons.
  intros [? ?]. rewrite occurrences_cons, decide_False by done. by apply IH.
Qed.

Lemma occurrences_NoDup x l : NoDup l → x ∈ l → occurrences x l = 1%nat.
Proof.
  induction 1 as [|y l Hy Hnd IH]; [by intros ?%elem_of_nil|].
  rewrite occurrences_cons. intros [->|Hin]%elem_of_cons.
  - rewrite decide_True by done. by rewrite occurrences_not_elem_of.
  - rewrite decide_False; [by apply IH|]. intros ->. done.
Qed.

Lemma link_body_cases u lk r adj :
  graph r !! u = Some adj →
  let x := lk_link lk in
  (link_body u lk r = LinkSkipped ∧
   (lk_attribute lk ≠ Some "href" ∨ x ∈ _urls r ∨ x ∈ dom (visited r) ∨
    x ∈ adj)) ∨
  (link_body u lk r =
     LinkFound {| graph := <[u := adj ++ [x]]> (graph r);
                  visited := visited r;
                  _urls := _urls r ++ [x] |} ∧
   lk_attribute lk = Some "href" ∧ (x ∉ _urls r) ∧ (x ∉ dom (visited r)) ∧
   (x ∉ adj)).
Proof.
  intros Hadj. simpl. unfold link_body. rewrite Hadj.
  repeat case_bool_decide; simpl; try (left; split; [done|]; by auto).
  right. done.
Qed.

(** The loop appends to [graph[u]] and to [_urls] the list [F] of the
    links it found, each once, and reports them in the same order. *)
Lemma link_loop_spec u links : ∀ r found0 adj,
  graph r !! u = Some adj →
  ∃ found, let F := lk_link <$> found in
    link_loop u links r found0 =
      inr ({| graph := <[u := adj ++ F]> (graph r);
              visited := visited r;
              _urls := _urls r ++ F |}, found0 ++ found) ∧
    NoDup F ∧
    (∀ x, x ∈ F →
       (x ∉ _urls r) ∧ (x ∉ dom (visited r)) ∧ (x ∉ adj) ∧
       ∃ lk, lk ∈ links ∧ lk_attribute lk = Some "href" ∧ lk_link lk = x) ∧
    (∀ lk, lk ∈ links → lk_attribute lk = Some "href" →
       lk_link lk ∉ _urls r → lk_link lk ∉ dom (visited r) →
       lk_link lk ∉ adj → lk_link lk ∈ F).
Proof.
  induction links as [|lk rest IH]; intros r found0 adj Hadj.
  - exists []. simpl. rewrite !app_nil_r, insert_id by done.
    split_and!; [by destruct r|constructor|..].
    + by intros x ?%elem_of_nil.
    + by intros lk ?%elem_of_nil.
  - simpl. destruct (link_body_cases u lk r adj Hadj)
      as [[-> Hskip]|(-> & Hhref & Hu & Hv & Ha)].
    + destruct (IH r found0 adj Hadj) as (found & Hrun & Hnd & Hin & Hall).
      exists found. split_and!; [done..| |].
      * intros x Hx. destruct (Hin x Hx) as (? & ? & ? & lk' & ? & ?).
        split_and!; try done. exists lk'. split; [by right|done].
      * intros lk' [->|Hlk]%elem_of_cons; [|by apply Hall].
        intros. exfalso. destruct Hskip as [?|[?|[?|?]]]; done.
    + set (x := lk_link lk) in *.
      set (r1 := {| graph := <[u:=adj ++ [x]]> (graph r);
                    visited := visited r; _urls := _urls r ++ [x] |}).
      destruct (IH r1 (found0 ++ [lk]) (adj ++ [x]))
        as (found & Hrun & Hnd & Hin & Hall).
      { simpl. by rewrite lookup_insert_eq. }
      exists (lk :: found). simpl in *. split_and!.
      * rewrite Hrun. rewrite insert_insert_eq.
        by rewrite <-!(assoc_L app).
      * apply NoDup_cons. split; [|done]. intros Hx.
        destruct (Hin x Hx) as (Hx' & _). apply Hx', elem_of_app. right.
        by left.
      * intros y [->|Hy]%elem_of_cons.
        -- split_and!; try done. exists lk. split; [by left|done].
        -- destruct (Hin y Hy) as (Hy1 & Hy2 & Hy3 & lk' & ? & ?).
           rewrite not_elem_of_app in Hy1, Hy3.
           split_and!; try tauto. exists lk'. split; [by right|done].
      * intros lk' [->|Hlk]%elem_of_cons H1 H2 H3 H4; [by left|].
        destruct (decide (lk_link lk' = x)) as [->|Hne]; [by left|].
        right. apply Hall; try done.
        all: rewrite not_elem_of_app; split; [done|].
        all: by intros ?%list_elem_of_singleton.
Qed.

(** ** A seed that cannot be fetched *)

Section FailingSeed.

Variable self : Spider.
Variable e : ExcType.

Definition seed_task : Task := {| t_level := 1; t_url := url self |}.

Definition seed_fetch : string * FetchOutcome := (url self, Raises e).

Definition seed_locals : GetLocals := get_try (url self) (Raises e).

(** The results of a crawl whose only fetch was the failed one of the
    seed. *)
Definition seed_failed : SpiderResults :=
  {| graph := ∅;
     visited := {[url self := visit_info seed_locals 1]};
     _urls := [] |}.

(** The first call of [urlopen], if there was one yet, was for the seed
    and raised [e]. *)
Definition seed_fails (s : State) : Prop :=
  ∀ f, head (fetches (trace s)) = Some f → f = seed_fetch.

(** The steps that the control thread has before it from [CLoop d], and
    from [CDrain d 0], when nothing is left to fetch. *)
Definition rem_loop (d : Z) : nat := 2 * Z.to_nat (maxDepth self - d) + 1.
Definition rem_drain (d : Z) : nat := 2 * Z.to_nat (maxDepth self - d).

Record fields (s : State) (r : SpiderResults) (cl gl : option nat)
    (q : list Task) (W : gmap nat Worker) (c : Ctl)
    (fs : list (string * FetchOutcome)) : Prop := {
  f_results : results s = r;
  f_connectLock : connectLock s = cl;
  f_graphLock : graphLock s = gl;
  f_queue : queue s = q;
  f_workers : workers s = W;
  f_ctl : ctl s = c;
  f_fetches : fetches (trace s) = fs
}.

Definition at_pc (i : nat) (pc : PC) : gmap nat Worker :=
  {[i := {| w_task := seed_task; w_pc := pc |}]}.

(** The states of such a crawl, with the number of steps left. *)
Inductive shape : nat → State → Prop :=
| sh_start s :
    fields s SpiderResults_init None None [] ∅ CStart [] →
    shape (7 + rem_loop 1) s
| sh_queued s :
    fields s SpiderResults_init None None [seed_task] ∅ (CLoop 1) [] →
    shape (6 + rem_loop 1) s
| sh_connect s i :
    fields s SpiderResults_init None None [] (at_pc i PConnect) (CLoop 1) [] →
    shape (5 + rem_loop 1) s
| sh_urlopen s i :
    fields s SpiderResults_init (Some i) None [] (at_pc i PUrlopen)
      (CLoop 1) [] →
    shape (4 + rem_loop 1) s
| sh_finally s i :
    fields s SpiderResults_init (Some i) None []
      (at_pc i (PFinally seed_locals)) (CLoop 1) [seed_fetch] →
    shape (3 + rem_loop 1) s
| sh_graphacq s i :
    fields s seed_failed (Some i) None []
      (at_pc i (PGraphAcq seed_locals)) (CLoop 1) [seed_fetch] →
    shape (2 + rem_loop 1) s
| sh_graphinit s i :
    fields s seed_failed (Some i) (Some i) []
      (at_pc i (PGraphInit seed_locals)) (CLoop 1) [seed_fetch] →
    shape (1 + rem_loop 1) s
| sh_loop s d :
    1 ≤ d →
    fields s seed_failed None None [] ∅ (CLoop d) [seed_fetch] →
    shape (rem_loop d) s
| sh_drain s d :
    1 ≤ d < maxDepth self →
    fields s seed_failed None None [] ∅ (CDrain d 0) [seed_fetch] →
    shape (rem_drain d) s
| sh_done s d :
    fields s seed_failed None None [] ∅ (CDone d) [seed_fetch] →
    shape 0 s.

Lemma pool_idle_empty s :
  queue s = [] → workers s = ∅ → pool_idle s = true.
Proof.
  intros Hq Hw. unfold pool_idle. rewrite Hq, Hw.
  apply bool_decide_eq_true. apply dom_empty_L.
Qed.

Lemma pool_idle_busy s i w :
  workers s = {[i := w]} → pool_idle s = false.
Proof.
  intros Hw. unfold pool_idle. rewrite Hw. destruct (queue s); [|done].
  apply bool_decide_eq_false. rewrite dom_singleton_L.
  intros H. assert (i ∈ (∅ : gset nat)) as Hi by (rewrite <-H; set_solver).
  set_solver.
Qed.

(** With an empty pool only the control thread can move. *)
Lemma step_pool_empty a s s' :
  queue s = [] → workers s = ∅ → step self a s = Some s' →
  a = ACtl ∧ ctl_step self s = Some s'.
Proof.
  intros Hq Hw. destruct a as [|i|i o]; simpl; [done|..];
    unfold work_step, take_task; rewrite Hw, lookup_empty, ?Hq;
    by repeat case_match.
Qed.

(** With one running task, no queued one and the control thread in
    [wait_completion], only that worker can move. *)
Lemma step_one_worker a s s' i t pc d :
  queue s = [] → workers s = {[i := {| w_task := t; w_pc := pc |}]} →
  ctl s = CLoop d → step self a s = Some s' →
  ∃ o eff, a = match o with None => AWork i | Some o' => AFetch i o' end ∧
    pc_step self i t pc o s = Some eff ∧ s' = apply_effect i t eff s.
Proof.
  intros Hq Hw Hc. destruct a as [|j|j o]; simpl.
  - unfold ctl_step. rewrite Hc, (pool_idle_busy s i _ Hw). done.
  - unfold work_step, take_task. rewrite Hw.
    destruct (decide (j = i)) as [->|Hne].
    + rewrite lookup_singleton_eq. simpl.
      destruct (pc_step self i t pc None s) as [eff|] eqn:He; [|done].
      intros [= <-]. by exists None, eff.
    + rewrite lookup_singleton_ne by done. rewrite Hq. by case_decide.
  - unfold work_step. rewrite Hw.
    destruct (decide (j = i)) as [->|Hne].
    + rewrite lookup_singleton_eq. simpl.
      destruct (pc_step self i t pc (Some o) s) as [eff|] eqn:He; [|done].
      intros [= <-]. by exists (Some o), eff.
    + rewrite lookup_singleton_ne by done. done.
Qed.

Lemma rem_loop_lt d : d < maxDepth self → rem_loop d = S (rem_drain d).
Proof. unfold rem_loop, rem_drain. lia. Qed.

Lemma rem_loop_ge d : ¬ d < maxDepth self → rem_loop d = 1%nat.
Proof. unfold rem_loop. lia. Qed.

Lemma rem_drain_loop d :
  d < maxDepth self → rem_drain d = S (rem_loop (d + 1)).
Proof. unfold rem_loop, rem_drain. lia. Qed.

(** A step takes a state of the list to the next one. *)
Lemma shape_step n a s s' :
  shape n s → step self a s = Some s' → seed_fails s' →
  ∃ n', n = S n' ∧ shape n' s'.
Proof.
  intros Hsh Hstep Hfail. destruct Hsh as
    [s [Hr Hcl Hgl Hq Hw Hc Hf]|s [Hr Hcl Hgl Hq Hw Hc Hf]
    |s i [Hr Hcl Hgl Hq Hw Hc Hf]|s i [Hr Hcl Hgl Hq Hw Hc Hf]
    |s i [Hr Hcl Hgl Hq Hw Hc Hf]|s i [Hr Hcl Hgl Hq Hw Hc Hf]
    |s i [Hr Hcl Hgl Hq Hw Hc Hf]|s d Hd [Hr Hcl Hgl Hq Hw Hc Hf]
    |s d Hd [Hr Hcl Hgl Hq Hw Hc Hf]|s d [Hr Hcl Hgl Hq Hw Hc Hf]].
  - (* CStart *)
    destruct (step_pool_empty _ _ _ Hq Hw Hstep) as [-> Hctl].
    unfold ctl_step in Hctl. rewrite Hc in Hctl. injection Hctl as <-.
    eexists. split; [done|]. apply sh_queued. split; simpl; try done.
    + by rewrite Hq.
    + rewrite !fetches_app, Hf. by destruct (levelCallback self).
  - (* the seed is queued *)
    destruct a as [|j|j o]; simpl in Hstep.
    + unfold ctl_step in Hstep. rewrite Hc in Hstep.
      unfold pool_idle in Hstep. by rewrite Hq in Hstep.
    + unfold work_step, take_task in Hstep.
      rewrite Hw, lookup_empty, Hq in Hstep.
      case_decide; [|done]. injection Hstep as <-.
      eexists. split; [done|]. apply (sh_connect _ j).
      split; simpl; try done; by rewrite Hw.
    + unfold work_step in Hstep. by rewrite Hw, lookup_empty in Hstep.
  - (* before connectLock *)
    destruct (step_one_worker _ _ _ _ _ _ _ Hq Hw Hc Hstep)
      as (o & eff & -> & He & ->).
    unfold pc_step in He. rewrite Hcl in He.
    destruct o; [done|]. injection He as <-.
    eexists. split; [done|]. apply (sh_urlopen _ i).
    split; simpl; try done.
    + rewrite Hw. unfold at_pc. by rewrite insert_singleton_eq.
    + by rewrite app_nil_r.
  - (* before urlopen *)
    destruct (step_one_worker _ _ _ _ _ _ _ Hq Hw Hc Hstep)
      as (o & eff & -> & He & ->).
    unfold pc_step in He. destruct o as [o|]; [|done]. injection He as <-.
    assert (o = Raises e) as ->.
    { specialize (Hfail (url self, o)). simpl in Hfail.
      rewrite fetches_app, Hf in Hfail. simpl in Hfail.
      specialize (Hfail eq_refl). by injection Hfail. }
    eexists. split; [done|]. apply (sh_finally _ i).
    split; simpl; try done.
    + rewrite Hw. unfold at_pc. by rewrite insert_singleton_eq.
    + by rewrite fetches_app, Hf.
  - (* before the visit record *)
    destruct (step_one_worker _ _ _ _ _ _ _ Hq Hw Hc Hstep)
      as (o & eff & -> & He & ->).
    unfold pc_step in He. destruct o; [done|]. injection He as <-.
    eexists. split; [done|]. apply (sh_graphacq _ i).
    split; simpl; try done.
    + rewrite Hr. unfold seed_failed, get_record. simpl.
      rewrite lookup_empty. f_equal.
    + rewrite Hw. unfold at_pc. by rewrite insert_singleton_eq.
    + by rewrite app_nil_r.
  - (* before graphLock *)
    destruct (step_one_worker _ _ _ _ _ _ _ Hq Hw Hc Hstep)
      as (o & eff & -> & He & ->).
    unfold pc_step in He. rewrite Hgl in He.
    destruct o; [done|]. injection He as <-.
    eexists. split; [done|]. apply (sh_graphinit _ i).
    split; simpl; try done.
    + rewrite Hw. unfold at_pc. by rewrite insert_singleton_eq.
    + by rewrite app_nil_r.
  - (* the end of _get, and of the task *)
    destruct (step_one_worker _ _ _ _ _ _ _ Hq Hw Hc Hstep)
      as (o & eff & -> & He & ->).
    unfold pc_step in He. destruct o; [done|]. injection He as <-.
    eexists. split; [done|]. apply (sh_loop _ 1); [lia|].
    split; simpl; try done.
    + by rewrite Hr.
    + rewrite Hw. unfold at_pc. by rewrite delete_singleton_eq.
    + rewrite fetches_app, Hf. done.
  - (* CLoop *)
    destruct (step_pool_empty _ _ _ Hq Hw Hstep) as [-> Hctl].
    unfold ctl_step in Hctl.
    rewrite Hc, (pool_idle_empty _ Hq Hw) in Hctl.
    case_bool_decide as Hlt; injection Hctl as <-.
    + eexists. split; [by apply rem_loop_lt|].
      apply (sh_drain _ d); [lia|]. split; simpl; try done.
      * by rewrite Hr.
      * rewrite fetches_app, Hf. by destruct (levelCallback self).
    + eexists. split; [by apply rem_loop_ge|].
      apply (sh_done _ d). by split.
  - (* CDrain *)
    destruct (step_pool_empty _ _ _ Hq Hw Hstep) as [-> Hctl].
    unfold ctl_step in Hctl. rewrite Hc in Hctl. injection Hctl as <-.
    eexists. split; [apply rem_drain_loop; lia|].
    apply (sh_loop _ (d + 1)); [lia|]. by split.
  - (* CDone *)
    destruct (step_pool_empty _ _ _ Hq Hw Hstep) as [-> Hctl].
    unfold ctl_step in Hctl. by rewrite Hc in Hctl.
Qed.

Lemma shape_seed_fails n s : shape n s → seed_fails s.
Proof.
  intros Hsh f. destruct Hsh as [? []|? []|? ? []|? ? []|? ? []|? ? []
                                |? ? []|? ? ? []|? ? ? []|? ? []].
  all: match goal with H : fetches _ = _ |- _ => rewrite H end; simpl.
  all: by intros [= <-].
Qed.

Lemma step_trace a s s' :
  step self a s = Some s' → ∃ evs, trace s' = trace s ++ evs.
Proof.
  intros [Hctl|i Hi Htake|i t pc o eff Hwi He ->]%step_kind.
  - destruct (ctl_step_trace _ _ _ Hctl) as (evs & ? & _). by eauto.
  - apply take_task_inv in Htake as (t & q & _ & _ & ->).
    exists []. simpl. by rewrite app_nil_r.
  - eexists. apply apply_effect_trace.
Qed.

Lemma seed_fails_back a s s' :
  step self a s = Some s' → seed_fails s' → seed_fails s.
Proof.
  intros [evs Htr]%step_trace Hfail f Hf. apply Hfail.
  rewrite Htr, fetches_app. by destruct (fetches (trace s)).
Qed.

Lemma shape_init : shape (7 + rem_loop 1) init.
Proof. apply sh_start. by split. Qed.

(** Every run in which the seed cannot be fetched goes through the
    states of the list, one per step. *)
Lemma shape_run acts : ∀ s,
  run self acts init = Some s → seed_fails s →
  ∃ n, shape n s ∧ (length acts + n = 7 + rem_loop 1)%nat.
Proof.
  induction acts as [|a acts IH] using rev_ind; intros s Hrun Hfail.
  - simpl in Hrun. injection Hrun as <-. exists (7 + rem_loop 1)%nat.
    split; [apply shape_init|done].
  - rewrite run_app in Hrun.
    destruct (run self acts init) as [s0|] eqn:Hs0; simpl in Hrun; [|done].
    destruct (step self a s0) as [s1|] eqn:Hs1; simpl in Hrun; [|done].
    injection Hrun as ->.
    destruct (IH s0 eq_refl (seed_fails_back _ _ _ Hs1 Hfail))
      as (n & Hsh & Hlen).
    destruct (shape_step _ _ _ _ Hsh Hs1 Hfail) as (n' & -> & Hsh').
    exists n'. split; [done|]. rewrite length_app. simpl. lia.
Qed.

(** No state of the list but the last is stuck. *)
Lemma shape_progress n s :
  (1 ≤ threads self)%nat → shape n s →
  (∃ d, ctl s = CDone d) ∨
  ∃ a s', step self a s = Some s' ∧ seed_fails s'.
Proof.
  intros Hthreads Hsh. unfold seed_fails.
  destruct Hsh as
    [s [Hr Hcl Hgl Hq Hw Hc Hf]|s [Hr Hcl Hgl Hq Hw Hc Hf]
    |s i [Hr Hcl Hgl Hq Hw Hc Hf]|s i [Hr Hcl Hgl Hq Hw Hc Hf]
    |s i [Hr Hcl Hgl Hq Hw Hc Hf]|s i [Hr Hcl Hgl Hq Hw Hc Hf]
    |s i [Hr Hcl Hgl Hq Hw Hc Hf]|s d Hd [Hr Hcl Hgl Hq Hw Hc Hf]
    |s d Hd [Hr Hcl Hgl Hq Hw Hc Hf]|s d [Hr Hcl Hgl Hq Hw Hc Hf]].
  - (* CStart *)
    right. exists ACtl. simpl. unfold ctl_step. rewrite Hc.
    eexists. split; [done|]. intros f. simpl.
    rewrite !fetches_app, Hf. by destruct (levelCallback self).
  - (* the seed is queued: worker 0 takes it *)
    right. exists (AWork 0). simpl. unfold work_step, take_task.
    rewrite Hw, lookup_empty, Hq. rewrite decide_True by lia.
    eexists. split; [done|]. intros f. simpl. by rewrite Hf.
  - right. exists (AWork i). simpl. unfold work_step.
    rewrite Hw. unfold at_pc. rewrite lookup_singleton_eq. simpl.
    rewrite Hcl. eexists. split; [done|]. intros f. simpl.
    by rewrite app_nil_r, Hf.
  - right. exists (AFetch i (Raises e)). simpl. unfold work_step.
    rewrite Hw. unfold at_pc. rewrite lookup_singleton_eq. simpl.
    eexists. split; [done|]. intros f. simpl.
    rewrite fetches_app, Hf. simpl. by intros [= <-].
  - right. exists (AWork i). simpl. unfold work_step.
    rewrite Hw. unfold at_pc. rewrite lookup_singleton_eq. simpl.
    eexists. split; [done|]. intros f. simpl.
    rewrite app_nil_r, Hf. simpl. by intros [= <-].
  - right. exists (AWork i). simpl. unfold work_step.
    rewrite Hw. unfold at_pc. rewrite lookup_singleton_eq. simpl.
    rewrite Hgl. eexists. split; [done|]. intros f. simpl.
    rewrite app_nil_r, Hf. simpl. by intros [= <-].
  - right. exists (AWork i). simpl. unfold work_step.
    rewrite Hw. unfold at_pc. rewrite lookup_singleton_eq. simpl.
    eexists. split; [done|]. intros f. simpl.
    rewrite fetches_app, Hf. simpl. by intros [= <-].
  - (* CLoop *)
    right. exists ACtl. simpl. unfold ctl_step.
    rewrite Hc, (pool_idle_empty _ Hq Hw).
    case_bool_decide; (eexists; split; [done|]); intros f; simpl.
    + rewrite fetches_app, Hf. destruct (levelCallback self); simpl;
        by intros [= <-].
    + rewrite Hf. simpl. by intros [= <-].
  - (* CDrain *)
    right. exists ACtl. simpl. unfold ctl_step. rewrite Hc.
    eexists. split; [done|]. intros f. simpl. rewrite Hf. simpl.
    by intros [= <-].
  - left. by eauto.
Qed.

(** From every state of the list some run reaches the end. *)
Lemma shape_finish n : ∀ s,
  (1 ≤ threads self)%nat → shape n s →
  ∃ acts s' d, run self acts s = Some s' ∧ ctl s' = CDone d ∧ shape 0 s'.
Proof.
  induction n as [|n IH]; intros s Hthreads Hsh.
  - destruct (shape_progress _ _ Hthreads Hsh) as [[d Hd]|(a & s' & Hstep & Hf)].
    + by exists [], s, d.
    + by destruct (shape_step _ _ _ _ Hsh Hstep Hf) as (n' & ? & _).
  - destruct (shape_progress _ _ Hthreads Hsh) as [[d Hd]|(a & s' & Hstep & Hf)].
    + inversion Hsh as [? []|? []|? ? []|? ? []|? ? []|? ? []
                       |? ? []|? ? ? []|? ? ? []|? ? []]; congruence.
    + destruct (shape_step _ _ _ _ Hsh Hstep Hf) as (n' & [= <-] & Hsh').
      destruct (IH s' Hthreads Hsh') as (acts & s2 & d & Hrun & Hd & Hs2).
      exists (a :: acts), s2, d. simpl. rewrite Hstep. done.
Qed.

Lemma shape_done n s d :
  shape n s → ctl s = CDone d →
  results s = seed_failed ∧ fetches (trace s) = [seed_fetch].
Proof.
  intros Hsh Hd.
  destruct Hsh as [? []|? []|? ? []|? ? []|? ? []|? ? []
                  |? ? []|? ? ? []|? ? ? []|? ? []]; try congruence.
  done.
Qed.

End FailingSeed.

(** * The claims *)

Section Claims.

Variable self : Spider.

(** At the end of a crawl no call of [urlopen] waits to be recorded:
    every record is that of the last fetch of its URL. *)
Lemma visited_at_end (s : State) (d : Z) (u : string) :
  reachable self s → ctl s = CDone d →
  visited (results s) !! u =
    (λ o, visit_info (get_try u o) (attempts u (fetches (trace s))))
      <$> last_fetch u (fetches (trace s)).
Proof.
  intros Hs Hd.
  pose proof (reachable_inv _ _ Hs) as [_ Hlevel _ Hvisit _ _ _ _ _].
  pose proof (lv_ctl _ _ Hlevel) as Hok.
  unfold ctl_ok in Hok. rewrite Hd in Hok. destruct Hok as (_ & _ & Hw).
  unfold inv_visit, pending in Hvisit. rewrite Hw in Hvisit.
  destruct (connectLock s); simpl in Hvisit;
    rewrite ?lookup_empty in Hvisit; simpl in Hvisit;
    by rewrite Hvisit, replay_lookup.
Qed.

(** C10. For every failed fetch of a URL [u], the visit record written
    for [u] has redirected = false, its redirect URL equal to [u]
    itself, empty content-type and content-encoding strings,
    dead = true and the class of the raised exception as failure kind.
    This holds of [_get] as a whole and of the two steps of a worker
    that make it up: the call of [urlopen] that raises, then lines
    186-198. *)
Theorem C10_failed_fetch_record (u : string) (e : ExcType)
    (r : SpiderResults) (i : nat) (t : Task) (s : State) :
  let record n :=
    {| redirected := false; redirectUrl := u;
       content_type := Some ""; content_enc := Some "";
       dead := true; exc := Some e; times := n |} in
  let n := match visited r !! u with
           | Some v => (times v + 1)%nat
           | None => 1%nat
           end in
  visited (_get u (Raises e) r).2 !! u = Some (record n) ∧
  (_get u (Raises e) r).1 = None ∧
  (t_url t = u → results s = r →
   ∃ e1 e2,
     pc_step self i t PUrlopen (Some (Raises e)) s = Some e1 ∧
     e_next e1 = Goto (PFinally (get_try u (Raises e))) ∧
     e_results e1 = r ∧
     pc_step self i t (PFinally (get_try u (Raises e))) None s = Some e2 ∧
     visited (e_results e2) !! u = Some (record n)).
Proof.
  simpl. split_and!.
  - unfold get_record. by rewrite lookup_insert_eq.
  - done.
  - intros <- <-. do 2 eexists. split_and!; try done.
    simpl. unfold get_record. by rewrite lookup_insert_eq.
Qed.

(** C5. For every fetch of a URL, whether [urlopen] returns or raises,
    a visit entry for the URL is written before [_get] returns, with the
    failure recorded in it (dead flag and failure kind); no exception
    leaves [_get], and none reaches the control thread.  For [_get] as a
    function: it always returns, with the entry written.  In a run: a
    worker that is past line 198 finds the entry of its URL in
    [visited], with the dead flag and the failure kind of its own
    fetch as long as it is in [_get]; every call of [urlopen] made so
    far is recorded, but for the one whose worker stands right before
    line 186; at the end of the crawl every record is that of the last
    fetch of its URL; no step of a worker inside [_get] ends its task
    by an exception, and the control thread never stands in one. *)
Theorem C5_fetch_recorded_not_raised (s : State) (Hs : reachable self s) :
  (∀ u o r, ∃ v,
     visited (_get u o r).2 !! u = Some v ∧
     dead v = match o with Raises _ => true | Returns _ => false end ∧
     exc v = match o with Raises e => Some e | Returns _ => None end ∧
     (_get u o r).1 = match o with Raises _ => None | Returns x => Some x end) ∧
  (∀ i t pc, workers s !! i = Some {| w_task := t; w_pc := pc |} →
     match pc with
     | PConnect | PUrlopen | PFinally _ => True
     | PGraphAcq L | PGraphInit L =>
         ∃ v, visited (results s) !! t_url t = Some v ∧
              dead v = l_isDead L ∧ exc v = l_exc L
     | PPage _ | PLink _ | PLinkLocked _ _ =>
         ∃ v, visited (results s) !! t_url t = Some v ∧ dead v = false
     end) ∧
  (∀ u o, (u, o) ∈ fetches (trace s) →
     is_Some (visited (results s) !! u) ∨
     ∃ t L, pending s = Some (t, L) ∧ t_url t = u) ∧
  (∀ d u, ctl s = CDone d →
     visited (results s) !! u =
       (λ o, visit_info (get_try u o) (attempts u (fetches (trace s))))
         <$> last_fetch u (fetches (trace s))) ∧
  (∀ i t pc o e,
     workers s !! i = Some {| w_task := t; w_pc := pc |} →
     pc = PConnect ∨ holds_connect pc = true →
     pc_step self i t pc o s = Some e →
     match e_next e with Raise _ => False | _ => True end) ∧
  (∃ c, ctl s = c ∧ match c with CRaised _ => False | _ => True end).
Proof.
  pose proof (reachable_inv _ _ Hs) as [Hlocks Hlevel _ Hvisit Hlive _ _ _ _].
  split_and!.
  - intros u o r.
    destruct (get_record_lookup u (get_try u o) (visited r))
      as (v & Hv & _ & _ & _ & _ & Hd & Hx & _).
    exists v. simpl. split; [done|]. rewrite Hd, Hx. by destruct o.
  - intros i t pc Hw. specialize (Hlive _ _ Hw). simpl in Hlive.
    destruct pc; simpl in *; try done; by destruct Hlive.
  - intros u o Hin. unfold inv_visit in Hvisit.
    destruct (pending s) as [[t L]|].
    + destruct Hvisit as (fs & o' & Hfs & _ & Hv). rewrite Hfs in Hin.
      apply elem_of_app in Hin as [Hin|[= -> ->]%list_elem_of_singleton].
      * left. rewrite Hv, replay_lookup.
        destruct (last_fetch_elem_of _ _ _ Hin) as [o1 ->]. by eexists.
      * right. by eauto.
    + left. rewrite Hvisit, replay_lookup.
      destruct (last_fetch_elem_of _ _ _ Hin) as [o1 ->]. by eexists.
  - intros d u Hd. by apply (visited_at_end s d u).
  - intros i t pc o e _ Hpc He. pc_cases He; simpl; try done.
    all: destruct Hpc as [?|?]; done.
  - exists (ctl s). split; [done|]. pose proof (lv_ctl _ _ Hlevel) as Hok.
    unfold ctl_ok in Hok. by destruct (ctl s).
Qed.

(** C2. For every URL [u] that is a key of [visited] at the end of a
    crawl, the stored counter 'times' equals the number of calls of
    [urlopen] for [u] during that crawl, whatever their outcome, and is
    at least 1. *)
Theorem C2_times_counts_fetches (s : State) (d : Z) (u : string)
    (v : VisitInfo)
    (Hs : reachable self s) (Hd : ctl s = CDone d)
    (Hv : visited (results s) !! u = Some v) :
  times v = attempts u (fetches (trace s)) ∧ (1 ≤ times v)%nat.
Proof.
  rewrite (visited_at_end s d u Hs Hd) in Hv.
  destruct (last_fetch u (fetches (trace s))) as [o|] eqn:E; [|done].
  simpl in Hv. injection Hv as <-. simpl. split; [done|].
  by eapply last_fetch_attempts.
Qed.

(** C9. Whenever the link loop runs for a page [u] (its fetch gave a
    response), [u] is a key of [graph]: the lookup [results.graph[url]]
    in the body of the loop does not raise KeyError, whatever the link. *)
Theorem C9_link_loop_key_exists (s : State) (i : nat) (t : Task) (pc : PC)
    (Hs : reachable self s)
    (Hw : workers s !! i = Some {| w_task := t; w_pc := pc |})
    (Hpc : (∃ links, pc = PLink links) ∨ (∃ lk rest, pc = PLinkLocked lk rest)) :
  is_Some (graph (results s) !! t_url t) ∧
  (∀ lk, link_body (t_url t) lk (results s) ≠ LinkKeyError) ∧
  (∀ o e, pc_step self i t pc o s = Some e → e_next e ≠ Raise KeyError).
Proof.
  pose proof (reachable_inv _ _ Hs) as [_ _ _ _ Hlive _ _ _].
  specialize (Hlive _ _ Hw). simpl in Hlive.
  assert (is_Some (graph (results s) !! t_url t)) as [adj Hadj].
  { by destruct Hpc as [[? ->]|(? & ? & ->)]; destruct Hlive. }
  assert (∀ lk, link_body (t_url t) lk (results s) ≠ LinkKeyError) as Hlb.
  { intros lk. unfold link_body. rewrite Hadj. by repeat case_match. }
  split_and!; [by eauto|done|].
  intros o e He. destruct Hpc as [[? ->]|(lk & rest & ->)].
  - pc_cases He; done.
  - specialize (Hlb lk). pc_cases He; done.
Qed.

(** Sorted by level: an event of a lower level stands before every
    event of a higher level. *)
Lemma level_sorted_lookup tr i j e1 e2 :
  StronglySorted level_le tr → tr !! i = Some e1 → tr !! j = Some e2 →
  ev_level e1 < ev_level e2 → (i < j)%nat.
Proof.
  intros Hsort H1 H2 Hlt. destruct (decide (i < j)%nat); [done|]. exfalso.
  destruct (decide (i = j)) as [->|]; [simplify_eq; lia|].
  rewrite <-(take_drop_middle tr i e1 H1) in Hsort.
  assert (e2 ∈ take i tr) as Hin.
  { apply elem_of_take. exists j. split; [done|lia]. }
  assert (e1 ∈ e1 :: drop (S i) tr) as Hin1 by by left.
  pose proof (StronglySorted_app_1_elem_of _ _ _ e2 e1 Hsort Hin Hin1) as Hle.
  unfold level_le in Hle. lia.
Qed.

(** C7. Level barrier.  In every state of a run: the tasks in the pool
    all belong to the current level; every task submitted at an earlier
    level is over; in the trace every event of a level (submission,
    fetch, discovery, end of a task) stands before every event of a
    later level, so that level d is complete before anything of level
    d+1 is submitted.  The URLs submitted at level d+1 are the links
    that the pages of level d appended to [_urls], in that order: a
    prefix of them while the drain runs, all of them after it, and at
    the end of the crawl for every d with 1 ≤ d < maxDepth. *)
Theorem C7_level_barrier (s : State) (Hs : reachable self s) :
  (∀ t, running s t → t_level t = cur_level (ctl s)) ∧
  (∀ t, EvSubmit t ∈ trace s → t_level t < cur_level (ctl s) →
        ∃ x, EvEnd t x ∈ trace s) ∧
  (∀ i j e1 e2, trace s !! i = Some e1 → trace s !! j = Some e2 →
        ev_level e1 < ev_level e2 → (i < j)%nat) ∧
  (∀ d, 1 ≤ d < done_level (ctl s) →
        submitted (d + 1) (trace s) = discovered d (trace s)) ∧
  (∀ d n, ctl s = CDrain d n →
        1 ≤ d < maxDepth self ∧
        submitted (d + 1) (trace s) ++ take n (_urls (results s)) =
          discovered d (trace s)) ∧
  (∀ d, ctl s = CLoop d → _urls (results s) = discovered d (trace s)) ∧
  (∀ d, ctl s = CDone d → ∀ l, 1 ≤ l < maxDepth self →
        submitted (l + 1) (trace s) = discovered l (trace s)).
Proof.
  pose proof (reachable_inv _ _ Hs) as [_ Hlevel _ _ _ _ Hfr Hended].
  destruct Hlevel as [Hq Hw [Hle Hsort] Hok]. unfold ctl_ok in Hok.
  destruct Hfr as [_ Hsub Hcur _ _].
  assert (∀ t, running s t → t_level t = cur_level (ctl s)) as Hrun.
  { intros t [Hin|(i & w & Hwi & <-)]; by eauto. }
  split_and!.
  - exact Hrun.
  - intros t Hin Hlt. destruct (Hended t Hin) as [?|Hr]; [done|].
    apply Hrun in Hr. lia.
  - intros i j e1 e2. by apply level_sorted_lookup.
  - exact Hsub.
  - intros d n Hd. rewrite Hd in Hok, Hcur. split; [by apply Hok|].
    by apply Hcur.
  - intros d Hd. by rewrite Hd in Hcur.
  - intros d Hd l Hl. apply Hsub. rewrite Hd in Hok |- *. simpl.
    destruct Hok as [-> _]. lia.
Qed.

Lemma pc_step_graph_change i t pc o s e :
  pc_step self i t pc o s = Some e →
  graph (e_results e) ≠ graph (results s) →
  holds_graph pc = true ∧ o = None.
Proof. intros H Hne. by pc_cases H. Qed.

(** C3, amended.  A URL becomes a key of [graph] at the end of a [_get]
    whose [urlopen] returned a response (lines 201-202, before [_get]
    returns), not when the fetch begins, and a failed fetch creates no
    key: while a worker is past [_get] with a response its URL is a key;
    every key has a call of [urlopen] that returned; at the end of the
    crawl the keys are exactly the URLs for which some call returned.
    [graph] changes (a key is created, an entry is appended) only in
    steps of the worker that owns the graph lock. *)
Theorem C3_graph_keys_and_lock (s : State) (Hs : reachable self s) :
  (∀ i t pc, workers s !! i = Some {| w_task := t; w_pc := pc |} →
     after_urlopen pc = None → pc ≠ PConnect → pc ≠ PUrlopen →
     is_Some (graph (results s) !! t_url t)) ∧
  (∀ u, is_Some (graph (results s) !! u) →
     ∃ r, (u, Returns r) ∈ fetches (trace s)) ∧
  (∀ d u, ctl s = CDone d →
     (is_Some (graph (results s) !! u) ↔
      ∃ r, (u, Returns r) ∈ fetches (trace s))) ∧
  (∀ i t L e, workers s !! i = Some {| w_task := t; w_pc := PGraphInit L |} →
     pc_step self i t (PGraphInit L) None s = Some e →
     l_isDead L = true → graph (e_results e) = graph (results s)) ∧
  (∀ a s', step self a s = Some s' →
     graph (results s') ≠ graph (results s) →
     ∃ i w, a = AWork i ∧ graphLock s = Some i ∧
       workers s !! i = Some w ∧ holds_graph (w_pc w) = true).
Proof.
  pose proof (reachable_inv _ _ Hs) as [[_ Hgl] Hlevel _ _ Hlive _ _ _ Hkeys].
  split_and!.
  - intros i t pc Hw Hpc H1 H2. specialize (Hlive _ _ Hw). simpl in Hlive.
    destruct pc; simpl in *; try done; by destruct Hlive.
  - apply (ky_graph _ Hkeys).
  - intros d u Hd. split; [apply (ky_graph _ Hkeys)|].
    intros [r Hr]. destruct (ky_fetched _ Hkeys u r Hr) as [?|Hw]; [done|].
    destruct Hw as (i & t & pc & L & Hw & _).
    pose proof (lv_ctl _ _ Hlevel) as Hok. unfold ctl_ok in Hok.
    rewrite Hd in Hok. destruct Hok as (_ & _ & Hw0).
    by rewrite Hw0, lookup_empty in Hw.
  - intros i t L e _ He HL. pc_cases He; simpl; unfold get_graph;
      by rewrite HL.
  - intros a s' Hstep Hne. destruct a as [|i|i o]; simpl in Hstep.
    + apply ctl_step_frame in Hstep as (_ & _ & _ & E & _). by rewrite E in Hne.
    + unfold work_step in Hstep.
      destruct (workers s !! i) as [[t pc]|] eqn:Hw; simpl in Hstep.
      * destruct (pc_step self i t pc None s) as [e|] eqn:He; [|done].
        injection Hstep as <-. rewrite apply_effect_results in Hne.
        destruct (pc_step_graph_change _ _ _ _ _ _ He Hne) as [Hh _].
        exists i, {| w_task := t; w_pc := pc |}. split_and!; try done.
        by apply (proj2 Hgl i _ Hw).
      * apply take_task_inv in Hstep as (t & q & _ & _ & ->). done.
    + unfold work_step in Hstep.
      destruct (workers s !! i) as [[t pc]|] eqn:Hw; simpl in Hstep; [|done].
      destruct (pc_step self i t pc (Some o) s) as [e|] eqn:He; [|done].
      injection Hstep as <-. rewrite apply_effect_results in Hne.
      by destruct (pc_step_graph_change _ _ _ _ _ _ He Hne) as [_ ?].
Qed.

Lemma discovered_elem_of l tr t x :
  EvDiscover t x ∈ tr → t_level t = l → x ∈ discovered l tr.
Proof.
  intros Hin <-. unfold discovered. apply list_elem_of_omap.
  exists (EvDiscover t x). split; [done|]. by rewrite decide_True.
Qed.

Lemma discover_unique l tr t1 t2 x :
  NoDup (discovered l tr) →
  EvDiscover t1 x ∈ tr → EvDiscover t2 x ∈ tr →
  t_level t1 = l → t_level t2 = l → t1 = t2.
Proof.
  induction tr as [|e tr IH]; intros Hnd H1 H2 E1 E2.
  - by apply elem_of_nil in H1.
  - change (e :: tr) with ([e] ++ tr) in Hnd.
    rewrite discovered_app in Hnd. apply NoDup_app in Hnd as (_ & Hdisj & Hnd).
    apply elem_of_cons in H1 as [<-|H1]; apply elem_of_cons in H2 as [E|H2].
    + by injection E.
    + exfalso. apply (Hdisj x).
      * simpl. rewrite decide_True by done. by left.
      * by eapply discovered_elem_of.
    + subst e. exfalso. apply (Hdisj x).
      * simpl. rewrite decide_True by done. by left.
      * by eapply discovered_elem_of.
    + by apply IH.
Qed.


(** C6, amended.  Discovery is idempotent per page: a target URL that
    occurs as an href link several times in a page [u] gets at most one
    entry in [graph[u]], is appended to [_urls] at most once and is
    handed to [linkCallback] at most once for [u]; exactly once when, at
    its first occurrence, it is not in [_urls], not a key of [visited]
    and not yet in [graph[u]], and not at all when it is already queued,
    visited or adjacent.  In a run this holds of every adjacency list
    and of the calls of [linkCallback]; for the loop run by itself the
    list [F] of what it appends is given. *)
Theorem C6_discovery_at_most_once (s : State) (u x : string)
    (links : list LinkOcc) (r : SpiderResults) (adj : list string)
    (Hs : reachable self s)
    (Hadj : graph r !! u = Some adj)
    (Hx : ∃ lk, lk ∈ links ∧ lk_attribute lk = Some "href" ∧ lk_link lk = x) :
  (NoDup (adjacency (results s) u) ∧
   adjacency (results s) u = discovered_by u (trace s) ∧
   lk_link <$> linkcbs_by u (trace s) =
     if linkCallback self then discovered_by u (trace s) else []) ∧
  ∃ found, let F := lk_link <$> found in
    link_loop u links r [] =
      inr ({| graph := <[u := adj ++ F]> (graph r);
              visited := visited r;
              _urls := _urls r ++ F |}, found) ∧
    (occurrences x F ≤ 1)%nat ∧
    ((x ∉ _urls r) ∧ (x ∉ dom (visited r)) ∧ (x ∉ adj) →
     occurrences x F = 1%nat) ∧
    (x ∈ _urls r ∨ x ∈ dom (visited r) ∨ x ∈ adj →
     occurrences x F = 0%nat).
Proof.
  pose proof (reachable_inv _ _ Hs) as [_ _ _ _ _ Hgraph _ _ _].
  split.
  - split_and!; [|apply (gr_adj _ _ Hgraph)|apply (gr_cb _ _ Hgraph)].
    unfold adjacency. destruct (graph (results s) !! u) as [a|] eqn:E;
      simpl; [by apply (gr_nodup _ _ Hgraph u)|constructor].
  - destruct (link_loop_spec u links r [] adj Hadj)
      as (found & Hrun & Hnd & Hin & Hall).
    exists found. simpl in *. split_and!; [done|..].
    + destruct (decide (x ∈ lk_link <$> found)).
      * by rewrite occurrences_NoDup.
      * rewrite occurrences_not_elem_of by done. lia.
    + intros (H1 & H2 & H3). apply occurrences_NoDup; [done|].
      destruct Hx as (lk & Hlk & Hhref & <-). by apply Hall.
    + intros Hold. apply occurrences_not_elem_of. intros Hin'.
      destruct (Hin x Hin') as (? & ? & ? & _). tauto.
Qed.


(** C8. If the fetch of the seed (the first call of [urlopen] of a
    crawl) fails with an exception [e], a connection error for one, then
    at the end of the crawl [visited] holds exactly one record, keyed by
    the seed, with dead = true, [e] as failure kind and times = 1;
    [graph] and [_urls] are empty; nothing else was fetched; the control
    thread went through all levels (it stands at depth max(1, maxDepth)
    and called [levelCallback], if registered, for 1 ... that depth) and
    returned.  Such a crawl terminates: no state before the end is
    stuck, no run has more than 8 + 2 (maxDepth - 1) steps, and the end
    is reached. *)
Theorem C8_failing_seed (e : ExcType) (Hthreads : (1 ≤ threads self)%nat) :
  (∀ s d, reachable self s →
     head (fetches (trace s)) = Some (url self, Raises e) →
     ctl s = CDone d →
     visited (results s) =
       {[url self := {| redirected := false; redirectUrl := url self;
                        content_type := Some ""; content_enc := Some "";
                        dead := true; exc := Some e; times := 1 |}]} ∧
     graph (results s) = ∅ ∧ _urls (results s) = [] ∧
     fetches (trace s) = [(url self, Raises e)] ∧
     d = Z.max 1 (maxDepth self) ∧
     levels_started (trace s) =
       if levelCallback self then seqZ 1 d else []) ∧
  (∀ s, reachable self s → seed_fails self e s →
     (∃ d, ctl s = CDone d) ∨
     ∃ a s', step self a s = Some s' ∧ seed_fails self e s') ∧
  (∀ acts s, run self acts init = Some s → seed_fails self e s →
     (length acts ≤ 8 + 2 * Z.to_nat (maxDepth self - 1))%nat) ∧
  (∃ acts s d, run self acts init = Some s ∧ ctl s = CDone d ∧
     head (fetches (trace s)) = Some (url self, Raises e)).
Proof.
  split_and!.
  - intros s d Hs Hhead Hd.
    assert (seed_fails self e s) as Hfail.
    { intros f Hf. rewrite Hhead in Hf. by injection Hf as <-. }
    pose proof (reachable_inv _ _ Hs) as [_ Hlevel _ _ _ _ Hfr _ _].
    destruct Hs as [acts Hrun].
    destruct (shape_run _ _ _ _ Hrun Hfail) as (n & Hsh & _).
    destruct (shape_done _ _ _ _ _ Hsh Hd) as [-> Hf].
    pose proof (lv_ctl _ _ Hlevel) as Hok. unfold ctl_ok in Hok.
    rewrite Hd in Hok. destruct Hok as (Hmax & _).
    pose proof (fr_levels _ _ Hfr) as Hlv. rewrite Hd in Hlv.
    by split_and!.
  - intros s [acts Hrun] Hfail.
    destruct (shape_run _ _ _ _ Hrun Hfail) as (n & Hsh & _).
    by eapply shape_progress.
  - intros acts s Hrun Hfail.
    destruct (shape_run _ _ _ _ Hrun Hfail) as (n & Hsh & Hlen).
    unfold rem_loop in Hlen. lia.
  - destruct (shape_finish self e _ init Hthreads (shape_init self e))
      as (acts & s & d & Hrun & Hd & Hsh).
    exists acts, s, d. split_and!; [done..|].
    destruct (shape_done _ _ _ _ _ Hsh Hd) as [_ ->]. done.
Qed.

End Claims.

Module Witnesses.

Import Demo Runs.

Lemma C2_witness :
  ∃ v, visited (results sE) !! "p1" = Some v ∧
       times v = attempts "p1" (fetches (trace sE)) ∧ (1 ≤ times v)%nat.
Proof.
  eexists. split; [vm_compute; reflexivity|].
  apply (C2_times_counts_fetches (spider1 2) sE 2 "p1").
  - exact sE_reachable.
  - reflexivity.
  - vm_compute. reflexivity.
Defined.

Lemma C5_witness :
  visited (results sE) !! "p2" =
    Some (visit_info (get_try "p2" (page "p2" [href 0 "x"])) 1).
Proof.
  destruct (C5_fetch_recorded_not_raised (spider1 2) sE sE_reachable)
    as (_ & _ & _ & H & _).
  rewrite (H 2 "p2" eq_refl). vm_compute. reflexivity.
Defined.

Lemma C9_witness :
  is_Some (graph (results sLink) !! "p1").
Proof.
  eapply (C9_link_loop_key_exists (spider1 2) sLink 0
            {| t_level := 2; t_url := "p1" |}).
  - exact sLink_reachable.
  - vm_compute. reflexivity.
  - right. by eauto.
Defined.

Lemma C7_witness :
  submitted 2 (trace sE) = ["p1"; "p2"] ∧
  discovered 1 (trace sE) = ["p1"; "p2"].
Proof.
  destruct (C7_level_barrier (spider1 2) sE sE_reachable)
    as (_ & _ & _ & H & _).
  rewrite <-(H 1); [by vm_compute|]. split; [lia|]. by vm_compute.
Defined.

Lemma C3_witness : is_Some (graph (results sE) !! "p2").
Proof.
  destruct (C3_graph_keys_and_lock (spider1 2) sE sE_reachable)
    as (_ & _ & H & _).
  apply (H 2 "p2" eq_refl). eexists. vm_compute. right. right. left.
Defined.


Lemma C6_witness :
  ∃ found,
    link_loop "r" [href 0 "a"; href 1 "b"; href 2 "a"]
      (_get "r" (page "r" []) SpiderResults_init).2 [] =
      inr ({| graph := {["r" := ["a"; "b"]]};
              visited := visited (_get "r" (page "r" []) SpiderResults_init).2;
              _urls := ["a"; "b"] |}, found) ∧
    occurrences "a" (lk_link <$> found) = 1%nat.
Proof.
  destruct (C6_discovery_at_most_once (spider1 1) sSelf "r" "a"
              [href 0 "a"; href 1 "b"; href 2 "a"]
              (_get "r" (page "r" []) SpiderResults_init).2 [])
    as (_ & found & Hrun & _ & Hone & _).
  - exact sSelf_reachable.
  - by vm_compute.
  - exists (href 0 "a"). split_and!; [by left|done..].
  - assert (found = [href 0 "a"; href 1 "b"]) as Hfound.
    { apply (f_equal (λ x, match x with
                           | inr (_, f) => f
                           | inl _ => []
                           end)) in Hrun.
      vm_compute in Hrun. by symmetry. }
    exists found. split.
    + rewrite Hfound. by vm_compute.
    + apply Hone. split_and!.
      * apply not_elem_of_nil.
      * apply not_elem_of_dom. by vm_compute.
      * apply not_elem_of_nil.
Defined.


Lemma C8_witness :
  visited (results sFail) =
    {["r" := {| redirected := false; redirectUrl := "r";
                content_type := Some ""; content_enc := Some "";
                dead := true; exc := Some URLError; times := 1 |}]} ∧
  graph (results sFail) = ∅ ∧ _urls (results sFail) = [] ∧
  fetches (trace sFail) = [("r", Raises URLError)] ∧
  3 = Z.max 1 3 ∧
  levels_started (trace sFail) = seqZ 1 3.
Proof.
  assert (1 ≤ threads (spider1 3))%nat as Hthreads by (simpl; lia).
  destruct (C8_failing_seed (spider1 3) URLError Hthreads) as (H & _).
  apply (H sFail 3).
  - exact sFail_reachable.
  - by vm_compute.
  - reflexivity.
Defined.

End Witnesses.

(** * Where the code does something else *)

Module Counterexamples.

Import Demo Runs.

(** C3 as stated: "u becomes a key of graph from the moment its fetch
    begins (whether the fetch later succeeds or fails)".  The seed "r"
    is fetched, the fetch fails, and at the end of the crawl "r" is not
    a key of [graph]; and while the successful fetch of "p1" is under
    way (urlopen has answered), "p1" is not a key yet. *)
Lemma C3_counterexample :
  reachable (spider1 3) sFail ∧
  ("r", Raises URLError) ∈ fetches (trace sFail) ∧
  ctl sFail = CDone 3 ∧
  graph (results sFail) !! "r" = None ∧
  reachable (spider1 2) sFetched ∧
  after_urlopen <$> (w_pc <$> workers sFetched !! 0%nat) =
    Some (Some (get_try "p1" (page "p1" [href 0 "x"]))) ∧
  graph (results sFetched) !! "p1" = None.
Proof.
  split_and!.
  - exact sFail_reachable.
  - vm_compute. left.
  - reflexivity.
  - by vm_compute.
  - exact sFetched_reachable.
  - by vm_compute.
  - by vm_compute.
Qed.


(** C6 as stated: a target that occurs twice as an href link in a page
    gets "exactly one entry".  The seed "r" links to "r", "b", "r": the
    target "r" is a key of [visited] when the loop runs, so it gets no
    entry in [graph["r"]], is not queued, and [linkCallback] (which is
    registered) is not called for it. *)
Lemma C6_counterexample :
  reachable (spider1 1) sSelf ∧
  EvFetch {| t_level := 1; t_url := "r" |}
    (page "r" [href 0 "r"; href 1 "b"; href 2 "r"]) ∈ trace sSelf ∧
  ctl sSelf = CDone 1 ∧
  graph (results sSelf) !! "r" = Some ["b"] ∧
  _urls (results sSelf) = ["b"] ∧
  linkCallback (spider1 1) = true ∧
  linkcbs_by "r" (trace sSelf) = [href 1 "b"].
Proof.
  split_and!; try (by vm_compute).
  - exact sSelf_reachable.
  - vm_compute. repeat (first [by left|right]).
Qed.

End Counterexamples.
(** * Further properties of the code *)

(** ** The type tests [mime], [ishtml] and [isimage] *)

Lemma split_semicolon_0_spec (h : string) :
  (";"%char ∉ list_ascii_of_string (split_semicolon_0 h)) ∧
  (h = split_semicolon_0 h ∨
   ∃ rest, h = split_semicolon_0 h +:+ String ";" rest).
Proof.
  induction h as [|c h [IH1 IH2]]; simpl.
  - split; [apply not_elem_of_nil|by left].
  - destruct (Ascii.eqb_spec c ";"%char) as [->|Hc]; simpl.
    + split; [apply not_elem_of_nil|]. right. by exists h.
    + split.
      * rewrite not_elem_of_cons. split; [by intros <-|done].
      * destruct IH2 as [IH2|[rest IH2]].
        -- left. f_equal. exact IH2.
        -- right. exists rest. rewrite IH2 at 1. reflexivity.
Qed.

Lemma split_semicolon_0_unique (m rest : string) :
  ";"%char ∉ list_ascii_of_string m →
  split_semicolon_0 m = m ∧ split_semicolon_0 (m +:+ String ";" rest) = m.
Proof.
  induction m as [|c m IH]; [done|].
  change (String c m +:+ String ";" rest)
    with (String c (m +:+ String ";" rest)). simpl.
  rewrite not_elem_of_cons. intros [Hc Hm].
  destruct (Ascii.eqb_spec c ";"%char) as [->|_]; [done|].
  destruct (IH Hm) as [-> ->]. done.
Qed.

(** X1. [mime] gives the content type without its parameters: the part
    of the header before its first semicolon, as it stands (no space is
    trimmed, no letter is folded); a response that has no content-type
    header makes it raise AttributeError, and it raises nothing else. *)
Theorem mime_before_semicolon (response : Response) (m : string) :
  (mime response = inr m ↔
   ∃ h, header_content_type response = Some h ∧
        (";"%char ∉ list_ascii_of_string m) ∧
        (h = m ∨ ∃ rest, h = m +:+ String ";" rest)) ∧
  (∀ e, mime response = inl e ↔
        header_content_type response = None ∧ e = AttributeError).
Proof.
  unfold mime. destruct (header_content_type response) as [h|]; split.
  - split.
    + intros [= <-]. exists h. split; [done|]. apply split_semicolon_0_spec.
    + intros (h' & [= <-] & Hm & Hh). f_equal.
      destruct Hh as [->|[rest ->]].
      * by apply (split_semicolon_0_unique m "").
      * by apply (split_semicolon_0_unique m rest).
  - intros e. split; [done|]. by intros [? _].
  - split; [done|]. by intros (h & ? & _).
  - intros e. split; [by intros [= <-]|by intros [_ ->]].
Qed.

(** X2. [ishtml] answers true exactly when the content-type header is
    the string text/html or starts with text/html followed at once by a
    semicolon: the comparison is exact. *)
Theorem ishtml_exact (response : Response) :
  ishtml response = inr true ↔
  ∃ h, header_content_type response = Some h ∧
       (h = "text/html" ∨ ∃ rest, h = "text/html;" +:+ rest).
Proof.
  unfold ishtml, mime. split.
  - destruct (header_content_type response) as [h|]; [|done].
    intros [= Hm]. apply bool_decide_eq_true in Hm.
    apply list_elem_of_singleton in Hm. exists h. split; [done|].
    destruct (split_semicolon_0_spec h) as [_ [Hh|[rest Hh]]];
      rewrite Hm in Hh; [by left|right]. by exists rest.
  - intros (h & -> & [->|[rest ->]]); [done|].
    change ("text/html;" +:+ rest) with ("text/html" +:+ String ";" rest).
    destruct (split_semicolon_0_unique "text/html" rest) as [_ ->]; [|done].
    by apply (bool_decide_unpack _).
Qed.

(** X3. No response is both an html page and an image, and [isimage]
    fails for the responses for which [ishtml] fails: those that have
    no content-type header, with AttributeError. *)
Theorem isimage_not_ishtml (response : Response) :
  (isimage response = inr true → ishtml response = inr false) ∧
  (ishtml response = inr true → isimage response = inr false) ∧
  (∀ e, isimage response = inl e ↔ ishtml response = inl e) ∧
  (∀ e, isimage response = inl e ↔
        header_content_type response = None ∧ e = AttributeError).
Proof.
  unfold isimage, ishtml, mime.
  destruct (header_content_type response) as [h|]; simpl.
  - split_and!.
    + intros [= Hm]. apply bool_decide_eq_true in Hm. f_equal.
      apply bool_decide_eq_false. rewrite list_elem_of_singleton.
      intros E. rewrite E in Hm.
      repeat (apply elem_of_cons in Hm as [Hm|Hm]; [discriminate|]).
      by apply elem_of_nil in Hm.
    + intros [= Hm]. apply bool_decide_eq_true in Hm. f_equal.
      apply bool_decide_eq_false. apply list_elem_of_singleton in Hm.
      rewrite Hm. by apply (bool_decide_unpack _).
    + done.
    + intros e. split; [done|]. by intros [? _].
  - split_and!; try done.
    intros e. split; [by intros [= <-]|by intros [_ ->]].
Qed.

(** ** [_get] and [_processPage] run by themselves *)

(** X4. [_get] writes the visit record of its URL and, for a response,
    creates the adjacency list of its URL if there is none.  It leaves
    [_urls] alone, and the records and adjacency lists of all other
    URLs; an adjacency list that exists is kept as it is, whether the
    new fetch succeeds or fails. *)
Theorem _get_frame (url : string) (o : FetchOutcome) (r : SpiderResults) :
  let r' := (_get url o r).2 in
  _urls r' = _urls r ∧
  dom (visited r') = {[url]} ∪ dom (visited r) ∧
  (∀ u, u ≠ url →
     visited r' !! u = visited r !! u ∧ graph r' !! u = graph r !! u) ∧
  graph r' !! url =
    match graph r !! url, o with
    | Some adj, _ => Some adj
    | None, Returns _ => Some []
    | None, Raises _ => None
    end.
Proof.
  simpl. unfold get_record, get_graph. split_and!.
  - done.
  - by rewrite dom_insert_L.
  - intros u Hu. split; [by rewrite lookup_insert_ne|].
    destruct (_ && _); [by rewrite lookup_insert_ne|done].
  - destruct (graph r !! url) as [adj|] eqn:Hadj.
    + rewrite (bool_decide_eq_true_2 (url ∈ dom (graph r)))
        by (apply elem_of_dom; eauto).
      by rewrite andb_false_r.
    + rewrite (bool_decide_eq_false_2 (url ∈ dom (graph r)))
        by (by apply not_elem_of_dom).
      destruct o; simpl; [done|]. by rewrite lookup_insert_eq.
Qed.

(** After [_get] has returned a response, its URL is a key of [graph]
    and its record is that of a live page. *)
Lemma _get_returns (url : string) (response : Response) (r : SpiderResults) :
  let r' := (_get url (Returns response) r).2 in
  (∃ adj, graph r' !! url = Some adj) ∧
  ∃ v, visited r' !! url = Some v ∧ dead v = false.
Proof.
  simpl. split.
  - unfold get_graph. simpl. case_bool_decide as Hk; simpl.
    + apply elem_of_dom in Hk as [adj Hk]. eauto.
    + rewrite lookup_insert_eq. eauto.
  - unfold get_record. rewrite lookup_insert_eq. eauto.
Qed.

(** [ishtml] fails on the responses without a content-type header. *)
Lemma ishtml_raises (response : Response) (e : ExcType) :
  ishtml response = inl e ↔
  header_content_type response = None ∧ e = AttributeError.
Proof.
  unfold ishtml, mime. destruct (header_content_type response); simpl.
  - split; [done|]. by intros [? _].
  - split; [by intros [= <-]|by intros [_ ->]].
Qed.


(** What the link loop appends comes from the href links of the page,
    in the order of the document. *)
Lemma link_loop_sublist (url : string) (links : list LinkOcc) :
  ∀ r found0 r' found,
    link_loop url links r found0 = inr (r', found) →
    ∃ f, found = found0 ++ f ∧
      f `sublist_of` filter (λ lk, lk_attribute lk = Some "href") links.
Proof.
  induction links as [|lk rest IH]; intros r found0 r' found; simpl.
  - intros [= _ <-]. exists []. by rewrite app_nil_r.
  - unfold link_body. rewrite filter_cons.
    destruct (bool_decide (lk_attribute lk = Some "href")) eqn:Hhref; simpl.
    + apply bool_decide_eq_true in Hhref. rewrite decide_True by done.
      destruct (negb _ && negb _); simpl.
      * destruct (graph r !! url) as [adj|]; [|done].
        destruct (bool_decide (lk_link lk ∈ adj)).
        -- intros (f & -> & Hf)%IH. exists f. split; [done|].
           by apply sublist_cons.
        -- intros (f & -> & Hf)%IH. exists (lk :: f).
           rewrite <-app_assoc. split; [done|]. by apply sublist_skip.
      * intros (f & -> & Hf)%IH. exists f. split; [done|].
        by apply sublist_cons.
    + apply bool_decide_eq_false in Hhref. rewrite decide_False by done.
      apply IH.
Qed.

(** X6. The link loop queues href links only, each target once, in
    the order of their first occurrence in the document; links carried
    by other attributes (src, action, ...) and links found in text are
    never queued.  It appends the same targets to [_urls] and to the
    adjacency list of the page, and changes nothing else: [visited],
    what [_urls] held and the other adjacency lists stay. *)
Theorem link_loop_href_only (url : string) (links : list LinkOcc)
    (r : SpiderResults) (adj : list string)
    (Hadj : graph r !! url = Some adj) :
  ∃ r' found,
    link_loop url links r [] = inr (r', found) ∧
    found `sublist_of` filter (λ lk, lk_attribute lk = Some "href") links ∧
    NoDup (lk_link <$> found) ∧
    _urls r' = _urls r ++ (lk_link <$> found) ∧
    graph r' !! url = Some (adj ++ (lk_link <$> found)) ∧
    (∀ u, u ≠ url → graph r' !! u = graph r !! u) ∧
    visited r' = visited r.
Proof.
  destruct (link_loop_spec url links r [] adj Hadj) as (found & Hrun & Hnd & _).
  simpl in Hrun. eexists _, found. split; [exact Hrun|].
  destruct (link_loop_sublist _ _ _ _ _ _ Hrun) as (f & -> & Hf).
  simpl. split_and!; try done.
  - by rewrite lookup_insert_eq.
  - intros u Hu. by rewrite lookup_insert_ne.
Qed.

(** ** A task that runs alone *)

Section Alone.

Variable self : Spider.

Lemma work_step_running i t pc o s :
  workers s !! i = Some {| w_task := t; w_pc := pc |} →
  work_step self i o s =
    (λ e, apply_effect i t e s) <$> pc_step self i t pc o s.
Proof.
  intros Hw. unfold work_step. rewrite Hw. simpl.
  by destruct (pc_step self i t pc o s).
Qed.

(** The events of the passes through the loop body that found a link. *)
Definition link_events (t : Task) (found : list LinkOcc) : list Event :=
  found ≫= λ lk,
    EvDiscover t (lk_link lk) :: when (linkCallback self) (EvLinkCb t lk).

Lemma discovered_by_app u tr1 tr2 :
  discovered_by u (tr1 ++ tr2) = discovered_by u tr1 ++ discovered_by u tr2.
Proof. apply omap_app. Qed.

Lemma linkcbs_by_app u tr1 tr2 :
  linkcbs_by u (tr1 ++ tr2) = linkcbs_by u tr1 ++ linkcbs_by u tr2.
Proof. apply omap_app. Qed.

Lemma link_events_cons t lk found :
  link_events t (lk :: found) =
    (EvDiscover t (lk_link lk) :: when (linkCallback self) (EvLinkCb t lk))
    ++ link_events t found.
Proof. done. Qed.

Lemma link_events_linkcbs t found :
  linkcbs_by (t_url t) (link_events t found) =
    if linkCallback self then found else [].
Proof.
  induction found as [|lk found IH]; [by destruct (linkCallback self)|].
  rewrite link_events_cons, linkcbs_by_app, IH. unfold linkcbs_by.
  destruct (linkCallback self); simpl; [|done]. by rewrite decide_True.
Qed.

Lemma link_events_discovered t found :
  discovered_by (t_url t) (link_events t found) = lk_link <$> found.
Proof.
  induction found as [|lk found IH]; [done|].
  rewrite link_events_cons, discovered_by_app, IH. unfold discovered_by.
  simpl. rewrite decide_True by done. by destruct (linkCallback self).
Qed.

(** The link loop of a worker that is not interrupted: two steps for
    each link, one to leave the loop. *)
Lemma link_loop_alone i t links : ∀ s found0 adj,
  workers s !! i = Some {| w_task := t; w_pc := PLink links |} →
  graphLock s = None →
  graph (results s) !! t_url t = Some adj →
  ∃ r' found s',
    link_loop (t_url t) links (results s) found0 = inr (r', found0 ++ found) ∧
    run self (repeat (AWork i) (2 * length links + 1)) s = Some s' ∧
    results s' = r' ∧
    connectLock s' = connectLock s ∧ graphLock s' = None ∧
    queue s' = queue s ∧ workers s' = delete i (workers s) ∧
    ctl s' = ctl s ∧
    trace s' = trace s ++ link_events t found ++ [EvEnd t None].
Proof.
  induction links as [|lk rest IH]; intros s found0 adj Hw Hgl Hadj.
  - exists (results s), [], (apply_effect i t
      {| e_results := results s; e_connectLock := connectLock s;
         e_graphLock := graphLock s; e_events := []; e_next := Return |} s).
    simpl. rewrite (work_step_running _ _ _ _ _ Hw). simpl.
    by rewrite app_nil_r.
  - replace (2 * length (lk :: rest) + 1)%nat
      with (S (S (2 * length rest + 1))) by (simpl; lia).
    simpl. rewrite (work_step_running _ _ _ _ _ Hw). simpl. rewrite Hgl. simpl.
    unfold work_step at 1. simpl. rewrite lookup_insert_eq. simpl.
    destruct (link_body_cases (t_url t) lk (results s) adj Hadj)
      as [[-> _]|[-> _]]; simpl.
    + match goal with |- context [run self _ ?s2] =>
        destruct (IH s2 found0 adj) as (r' & found & s' & Hloop & Hrun & Hs')
      end; simpl; [by rewrite lookup_insert_eq|done|done|].
      simpl in Hloop, Hs'. exists r', found, s'.
      split; [done|]. split; [exact Hrun|].
      destruct Hs' as (-> & -> & -> & -> & -> & -> & ->).
      rewrite !delete_insert_eq, !app_nil_r. done.
    + match goal with |- context [run self _ ?s2] =>
        destruct (IH s2 (found0 ++ [lk]) (adj ++ [lk_link lk]))
          as (r' & found & s' & Hloop & Hrun & Hs')
      end; simpl;
        [by rewrite lookup_insert_eq|done|by rewrite lookup_insert_eq|].
      simpl in Hloop, Hs'. exists r', (lk :: found), s'.
      split; [by rewrite Hloop, <-app_assoc|]. split; [exact Hrun|].
      destruct Hs' as (-> & -> & -> & -> & -> & -> & ->).
      rewrite !delete_insert_eq, !app_nil_r.
      split_and!; try done.
      rewrite link_events_cons, <-!app_assoc. done.
Qed.

(** [_get] of a worker that is not interrupted. *)
Lemma get_alone i t o s :
  workers s !! i = Some {| w_task := t; w_pc := PConnect |} →
  connectLock s = None → graphLock s = None →
  ∃ s',
    run self [AWork i; AFetch i o; AWork i; AWork i; AWork i] s = Some s' ∧
    results s' = (_get (t_url t) o (results s)).2 ∧
    connectLock s' = None ∧ graphLock s' = None ∧
    queue s' = queue s ∧ ctl s' = ctl s ∧
    workers s' =
      match o with
      | Returns response =>
          <[i := {| w_task := t; w_pc := PPage response |}]> (workers s)
      | Raises _ => delete i (workers s)
      end ∧
    trace s' = trace s ++ EvFetch t o ::
                 match o with Returns _ => [] | Raises _ => [EvEnd t None] end.
Proof.
  intros Hw Hcl Hgl. simpl.
  rewrite (work_step_running _ _ _ _ _ Hw). simpl. rewrite Hcl. simpl.
  unfold work_step at 1. simpl. rewrite lookup_insert_eq. simpl.
  unfold work_step at 1. simpl. rewrite lookup_insert_eq. simpl.
  unfold work_step at 1. simpl. rewrite lookup_insert_eq. simpl.
  rewrite Hgl. simpl.
  unfold work_step at 1. simpl. rewrite lookup_insert_eq. simpl.
  eexists. split; [reflexivity|]. simpl.
  rewrite !app_nil_r, <-!app_assoc.
  destruct o as [e|response]; simpl;
    rewrite ?insert_insert_eq, ?delete_insert_eq; done.
Qed.

(** X7. A task that is not interrupted does what [_processPage] run by
    itself does.  From a state where worker [i] is about to start the
    task for a URL and both locks are free, the steps of worker [i]
    alone (its call of [urlopen] answering [o]) end the task; they leave
    the results that [_processPage] computes, end by the exception that
    [_processPage] gives (or by none), append to the adjacency list of
    the page and hand to [linkCallback] the links that it reports, and
    give both locks back. *)
Theorem task_alone (i : nat) (t : Task) (o : FetchOutcome) (s : State)
    (Hw : workers s !! i = Some {| w_task := t; w_pc := PConnect |})
    (Hcl : connectLock s = None) (Hgl : graphLock s = None) :
  ∃ n s' evs,
    run self ([AWork i; AFetch i o] ++ repeat (AWork i) n) s = Some s' ∧
    results s' = (_processPage (t_url t) o (results s)).1.2 ∧
    trace s' = trace s ++ [EvFetch t o] ++ evs ++
                 [EvEnd t (_processPage (t_url t) o (results s)).1.1] ∧
    discovered_by (t_url t) evs =
      lk_link <$> (_processPage (t_url t) o (results s)).2 ∧
    linkcbs_by (t_url t) evs =
      (if linkCallback self
       then (_processPage (t_url t) o (results s)).2 else []) ∧
    workers s' = delete i (workers s) ∧
    connectLock s' = None ∧ graphLock s' = None ∧
    queue s' = queue s ∧ ctl s' = ctl s.
Proof.
  destruct (get_alone i t o s Hw Hcl Hgl)
    as (s5 & Hrun5 & Hr5 & Hcl5 & Hgl5 & Hq5 & Hc5 & Hw5 & Ht5).
  assert (∀ m, [AWork i; AFetch i o] ++ repeat (AWork i) (3 + m) =
               [AWork i; AFetch i o; AWork i; AWork i; AWork i] ++
               repeat (AWork i) m) as Hsplit by done.
  unfold _processPage. destruct o as [e|response].
  { exists (3 + 0)%nat, s5, []. rewrite (Hsplit 0%nat), app_nil_r, Hrun5.
    rewrite Ht5, Hr5. simpl. split_and!; try done.
    by destruct (linkCallback self). }
  change (_get (t_url t) (Returns response) (results s))
    with (Some response, (_get (t_url t) (Returns response) (results s)).2).
  destruct (_get_returns (t_url t) response (results s)) as [[adj Hadj] _].
  rewrite <-Hr5 in Hadj |- *. cbv iota beta.
  assert (workers s5 !! i = Some {| w_task := t; w_pc := PPage response |})
    as Hw5' by (by rewrite Hw5, lookup_insert_eq).
  assert (delete i (workers s5) = delete i (workers s)) as Hdel
    by (by rewrite Hw5, delete_insert_eq).
  pose (cb := when (responseCallback self) (EvResponseCb t response)).
  assert (discovered_by (t_url t) cb = [] ∧ linkcbs_by (t_url t) cb = [])
    as [Hcb1 Hcb2] by (unfold cb; by destruct (responseCallback self)).
  destruct (ishtml response) as [e|[|]] eqn:Hhtml;
    [|destruct (document response) as [e| |links] eqn:Hdoc|].
  1-3,5: exists (3 + 1)%nat; eexists; exists cb;
    rewrite (Hsplit 1%nat), run_app, Hrun5; simpl;
    rewrite (work_step_running _ _ _ _ _ Hw5'); simpl;
    rewrite Hhtml, ?Hdoc; simpl; (split; [reflexivity|]); simpl;
    rewrite Ht5, <-?app_assoc; split_and!; try done;
    by destruct (linkCallback self).
  pose (cb2 := cb ++ when (htmlCallback self) (EvHtmlCb t)).
  assert (discovered_by (t_url t) cb2 = [] ∧ linkcbs_by (t_url t) cb2 = [])
    as [Hcb3 Hcb4].
  { unfold cb2, cb.
    by destruct (responseCallback self), (htmlCallback self). }
  pose (s6 := apply_effect i t
          {| e_results := results s5; e_connectLock := connectLock s5;
             e_graphLock := graphLock s5; e_events := cb2;
             e_next := Goto (PLink links) |} s5).
  destruct (link_loop_alone i t links s6 [] adj)
    as (r' & found & s' & Hloop & Hrun & <- & Hcl' & Hgl' & Hq' & Hw' & Hc'
        & Ht');
    [by simpl; rewrite lookup_insert_eq|done|done|].
  simpl in Hloop. rewrite Hloop. cbn [fst snd].
  exists (3 + (1 + (2 * length links + 1)))%nat, s',
    (cb2 ++ link_events t found).
  rewrite Hsplit, run_app, Hrun5. simpl.
  rewrite (work_step_running _ _ _ _ _ Hw5'). simpl.
  rewrite Hhtml, Hdoc. simpl. fold cb. fold cb2. fold s6.
  split; [exact Hrun|]. simpl in *.
  rewrite Ht', Ht5, Hw', Hcl', Hq', Hc', delete_insert_eq, Hdel.
  rewrite discovered_by_app, linkcbs_by_app, Hcb3, Hcb4.
  rewrite link_events_discovered, link_events_linkcbs.
  rewrite !app_nil_r, <-!app_assoc. simpl. split_and!; try done.
Qed.

End Alone.

(** ** The locks and the progress of a crawl *)

Section Progress.

Variable self : Spider.

(** X8. At most one worker stands between the acquire of
    [connectLock] in [_get] (line 163) and its release (line 205): the
    calls of [urlopen] never overlap.  At most one worker stands in a
    region of [graphLock].  A lock is taken exactly when a worker stands
    in its region, and when [spider] has returned no task is left and
    both locks are free. *)
Theorem locks_exclusive (s : State) (Hs : reachable self s) :
  (∀ i j wi wj, workers s !! i = Some wi → workers s !! j = Some wj →
     holds_connect (w_pc wi) = true → holds_connect (w_pc wj) = true →
     i = j) ∧
  (∀ i j wi wj, workers s !! i = Some wi → workers s !! j = Some wj →
     holds_graph (w_pc wi) = true → holds_graph (w_pc wj) = true →
     i = j) ∧
  (∀ i w, workers s !! i = Some w →
     (holds_connect (w_pc w) = true ↔ connectLock s = Some i) ∧
     (holds_graph (w_pc w) = true ↔ graphLock s = Some i)) ∧
  (∀ d, ctl s = CDone d →
     queue s = [] ∧ workers s = ∅ ∧
     connectLock s = None ∧ graphLock s = None).
Proof.
  pose proof (reachable_inv _ _ Hs) as [[Hc Hg] Hlevel _ _ _ _ _ _ _].
  split_and!.
  - intros i j wi wj Hi Hj H1 H2.
    apply (lock_ok_owner _ _ _ _ _ Hc Hi) in H1.
    apply (lock_ok_owner _ _ _ _ _ Hc Hj) in H2. congruence.
  - intros i j wi wj Hi Hj H1 H2.
    apply (lock_ok_owner _ _ _ _ _ Hg Hi) in H1.
    apply (lock_ok_owner _ _ _ _ _ Hg Hj) in H2. congruence.
  - intros i w Hw. split; by eapply lock_ok_owner.
  - intros d Hd. pose proof (lv_ctl _ _ Hlevel) as Hok.
    unfold ctl_ok in Hok. rewrite Hd in Hok. destruct Hok as (_ & Hq & Hw).
    split_and!; try done.
    + destruct (connectLock s) as [i|] eqn:E; [|done].
      destruct (proj1 Hc i eq_refl) as (w & Hi & _). by rewrite Hw in Hi.
    + destruct (graphLock s) as [i|] eqn:E; [|done].
      destruct (proj1 Hg i eq_refl) as (w & Hi & _). by rewrite Hw in Hi.
Qed.

(** A worker that holds the graph lock can move. *)
Lemma graph_owner_moves (s : State) i w :
  workers s !! i = Some w → holds_graph (w_pc w) = true →
  ∃ s', step self (AWork i) s = Some s'.
Proof.
  intros Hw Hh. destruct w as [t pc]. simpl. unfold work_step. rewrite Hw.
  destruct pc; try done; simpl; [by eauto|].
  destruct (link_body _ _ _); by eauto.
Qed.

(** When the graph lock is free, the worker that holds the connect
    lock can move. *)
Lemma connect_owner_moves (s : State) i w :
  workers s !! i = Some w → holds_connect (w_pc w) = true →
  graphLock s = None →
  ∃ a s', step self a s = Some s'.
Proof.
  intros Hw Hh Hgl. destruct w as [t pc]. destruct pc; try done.
  - exists (AFetch i (Raises URLError)). simpl. unfold work_step.
    rewrite Hw. simpl. by eauto.
  - exists (AWork i). simpl. unfold work_step. rewrite Hw. simpl. by eauto.
  - exists (AWork i). simpl. unfold work_step. rewrite Hw. simpl.
    rewrite Hgl. by eauto.
  - exists (AWork i). by eapply graph_owner_moves.
Qed.

(** When both locks are free, every worker can move. *)
Lemma free_worker_moves (s : State) i w :
  workers s !! i = Some w →
  connectLock s = None → graphLock s = None →
  holds_connect (w_pc w) = false → holds_graph (w_pc w) = false →
  ∃ s', step self (AWork i) s = Some s'.
Proof.
  intros Hw Hcl Hgl H1 H2. destruct w as [t pc]. simpl. unfold work_step.
  rewrite Hw. destruct pc as [| | | | | |[|lk rest]|]; try done; simpl;
    rewrite ?Hcl, ?Hgl; by eauto.
Qed.

(** X9. No deadlock.  With at least one worker in the pool, a crawl
    that has not returned can always go on: in every state that a run
    reaches, [spider] has returned or some thread can take a step.  The
    two locks are nested in one order only ([graphLock] inside
    [connectLock] in [_get], [graphLock] alone in the link loop), and
    [wait_completion] waits for workers that can move. *)
Theorem no_deadlock (s : State) (Hs : reachable self s)
    (Hthreads : (1 ≤ threads self)%nat) :
  (∃ d, ctl s = CDone d) ∨ ∃ a s', step self a s = Some s'.
Proof.
  pose proof (reachable_inv _ _ Hs) as [[Hc Hg] Hlevel _ _ _ _ _ _ _].
  pose proof (lv_ctl _ _ Hlevel) as Hok. unfold ctl_ok in Hok.
  assert (pool_idle s = false → ∃ a s', step self a s = Some s') as Hpool.
  { intros Hidle.
    destruct (graphLock s) as [j|] eqn:Hgl.
    { destruct (proj1 Hg j eq_refl) as (w & Hw & Hh).
      exists (AWork j). by eapply graph_owner_moves. }
    destruct (connectLock s) as [j|] eqn:Hcl.
    { destruct (proj1 Hc j eq_refl) as (w & Hw & Hh).
      by eapply connect_owner_moves. }
    destruct (map_choose_or_empty (workers s)) as [(i & w & Hw)|Hempty].
    - exists (AWork i). eapply free_worker_moves; try done.
      + by eapply lock_ok_free.
      + by eapply lock_ok_free.
    - exists (AWork 0). simpl. unfold work_step. rewrite Hempty, lookup_empty.
      unfold take_task. rewrite decide_True by lia.
      destruct (queue s) as [|t q] eqn:Hq; [|by eauto].
      by rewrite (pool_idle_empty s Hq Hempty) in Hidle. }
  destruct (ctl s) as [|d|d [|n]|d|x] eqn:Hctl; [| | | |left; by eauto|done].
  - right. exists ACtl. simpl. unfold ctl_step. rewrite Hctl. by eauto.
  - right. destruct (pool_idle s) eqn:Hidle; [|by auto].
    exists ACtl. simpl. unfold ctl_step. rewrite Hctl, Hidle.
    destruct (bool_decide _); by eauto.
  - right. exists ACtl. simpl. unfold ctl_step. rewrite Hctl. by eauto.
  - right. exists ACtl. simpl. unfold ctl_step. rewrite Hctl.
    destruct (popleft s) as [[u s1]|]; by eauto.
Qed.

(** What one step keeps of the results. *)
Lemma step_grows a s s' :
  step self a s = Some s' →
  (∀ u v, visited (results s) !! u = Some v →
     ∃ v', visited (results s') !! u = Some v' ∧ (times v ≤ times v')%nat) ∧
  (∀ u adj, graph (results s) !! u = Some adj →
     ∃ adj', graph (results s') !! u = Some adj' ∧ adj `prefix_of` adj') ∧
  trace s `prefix_of` trace s'.
Proof.
  intros Hstep. split_and!.
  - intros u v Hv.
    apply step_kind in Hstep as [Hctl|i Hi Htake|i t pc o e Hw He ->].
    + apply ctl_step_frame in Hctl as (_ & _ & _ & _ & ->). by eauto.
    + apply take_task_inv in Htake as (t & q & _ & _ & ->). by eauto.
    + simpl. rewrite (pc_step_visited _ _ _ _ _ _ _ He).
      destruct pc; try (by eauto). unfold get_record.
      destruct (decide (t_url t = u)) as [->|Hne].
      * rewrite lookup_insert_eq, Hv. eexists. split; [done|]. simpl. lia.
      * rewrite lookup_insert_ne by done. by eauto.
  - intros u adj Hadj.
    apply step_kind in Hstep as [Hctl|i Hi Htake|i t pc o e Hw He ->].
    + apply ctl_step_frame in Hctl as (_ & _ & _ & -> & _). by eauto.
    + apply take_task_inv in Htake as (t & q & _ & _ & ->). by eauto.
    + simpl. destruct (pc_step_graph _ _ _ _ _ _ _ He) as (Hg & _).
      specialize (Hg u). unfold adjacency in Hg. rewrite Hadj in Hg.
      destruct (pc_step_graph_mono _ _ _ _ _ _ _ u He) as [adj' Hadj'];
        [by eauto|].
      rewrite Hadj' in Hg. simpl in Hg. exists adj'. split; [done|].
      rewrite Hg. by apply prefix_app_r.
  - destruct (step_trace _ _ _ _ Hstep) as [evs ->]. by apply prefix_app_r.
Qed.

(** X10. The results only grow during a crawl.  Along every run a
    visit record is never removed and its counter 'times' never
    decreases, a key of [graph] is never removed and its adjacency list
    is only appended to, and what has happened stays: whoever reads the
    results while the spider runs (a callback, say) sees a prefix of
    what will be there at the end. *)
Theorem results_only_grow (acts : list Action) (s s' : State)
    (Hrun : run self acts s = Some s') :
  (∀ u v, visited (results s) !! u = Some v →
     ∃ v', visited (results s') !! u = Some v' ∧ (times v ≤ times v')%nat) ∧
  (∀ u adj, graph (results s) !! u = Some adj →
     ∃ adj', graph (results s') !! u = Some adj' ∧ adj `prefix_of` adj') ∧
  trace s `prefix_of` trace s'.
Proof.
  revert s Hrun. induction acts as [|a acts IH]; intros s; simpl.
  - intros [= <-]. split_and!; by eauto.
  - destruct (step self a s) as [s1|] eqn:Hstep; [|done]. intros Hrun.
    destruct (step_grows _ _ _ Hstep) as (H1 & H2 & H3).
    destruct (IH _ Hrun) as (IH1 & IH2 & IH3). split_and!.
    + intros u v Hv. destruct (H1 _ _ Hv) as (v1 & Hv1 & ?).
      destruct (IH1 _ _ Hv1) as (v' & ? & ?). exists v'. split; [done|lia].
    + intros u adj Hadj. destruct (H2 _ _ Hadj) as (adj1 & Hadj1 & ?).
      destruct (IH2 _ _ Hadj1) as (adj' & ? & ?). exists adj'.
      split; [done|]. by etrans.
    + by etrans.
Qed.

(** X11. [levelCallback] is called with 1, 2, 3, ... in this order,
    once for each level and before the pages of the level are handed to
    the pool, whether or not the level has any page.  When [spider] has
    returned it has been called for the levels 1 to max(1, maxDepth)
    and for no other: also with maxDepth below 1 level 1 is announced
    and crawled.  A spider without a [levelCallback] calls none. *)
Theorem levelCallback_levels (s : State) (Hs : reachable self s) :
  levels_started (trace s) =
    (if levelCallback self
     then match ctl s with
          | CStart => []
          | CDrain d _ => seqZ 1 (d + 1)
          | CLoop d | CDone d => seqZ 1 d
          | CRaised _ => []
          end
     else []) ∧
  (∀ d, ctl s = CDone d → d = Z.max 1 (maxDepth self)) ∧
  (∀ d, ctl s = CLoop d ∨ (∃ n, ctl s = CDrain d n) →
     1 ≤ d ∧ (d ≤ 1 ∨ d ≤ maxDepth self)).
Proof.
  pose proof (reachable_inv _ _ Hs) as [_ Hlevel _ _ _ _ Hfr _ _].
  pose proof (lv_ctl _ _ Hlevel) as Hok. unfold ctl_ok in Hok.
  split_and!.
  - rewrite (fr_levels _ _ Hfr). destruct (levelCallback self); [|done].
    by destruct (ctl s).
  - intros d Hd. rewrite Hd in Hok. by destruct Hok.
  - intros d [Hd|[n Hd]]; rewrite Hd in Hok; [done|lia].
Qed.

End Progress.

(** ** Tasks and their events *)

Lemma submitted_elem_of l tr t :
  EvSubmit t ∈ tr → t_level t = l → t_url t ∈ submitted l tr.
Proof.
  intros Hin <-. unfold submitted. apply list_elem_of_omap.
  exists (EvSubmit t). split; [done|]. by rewrite decide_True.
Qed.

Lemma elem_of_submitted l tr u :
  u ∈ submitted l tr → EvSubmit {| t_level := l; t_url := u |} ∈ tr.
Proof.
  unfold submitted. intros (e & Hin & He)%list_elem_of_omap.
  destruct e as [|[l' u']| | | | | |]; try done. simpl in He.
  case_decide; [|done]. by simplify_eq.
Qed.

Lemma elem_of_discovered l tr x :
  x ∈ discovered l tr → ∃ t, EvDiscover t x ∈ tr ∧ t_level t = l.
Proof.
  unfold discovered. intros (e & Hin & He)%list_elem_of_omap.
  destruct e as [| | | | |t x'| |]; try done. simpl in He.
  case_decide; [|done]. simplify_eq. by eauto.
Qed.

Lemma elem_of_discovered_by u tr x :
  x ∈ discovered_by u tr ↔ ∃ t, EvDiscover t x ∈ tr ∧ t_url t = u.
Proof.
  unfold discovered_by. rewrite list_elem_of_omap. split.
  - intros (e & Hin & He). destruct e as [| | | | |t x'| |]; try done.
    simpl in He. case_decide; [|done]. simplify_eq. by eauto.
  - intros (t & Hin & <-). exists (EvDiscover t x). split; [done|].
    simpl. by rewrite decide_True.
Qed.

Lemma elem_of_fetches tr u o :
  (u, o) ∈ fetches tr ↔ ∃ t, EvFetch t o ∈ tr ∧ t_url t = u.
Proof.
  unfold fetches. rewrite list_elem_of_omap. split.
  - intros (e & Hin & He). destruct e; try done. simplify_eq. by eauto.
  - intros (t & Hin & <-). by exists (EvFetch t o).
Qed.

Section Tasks.

Variable self : Spider.

(** The level that the pool works on is at least 1. *)
Lemma cur_level_pos s : ctl_ok self s → 1 ≤ cur_level (ctl s).
Proof. unfold ctl_ok. destruct (ctl s); simpl; lia. Qed.

(** What a step of the control thread does to the queue of the pool:
    nothing, or it appends a task that was not submitted before. *)
Lemma ctl_step_queue s s' :
  reachable self s → ctl_step self s = Some s' →
  (queue s' = queue s ∧ ∀ t, EvSubmit t ∈ trace s' → EvSubmit t ∈ trace s) ∨
  ∃ t, queue s' = queue s ++ [t] ∧
       (∀ t', EvSubmit t' ∈ trace s' ↔ EvSubmit t' ∈ trace s ∨ t' = t) ∧
       (EvSubmit t ∉ trace s) ∧ 1 ≤ t_level t ∧
       (t_level t = 1 → t_url t = url self).
Proof.
  intros Hs Hstep.
  pose proof (reachable_inv _ _ Hs) as [_ Hlevel _ _ _ _ Hfr _ _].
  pose proof (lv_ctl _ _ Hlevel) as Hok. unfold ctl_ok in Hok.
  pose proof (fr_cur _ _ Hfr) as Hcur. pose proof (fr_nodup _ _ Hfr) as Hnd.
  ctl_cases Hstep; simpl in *.
  - right. eexists. split; [done|]. split_and!; try done.
    + intros t'. rewrite !elem_of_app, list_elem_of_singleton. split.
      * intros [[H|H%when_elem_of]|[= ->]]; try done; by eauto.
      * intros [?| ->]; by eauto.
    + destruct Hok as (_ & _ & ->). by intros ?%elem_of_nil.
  - left. split; [done|]. intros t. rewrite elem_of_app.
    by intros [H|H%when_elem_of].
  - by left.
  - by left.
  - right. eexists. split; [done|]. split_and!; simpl.
    + intros t'. rewrite !elem_of_app, list_elem_of_singleton. split.
      * intros [?|[= ->]]; by eauto.
      * intros [?| ->]; by eauto.
    + intros Hin. apply (submitted_elem_of (depth + 1)) in Hin; [|done].
      simpl in Hin. destruct Hcur as [Hcur _].
      specialize (Hnd depth). rewrite <-Hcur in Hnd.
      match goal with H : _urls _ = _ |- _ => rewrite H in Hnd end.
      simpl in Hnd. apply NoDup_app in Hnd as (_ & Hdisj & _).
      apply (Hdisj _ Hin). by left.
    + lia.
    + intros. lia.
  - by left.
Qed.

(** A task in the pool has been submitted, and the events of a run
    carry levels from 1 on. *)
Record inv_run (s : State) : Prop := {
  rn_sub t : running s t → EvSubmit t ∈ trace s;
  rn_pos : Forall (λ e, 1 ≤ ev_level e) (trace s);
  rn_seed t : EvSubmit t ∈ trace s → t_level t = 1 → t_url t = url self
}.

Lemma inv_run_init : inv_run init.
Proof.
  split.
  - intros t [Hq|(i & w & Hw & _)]; [by apply elem_of_nil in Hq|].
    simpl in Hw. by rewrite lookup_empty in Hw.
  - constructor.
  - by intros t ?%elem_of_nil.
Qed.

Lemma inv_run_step a s s' :
  reachable self s → inv_run s → step self a s = Some s' → inv_run s'.
Proof.
  intros Hs [Hsub Hpos Hseed] Hstep.
  pose proof (reachable_inv _ _ Hs) as [_ Hlevel _ _ _ _ _ _ _].
  pose proof (cur_level_pos _ (lv_ctl _ _ Hlevel)) as Hcur.
  pose proof Hstep as [Hctl|i Hi Htake|i t pc o e Hw He ->]%step_kind.
  - destruct (ctl_step_trace _ _ _ Hctl) as (evs & Htr & Hevs).
    pose proof (ctl_step_frame _ _ _ Hctl) as (_ & _ & HW & _).
    assert (Forall (λ e, 1 ≤ ev_level e) (trace s')) as Hpos'.
    { clear Hevs Htr evs. pose proof (lv_ctl _ _ Hlevel) as Hok.
      unfold ctl_ok in Hok. ctl_cases Hctl; simpl in *;
        rewrite ?Forall_app; repeat split; try done.
      all: try (destruct (levelCallback self); simpl);
        repeat constructor; simpl; lia. }
    destruct (ctl_step_queue _ _ Hs Hctl)
      as [[Hq Hold]|(t & Hq & Hin & Hnew & Hl & Hu)].
    + split; [|done|].
      * intros t [Ht|(i & w & Hw & <-)]; rewrite Htr, elem_of_app; left;
          apply Hsub; [left; congruence|right; exists i, w; by rewrite <-HW].
      * intros t Ht. by apply Hseed, Hold.
    + split; [|done|].
      * intros t' [Ht|(i & w & Hw & <-)].
        -- rewrite Hq, elem_of_app in Ht. destruct Ht as [Ht|Ht].
           ++ rewrite Htr, elem_of_app. left. apply Hsub. by left.
           ++ apply list_elem_of_singleton in Ht. subst. apply Hin. by right.
        -- rewrite Htr, elem_of_app. left. apply Hsub. right.
           exists i, w. by rewrite <-HW.
      * intros t' [Ht'| ->]%Hin; [by apply Hseed|done].
  - apply take_task_inv in Htake as (t & q & Hq & _ & ->). split; simpl.
    + intros t' [Ht|(j & w & Hw & <-)]; apply Hsub.
      * left. rewrite Hq. by right.
      * simpl in Hw. destruct (decide (j = i)) as [->|Hne].
        -- rewrite lookup_insert_eq in Hw. simplify_eq. simpl.
           left. rewrite Hq. by left.
        -- rewrite lookup_insert_ne in Hw by done. right. by eauto.
    + done.
    + done.
  - split.
    + intros t' Hrun. rewrite apply_effect_trace, elem_of_app. left.
      apply Hsub. destruct Hrun as [Ht|(j & w & Hj & <-)]; [by left|].
      right. apply next_workers_Some in Hj
        as [(-> & pc' & _ & ->)|[_ Hj]]; by eauto.
    + rewrite apply_effect_trace, Forall_app. split; [done|].
      eapply Forall_impl; [by eapply pc_step_events_level|].
      simpl. intros ev ->.
      by rewrite (lv_workers _ _ Hlevel _ _ Hw : t_level t = _).
    + intros t'. rewrite apply_effect_trace, elem_of_app.
      intros [?|Hin]; [by apply Hseed|].
      by apply (pc_step_no_submit _ _ _ _ _ _ _ t' He) in Hin.
Qed.

Lemma reachable_inv_run s : reachable self s → inv_run s.
Proof.
  revert s. apply reachable_ind; [apply inv_run_init|].
  intros a s s' Hs. by apply inv_run_step.
Qed.

End Tasks.

(** ** What a task does once *)

(** Some events a task gives rise to at one place of its code only:
    it calls [urlopen] once, hands its response to [responseCallback]
    once.  [kind] picks the events, [before] tells the places of the
    code from which the event is still to come. *)
Section Once.

Variable self : Spider.
Variable kind : Event → option Task.
Variable before : PC → bool.

Hypothesis kind_ctl : ∀ e, ctl_event e → kind e = None.
Hypothesis kind_step : ∀ i t pc o s e,
  pc_step self i t pc o s = Some e →
  (∀ pc', e_next e = Goto pc' → before pc' = true → before pc = true) ∧
  (omap kind (effect_events t e) = [] ∨
   omap kind (effect_events t e) = [t] ∧ before pc = true ∧
   ∀ pc', e_next e = Goto pc' → before pc' = false).

Record inv_once (s : State) : Prop := {
  on_sub t : t ∈ omap kind (trace s) → EvSubmit t ∈ trace s;
  on_queue t : t ∈ queue s → t ∉ omap kind (trace s);
  on_worker i w :
    workers s !! i = Some w → before (w_pc w) = true →
    w_task w ∉ omap kind (trace s);
  on_nodup : NoDup (omap kind (trace s))
}.

Lemma inv_once_init : inv_once init.
Proof.
  split; simpl.
  - by intros t ?%elem_of_nil.
  - by intros t ?%elem_of_nil.
  - intros i w Hw. by rewrite lookup_empty in Hw.
  - constructor.
Qed.

Lemma omap_kind_ctl evs : Forall ctl_event evs → omap kind evs = [].
Proof.
  induction 1 as [|e evs He _ IH]; [done|]. simpl. by rewrite kind_ctl.
Qed.

Lemma inv_once_step a s s' :
  reachable self s → inv_once s → step self a s = Some s' → inv_once s'.
Proof.
  intros Hs [Hsub Hqueue Hworker Hnd] Hstep.
  pose proof (reachable_inv _ _ Hs) as [_ _ Hdup _ _ _ _ _ _].
  pose proof (reachable_inv_run _ _ Hs) as [Hrun _ _].
  pose proof Hstep as [Hctl|i Hi Htake|i t pc o e Hw He ->]%step_kind.
  - destruct (ctl_step_trace _ _ _ Hctl) as (evs & Htr & Hevs).
    pose proof (ctl_step_frame _ _ _ Hctl) as (_ & _ & HW & _).
    assert (omap kind (trace s') = omap kind (trace s)) as Hk.
    { by rewrite Htr, omap_app, (omap_kind_ctl _ Hevs), app_nil_r. }
    split; rewrite ?Hk, ?HW; try done.
    + intros t Ht. rewrite Htr, elem_of_app. left. by apply Hsub.
    + intros t Ht.
      destruct (ctl_step_queue _ _ _ Hs Hctl)
        as [[Hq _]|(t' & Hq & _ & Hnew & _)]; rewrite Hq in Ht.
      * by apply Hqueue.
      * apply elem_of_app in Ht as [Ht|Ht]; [by apply Hqueue|].
        apply list_elem_of_singleton in Ht. subst t'.
        intros Hin. by apply Hnew, Hsub.
  - apply take_task_inv in Htake as (t & q & Hq & _ & ->). split; simpl.
    + done.
    + intros t' Ht'. apply Hqueue. rewrite Hq. by right.
    + intros j w. destruct (decide (j = i)) as [->|Hne].
      * rewrite lookup_insert_eq. intros [= <-] _. simpl.
        apply Hqueue. rewrite Hq. by left.
      * rewrite lookup_insert_ne by done. apply Hworker.
    + done.
  - destruct (kind_step _ _ _ _ _ _ He) as [Hback Hev].
    assert (∀ j w, workers (apply_effect i t e s) !! j = Some w →
              (j = i ∧ ∃ pc', e_next e = Goto pc' ∧
                 w = {| w_task := t; w_pc := pc' |}) ∨
              (j ≠ i ∧ workers s !! j = Some w)) as Hnext.
    { intros j w. apply next_workers_Some. }
    destruct Hev as [Hev|(Hev & Hpc & Hafter)].
    + split; rewrite ?apply_effect_trace, ?omap_app, ?Hev, ?app_nil_r;
        try done.
      * intros t' Ht'. rewrite elem_of_app. left. by apply Hsub.
      * intros j w [(-> & pc' & Hn & ->)|[_ Hj]]%Hnext Hb; simpl in *.
        -- apply (Hworker _ _ Hw). simpl. by eapply Hback.
        -- by apply (Hworker _ _ Hj).
    + pose proof (Hworker _ _ Hw Hpc) as Hfresh. simpl in Hfresh.
      split; rewrite ?apply_effect_trace, ?omap_app, ?Hev; try done.
      * intros t' Ht'. rewrite elem_of_app. left.
        apply elem_of_app in Ht' as [Ht'|Ht']; [by apply Hsub|].
        apply list_elem_of_singleton in Ht'. subst t'.
        apply Hrun. right. by eauto.
      * intros t' Ht'. simpl in Ht'. rewrite not_elem_of_app. split.
        -- by apply Hqueue.
        -- rewrite list_elem_of_singleton. intros ->.
           apply (du_wq _ Hdup _ _ Hw). simpl. by apply list_elem_of_fmap_2.
      * intros j w [(-> & pc' & Hn & ->)|[Hne Hj]]%Hnext Hb; simpl in *.
        -- by rewrite (Hafter _ Hn) in Hb.
        -- rewrite not_elem_of_app. split; [by apply (Hworker _ _ Hj)|].
           rewrite list_elem_of_singleton. intros Ht. apply Hne.
           apply (du_ww _ Hdup _ _ _ _ Hj Hw). by rewrite Ht.
      * apply NoDup_app. split_and!; [done| |apply NoDup_singleton].
        intros t' Ht' ->%list_elem_of_singleton. done.
Qed.

Lemma reachable_inv_once s : reachable self s → inv_once s.
Proof.
  revert s. apply reachable_ind; [apply inv_once_init|].
  intros a s s' Hs. by apply inv_once_step.
Qed.

End Once.

(** ** Where the events of a page come from *)

Definition fetch_of (e : Event) : option Task :=
  match e with EvFetch t _ => Some t | _ => None end.

Definition response_of (e : Event) : option Task :=
  match e with EvResponseCb t _ => Some t | _ => None end.

Definition html_of (e : Event) : option Task :=
  match e with EvHtmlCb t => Some t | _ => None end.

(** The places of a task before its call of [urlopen] has answered. *)
Definition before_fetch (pc : PC) : bool :=
  match pc with
  | PConnect | PUrlopen => true
  | _ => false
  end.

(** The places of a task before the link loop. *)
Definition before_links (pc : PC) : bool :=
  match pc with
  | PLink _ | PLinkLocked _ _ => false
  | _ => true
  end.

Lemma get_try_Some u o response :
  l_response (get_try u o) = Some response → o = Returns response.
Proof. destruct o; simpl; congruence. Qed.

Lemma link_body_KeyError u lk r :
  link_body u lk r = LinkKeyError → graph r !! u = None.
Proof.
  unfold link_body. destruct (_ && _); [|done].
  destruct (graph r !! u); [|done]. by destruct (bool_decide _).
Qed.

Section Pages.

Variable self : Spider.

Lemma fetch_once_step i t pc o s e :
  pc_step self i t pc o s = Some e →
  (∀ pc', e_next e = Goto pc' → before_fetch pc' = true →
     before_fetch pc = true) ∧
  (omap fetch_of (effect_events t e) = [] ∨
   omap fetch_of (effect_events t e) = [t] ∧ before_fetch pc = true ∧
   ∀ pc', e_next e = Goto pc' → before_fetch pc' = false).
Proof.
  intros H. unfold effect_events.
  pc_cases H; simpl; (split; [by intros ? [= <-]|]);
    rewrite ?omap_app; simpl;
    try (destruct (responseCallback self), (htmlCallback self));
    try (destruct (linkCallback self)); simpl; try (by left).
  all: right; split_and!; try done; by intros ? [= <-].
Qed.

Lemma response_once_step i t pc o s e :
  pc_step self i t pc o s = Some e →
  (∀ pc', e_next e = Goto pc' → before_links pc' = true →
     before_links pc = true) ∧
  (omap response_of (effect_events t e) = [] ∨
   omap response_of (effect_events t e) = [t] ∧ before_links pc = true ∧
   ∀ pc', e_next e = Goto pc' → before_links pc' = false).
Proof.
  intros H. unfold effect_events.
  pc_cases H; simpl; (split; [by intros ? [= <-]|]);
    rewrite ?omap_app; simpl;
    try (destruct (responseCallback self), (htmlCallback self));
    try (destruct (linkCallback self)); simpl; try (by left).
  all: right; split_and!; try done; by intros ? [= <-].
Qed.

Lemma html_once_step i t pc o s e :
  pc_step self i t pc o s = Some e →
  (∀ pc', e_next e = Goto pc' → before_links pc' = true →
     before_links pc = true) ∧
  (omap html_of (effect_events t e) = [] ∨
   omap html_of (effect_events t e) = [t] ∧ before_links pc = true ∧
   ∀ pc', e_next e = Goto pc' → before_links pc' = false).
Proof.
  intros H. unfold effect_events.
  pc_cases H; simpl; (split; [by intros ? [= <-]|]);
    rewrite ?omap_app; simpl;
    try (destruct (responseCallback self), (htmlCallback self));
    try (destruct (linkCallback self)); simpl; try (by left).
  all: right; split_and!; try done; by intros ? [= <-].
Qed.

Lemma kind_ctl_fetch e : ctl_event e → fetch_of e = None.
Proof. by destruct e. Qed.

Lemma kind_ctl_response e : ctl_event e → response_of e = None.
Proof. by destruct e. Qed.

Lemma kind_ctl_html e : ctl_event e → html_of e = None.
Proof. by destruct e. Qed.

(** Every task calls [urlopen] at most once. *)
Lemma fetch_once s :
  reachable self s → inv_once fetch_of before_fetch s.
Proof.
  apply (reachable_inv_once self fetch_of before_fetch
           kind_ctl_fetch fetch_once_step).
Qed.

Lemma response_once s :
  reachable self s → inv_once response_of before_links s.
Proof.
  apply (reachable_inv_once self response_of before_links
           kind_ctl_response response_once_step).
Qed.

Lemma html_once s :
  reachable self s → inv_once html_of before_links s.
Proof.
  apply (reachable_inv_once self html_of before_links
           kind_ctl_html html_once_step).
Qed.

End Pages.

Section Provenance.

Variable self : Spider.

(** The task [t] fetched an html page, and [links] is what is left of
    its links. *)
Definition from_page (tr : list Event) (t : Task) (links : list LinkOcc)
    : Prop :=
  ∃ response all,
    EvFetch t (Returns response) ∈ tr ∧ ishtml response = inr true ∧
    document response = Root all ∧ links `suffix_of` all.

(** What the trace holds when a worker stands at [pc] in task [t]. *)
Definition page_ok (tr : list Event) (t : Task) (pc : PC) : Prop :=
  match pc with
  | PConnect | PUrlopen => True
  | PFinally L | PGraphAcq L | PGraphInit L =>
      ∃ o, L = get_try (t_url t) o ∧ EvFetch t o ∈ tr
  | PPage response => EvFetch t (Returns response) ∈ tr
  | PLink links => from_page tr t links
  | PLinkLocked lk rest => from_page tr t (lk :: rest)
  end.

(** What the trace holds when the event [e] has happened. *)
Definition event_ok (tr : list Event) (e : Event) : Prop :=
  match e with
  | EvLevelCb _ => levelCallback self = true
  | EvSubmit _ | EvFetch _ _ => True
  | EvResponseCb t response =>
      responseCallback self = true ∧ EvFetch t (Returns response) ∈ tr
  | EvHtmlCb t => htmlCallback self = true ∧ from_page tr t []
  | EvDiscover t x =>
      x ≠ t_url t ∧
      ∃ lk rest, from_page tr t (lk :: rest) ∧
        lk_attribute lk = Some "href" ∧ lk_link lk = x
  | EvLinkCb t lk =>
      linkCallback self = true ∧ lk_attribute lk = Some "href" ∧
      EvDiscover t (lk_link lk) ∈ tr ∧ ∃ rest, from_page tr t (lk :: rest)
  | EvEnd t None => ∃ o, EvFetch t o ∈ tr
  | EvEnd t (Some x) =>
      ∃ response, EvFetch t (Returns response) ∈ tr ∧
        (header_content_type response = None ∧ x = AttributeError ∨
         ishtml response = inr true ∧ document response = ParseRaises x)
  end.

Lemma from_page_app tr evs t links :
  from_page tr t links → from_page (tr ++ evs) t links.
Proof.
  intros (response & all & ? & ?). exists response, all.
  rewrite elem_of_app. by auto.
Qed.

Lemma page_ok_app tr evs t pc :
  page_ok tr t pc → page_ok (tr ++ evs) t pc.
Proof.
  destruct pc; simpl; try done; try apply from_page_app.
  all: try (intros (o & ? & ?); exists o; rewrite elem_of_app; by auto).
  rewrite elem_of_app. by auto.
Qed.

Lemma event_ok_app tr evs e :
  event_ok tr e → event_ok (tr ++ evs) e.
Proof.
  destruct e as [| | | | | | |t [x|]]; simpl; try done.
  - intros [? ?]. rewrite elem_of_app. by auto.
  - intros [? ?]. split; [done|]. by apply from_page_app.
  - intros (? & lk & rest & ? & ?). split; [done|]. exists lk, rest.
    split; [|done]. by apply from_page_app.
  - intros (? & ? & ? & rest & ?). rewrite elem_of_app. split_and!; auto.
    exists rest. by apply from_page_app.
  - intros (response & ? & ?). exists response. rewrite elem_of_app. by auto.
  - intros (o & ?). exists o. rewrite elem_of_app. by auto.
Qed.

Lemma from_page_fetch tr t links :
  from_page tr t links → ∃ o, EvFetch t o ∈ tr.
Proof. intros (response & all & ? & _). by eauto. Qed.

Record inv_page (s : State) : Prop := {
  pg_worker i w :
    workers s !! i = Some w → page_ok (trace s) (w_task w) (w_pc w);
  pg_event : Forall (event_ok (trace s)) (trace s)
}.

Lemma inv_page_init : inv_page init.
Proof.
  split; simpl; [|constructor].
  intros i w Hw. by rewrite lookup_empty in Hw.
Qed.

Lemma when_event_ok tr b e :
  (b = true → event_ok tr e) → Forall (event_ok tr) (when b e).
Proof.
  destruct b; simpl; [|constructor]. intros H. by repeat constructor; auto.
Qed.

Lemma pc_step_page i t pc o s e :
  pc_step self i t pc o s = Some e →
  page_ok (trace s) t pc → live_ok (results s) (t_url t) pc →
  (∀ pc', e_next e = Goto pc' →
     page_ok (trace s ++ effect_events t e) t pc') ∧
  Forall (event_ok (trace s ++ effect_events t e)) (effect_events t e).
Proof.
  intros H Hpage Hlive. unfold effect_events.
  destruct pc as [| |L|L|L|response|[|lk rest]|lk rest]; simpl in H.
  - pc_cases H; simpl. split; [by intros ? [= <-]|constructor].
  - pc_cases H; simpl. split.
    + intros ? [= <-]. simpl. eexists. split; [done|].
      rewrite elem_of_app. right. by left.
    + by repeat constructor.
  - pc_cases H; simpl. split; [|constructor].
    intros ? [= <-]. by apply (page_ok_app _ _ _ (PFinally L)).
  - pc_cases H; simpl. split; [|constructor].
    intros ? [= <-]. by apply (page_ok_app _ _ _ (PFinally L)).
  - simpl in Hpage. destruct Hpage as (o' & -> & Hin).
    pc_cases H; simpl.
    + match goal with H : l_response _ = Some _ |- _ =>
        apply get_try_Some in H as -> end.
      split; [|constructor]. intros ? [= <-]. simpl. by rewrite app_nil_r.
    + split; [done|]. repeat constructor. simpl. exists o'.
      rewrite elem_of_app. by left.
  - simpl in Hpage.
    assert (∀ evs, Forall (event_ok (trace s ++ evs))
              (when (responseCallback self) (EvResponseCb t response)))
      as Hcb.
    { intros evs. apply when_event_ok. intros Hr. simpl.
      split; [done|]. rewrite elem_of_app. by left. }
    pc_cases H; simpl.
    + split; [done|]. apply Forall_app. split; [apply Hcb|].
      repeat constructor. simpl. exists response.
      rewrite elem_of_app. split; [by left|]. left.
      by apply ishtml_raises.
    + split; [done|]. apply Forall_app. split; [apply Hcb|].
      repeat constructor. simpl. exists response.
      rewrite elem_of_app. split; [by left|]. by right.
    + split; [done|]. apply Forall_app. split; [apply Hcb|].
      repeat constructor. simpl. exists (Returns response).
      rewrite elem_of_app. by left.
    + assert (from_page (trace s) t links) as Hfrom.
      { exists response, links. by split_and!. }
      rewrite app_nil_r. split.
      * intros ? [= <-]. simpl. by apply from_page_app.
      * apply Forall_app. split; [apply Hcb|].
        apply when_event_ok. intros Hh. simpl. split; [done|].
        apply from_page_app. destruct Hfrom as (r' & all & ? & ? & ? & ?).
        exists r', all. split_and!; try done. apply suffix_nil.
    + split; [done|]. apply Forall_app. split; [apply Hcb|].
      repeat constructor. simpl. exists (Returns response).
      rewrite elem_of_app. by left.
  - pc_cases H; simpl. split; [done|]. repeat constructor. simpl.
    destruct (from_page_fetch _ _ _ Hpage) as [o' ?]. exists o'.
    rewrite elem_of_app. by left.
  - pc_cases H; simpl. split; [|constructor].
    intros ? [= <-]. simpl. rewrite app_nil_r. exact Hpage.
  - simpl in Hpage, Hlive. destruct Hlive as [Hkey (v & Hv & _)].
    assert (from_page (trace s) t rest) as Hrest.
    { destruct Hpage as (r' & all & ? & ? & ? & ?%suffix_cons_l).
      by exists r', all. }
    destruct o; [done|].
    destruct (link_body (t_url t) lk (results s)) as [|r'|] eqn:Hbody;
      simplify_eq/=.
    + split; [|constructor]. intros ? [= <-]. simpl. by rewrite app_nil_r.
    + apply link_body_found in Hbody
        as (adj & Hhref & _ & Hnv & _ & _ & _).
      split; [intros ? [= <-]; by apply from_page_app|].
      rewrite app_nil_r. constructor.
      * simpl. split.
        -- intros E. apply Hnv. rewrite E. apply elem_of_dom. by eauto.
        -- exists lk, rest. split; [by apply from_page_app|done].
      * apply when_event_ok. intros Hl. simpl. split_and!; try done.
        -- rewrite elem_of_app. right. by left.
        -- exists rest. by apply from_page_app.
    + apply link_body_KeyError in Hbody. rewrite Hbody in Hkey.
      by destruct Hkey.
Qed.

Lemma inv_page_step a s s' :
  reachable self s → inv_page s → step self a s = Some s' → inv_page s'.
Proof.
  intros Hs [Hworker Hevent] Hstep.
  pose proof (reachable_inv _ _ Hs) as [_ _ _ _ Hlive _ _ _ _].
  pose proof Hstep as [Hctl|i Hi Htake|i t pc o e Hw He ->]%step_kind.
  - destruct (ctl_step_trace _ _ _ Hctl) as (evs & Htr & Hevs).
    pose proof (ctl_step_frame _ _ _ Hctl) as (_ & _ & HW & _).
    split.
    + intros i w. rewrite HW, Htr. intros Hw. apply page_ok_app.
      by eapply Hworker.
    + assert (Forall (event_ok (trace s')) evs) as Hnew.
      { clear Hevs. ctl_cases Hctl; simpl in *;
          repeat match goal with
          | H : _ ++ _ = _ ++ _ |- _ => apply app_inv_head in H; subst
          | H : (_ ++ _) ++ _ = _ ++ _ |- _ => rewrite <-app_assoc in H
          | H : ?l = ?l ++ _ |- _ =>
              rewrite <-(app_nil_r l) in H at 1
          end;
          repeat first [ apply Forall_app; split | apply when_event_ok; done
                       | apply Forall_cons; split; [done|]
                       | apply Forall_nil_2 ]. }
      rewrite Htr in Hnew |- *. apply Forall_app. split; [|done].
      eapply Forall_impl; [exact Hevent|]. intros e. apply event_ok_app.
  - apply take_task_inv in Htake as (t & q & Hq & _ & ->). split; simpl.
    + intros j w. destruct (decide (j = i)) as [->|Hne].
      * rewrite lookup_insert_eq. by intros [= <-].
      * rewrite lookup_insert_ne by done. apply Hworker.
    + done.
  - destruct (pc_step_page _ _ _ _ _ _ He (Hworker _ _ Hw) (Hlive _ _ Hw))
      as [Hnext Hnew].
    split; rewrite ?apply_effect_trace.
    + intros j w [(-> & pc' & Hn & ->)|[_ Hj]]%next_workers_Some; simpl.
      * by apply Hnext.
      * apply page_ok_app. by eapply Hworker.
    + apply Forall_app. split; [|done].
      eapply Forall_impl; [exact Hevent|]. intros ev. apply event_ok_app.
Qed.

Lemma reachable_inv_page s : reachable self s → inv_page s.
Proof.
  revert s. apply reachable_ind; [apply inv_page_init|].
  intros a s s' Hs. by apply inv_page_step.
Qed.

End Provenance.

(** Splits a hypothesis that an event is among the events of a step. *)
Ltac ev_cases :=
  repeat match goal with
  | H : _ ∈ _ ++ _ |- _ => apply elem_of_app in H as [H|H]
  | H : _ ∈ when _ _ |- _ => apply when_elem_of in H
  | H : _ ∈ _ :: _ |- _ => apply elem_of_cons in H as [H|H]
  | H : _ ∈ [] |- _ => by apply elem_of_nil in H
  end; simplify_eq.

Section Records.

Variable self : Spider.

(** Two calls of [urlopen] by one task are one call. *)
Lemma fetch_unique tr t o1 o2 :
  NoDup (omap fetch_of tr) →
  EvFetch t o1 ∈ tr → EvFetch t o2 ∈ tr → o1 = o2.
Proof.
  induction tr as [|e tr IH]; intros Hnd H1 H2.
  - by apply elem_of_nil in H1.
  - assert (∀ o, EvFetch t o ∈ tr → t ∈ omap fetch_of tr) as Hin.
    { intros o Ho. apply list_elem_of_omap. by exists (EvFetch t o). }
    apply elem_of_cons in H1 as [<-|H1]; apply elem_of_cons in H2 as [E|H2].
    + by injection E.
    + simpl in Hnd. apply NoDup_cons in Hnd as [Hnd _].
      exfalso. apply Hnd. by eapply Hin.
    + subst e. simpl in Hnd. apply NoDup_cons in Hnd as [Hnd _].
      exfalso. apply Hnd. by eapply Hin.
    + apply IH; [|done..]. simpl in Hnd. destruct (fetch_of e); [|done].
      by apply NoDup_cons in Hnd as [_ ?].
Qed.

Lemma ctl_step_events s s' e :
  ctl_step self s = Some s' → e ∈ trace s' → e ∈ trace s ∨ ctl_event e.
Proof.
  intros (evs & -> & Hevs)%ctl_step_trace. rewrite elem_of_app.
  intros [?|Hin]; [by left|right]. by eapply (proj1 (Forall_forall _ _)).
Qed.

(** What a step does to [visited]: keys stay. *)
Lemma step_visited a s s' u :
  step self a s = Some s' →
  u ∈ dom (visited (results s)) → u ∈ dom (visited (results s')).
Proof.
  intros Hstep [v Hv]%elem_of_dom.
  destruct (step_grows _ _ _ _ Hstep) as [H _].
  destruct (H _ _ Hv) as (v' & ? & _). apply elem_of_dom. by eauto.
Qed.

(** The events of a worker that discovers or fetches. *)
Lemma pc_step_discover i t pc o s e t1 x :
  pc_step self i t pc o s = Some e →
  EvDiscover t1 x ∈ effect_events t e →
  t1 = t ∧ x ∉ dom (visited (results s)).
Proof.
  intros H Hin. unfold effect_events in Hin.
  pc_cases H; simpl in *; ev_cases.
  match goal with H : link_body _ _ _ = LinkFound _ |- _ =>
    apply link_body_found in H as (adj & _ & _ & ? & _) end.
  done.
Qed.

Lemma pc_step_fetch i t pc o s e t1 o1 :
  pc_step self i t pc o s = Some e →
  EvFetch t1 o1 ∈ effect_events t e →
  t1 = t ∧ pc = PUrlopen ∧ o = Some o1 ∧
  e_next e = Goto (PFinally (get_try (t_url t) o1)).
Proof.
  intros H Hin. unfold effect_events in Hin.
  pc_cases H; simpl in *; ev_cases. done.
Qed.

(** A call of [urlopen] is recorded in [visited], but for the one whose
    worker stands before line 186; and every key of [graph] is a key of
    [visited]. *)
Record inv_rec (s : State) : Prop := {
  rc_fetch t o :
    EvFetch t o ∈ trace s →
    t_url t ∈ dom (visited (results s)) ∨
    ∃ i L, workers s !! i = Some {| w_task := t; w_pc := PFinally L |};
  rc_graph u :
    is_Some (graph (results s) !! u) → is_Some (visited (results s) !! u)
}.

Lemma inv_rec_init : inv_rec init.
Proof.
  split; simpl.
  - by intros t o ?%elem_of_nil.
  - intros u. rewrite lookup_empty. by intros [? ?].
Qed.

Lemma inv_rec_step a s s' :
  reachable self s → inv_rec s → step self a s = Some s' → inv_rec s'.
Proof.
  intros Hs [Hfetch Hgraph] Hstep.
  pose proof (reachable_inv _ _ Hs) as [_ _ _ _ Hlive _ _ _ _].
  pose proof (λ u, step_visited _ _ _ u Hstep) as Hmono.
  pose proof Hstep as [Hctl|i Hi Htake|i t pc o e Hw He ->]%step_kind.
  - pose proof (ctl_step_frame _ _ _ Hctl) as (_ & _ & HW & HG & HV).
    split.
    + intros t o [Hin|?]%(ctl_step_events _ _ _ Hctl); [|done].
      rewrite HW, HV. by eapply Hfetch.
    + intros u. rewrite HG, HV. apply Hgraph.
  - apply take_task_inv in Htake as (t & q & Hq & _ & ->). split; simpl.
    + intros t' o Hin. destruct (Hfetch _ _ Hin) as [?|(j & L & Hj)];
        [by left|right]. exists j, L. rewrite lookup_insert_ne; [done|].
      intros ->. by rewrite Hi in Hj.
    + done.
  - split.
    + intros t' o'. rewrite apply_effect_trace, elem_of_app.
      intros [Hin|Hin].
      * destruct (Hfetch _ _ Hin) as [?|(j & L & Hj)];
          [left; by apply Hmono|].
        destruct (decide (j = i)) as [->|Hne].
        -- rewrite Hw in Hj. simplify_eq. left. simpl.
           rewrite (pc_step_visited _ _ _ _ _ _ _ He). unfold get_record.
           rewrite dom_insert_L. apply elem_of_union. left.
           by apply elem_of_singleton.
        -- right. exists j, L. simpl.
           change (next_workers i t (e_next e) (workers s) !! j = Some
                     {| w_task := t'; w_pc := PFinally L |}).
           by rewrite next_workers_ne.
      * apply (pc_step_fetch _ _ _ _ _ _ _ _ He) in Hin
          as (-> & _ & _ & Hn).
        right. exists i. eexists. simpl. rewrite Hn. apply lookup_insert_eq.
    + intros u Hu. simpl.
      destruct (pc_step_graph_key _ _ _ _ _ _ _ _ He Hu)
        as [Hold|(L & -> & -> & _)].
      * apply Hgraph in Hold as [v Hv]. apply elem_of_dom.
        apply (Hmono u). apply elem_of_dom. by eauto.
      * specialize (Hlive _ _ Hw). simpl in Hlive.
        destruct Hlive as (_ & v & Hv & _).
        rewrite (pc_step_visited _ _ _ _ _ _ _ He). by eauto.
Qed.

Lemma reachable_inv_rec s : reachable self s → inv_rec s.
Proof.
  revert s. apply reachable_ind; [apply inv_rec_init|].
  intros a s s' Hs. by apply inv_rec_step.
Qed.

(** A link is discovered at a level only if its URL has not been
    fetched at an earlier level. *)
Definition inv_disc (s : State) : Prop :=
  ∀ t x t' o, EvDiscover t x ∈ trace s → EvFetch t' o ∈ trace s →
    t_url t' = x → t_level t ≤ t_level t'.

Lemma inv_disc_step a s s' :
  reachable self s → inv_disc s → step self a s = Some s' → inv_disc s'.
Proof.
  intros Hs Hdisc Hstep.
  pose proof (reachable_inv _ _ Hs) as [_ Hlevel _ _ _ _ _ _ _].
  pose proof (reachable_inv_rec _ Hs) as [Hfetch _].
  pose proof Hstep as [Hctl|i Hi Htake|i t pc o e Hw He ->]%step_kind.
  - intros t x t' o' [H1|?]%(ctl_step_events _ _ _ Hctl)
      [H2|?]%(ctl_step_events _ _ _ Hctl); try done. by eapply Hdisc.
  - apply take_task_inv in Htake as (t & q & Hq & _ & ->). exact Hdisc.
  - pose proof (lv_workers _ _ Hlevel _ _ Hw) as Hlt. simpl in Hlt.
    pose proof (pc_step_events_level _ _ _ _ _ _ _ He) as Hev.
    rewrite Forall_forall in Hev.
    destruct (lv_sorted _ _ Hlevel) as [Hle _]. rewrite Forall_forall in Hle.
    intros t1 x t2 o2. rewrite apply_effect_trace, !elem_of_app.
    intros [H1|H1] [H2|H2] Hx.
    + by eapply Hdisc.
    + specialize (Hle _ H1). specialize (Hev _ H2). simpl in *. lia.
    + destruct (pc_step_discover _ _ _ _ _ _ _ _ He H1) as [-> Hnv].
      destruct (Hfetch _ _ H2) as [Hv|(j & L & Hj)].
      * by rewrite Hx in Hv.
      * pose proof (lv_workers _ _ Hlevel _ _ Hj) as Hlj. simpl in Hlj. lia.
    + specialize (Hev _ H1) as E1. specialize (Hev _ H2) as E2.
      simpl in *. lia.
Qed.

Lemma reachable_inv_disc s : reachable self s → inv_disc s.
Proof.
  revert s. apply reachable_ind; [|intros a s s' Hs; by apply inv_disc_step].
  by intros t x t' o ?%elem_of_nil.
Qed.

End Records.

Section Callbacks.

Variable self : Spider.

(** What [responseCallback] and [htmlCallback] have been called for,
    once the task is in its link loop or over. *)
Definition called (tr : list Event) (t : Task) (response : Response) : Prop :=
  (responseCallback self = true → EvResponseCb t response ∈ tr) ∧
  (htmlCallback self = true → ishtml response = inr true →
   (∃ all, document response = Root all) → EvHtmlCb t ∈ tr).

(** The response of a fetch is handed to the callbacks before the task
    goes on to the links. *)
Definition inv_cb (s : State) : Prop :=
  ∀ t response, EvFetch t (Returns response) ∈ trace s →
    (∃ i pc, workers s !! i = Some {| w_task := t; w_pc := pc |} ∧
             before_links pc = true) ∨
    called (trace s) t response.

Lemma called_app tr evs t response :
  called tr t response → called (tr ++ evs) t response.
Proof.
  intros [H1 H2]. split; intros; rewrite elem_of_app; left; by auto.
Qed.

Lemma pc_step_called i t pc s e response :
  pc_step self i t pc None s = Some e →
  before_links pc = true → page_ok (trace s) t pc →
  NoDup (omap fetch_of (trace s)) →
  EvFetch t (Returns response) ∈ trace s →
  (∃ pc', e_next e = Goto pc' ∧ before_links pc' = true) ∨
  called (effect_events t e) t response.
Proof.
  intros H Hb Hpage Hnd Hin. unfold effect_events.
  destruct pc as [| |L|L|L|response'| |]; try done; simpl in Hpage.
  - pc_cases H. left. by eauto.
  - pc_cases H. left. by eauto.
  - pc_cases H. left. by eauto.
  - destruct Hpage as (o' & -> & Hin').
    rewrite <-(fetch_unique _ _ _ _ Hnd Hin Hin') in H.
    pc_cases H; simpl in *; simplify_eq. left. by eauto.
  - assert (response' = response) as ->.
    { pose proof (fetch_unique _ _ _ _ Hnd Hin Hpage). by simplify_eq. }
    right. unfold pc_step in H. injection H as <-. simpl. split.
    + intros ->. simpl. rewrite !elem_of_app.
      destruct (ishtml response) as [|[|]]; [| destruct (document response)|];
        simpl; rewrite ?elem_of_app; left; try left; by left.
    + intros -> -> [all ->]. simpl. rewrite app_nil_r, elem_of_app.
      right. by left.
Qed.

Lemma inv_cb_step a s s' :
  reachable self s → inv_cb s → step self a s = Some s' → inv_cb s'.
Proof.
  intros Hs Hcb Hstep.
  pose proof (reachable_inv_page _ _ Hs) as [Hpage _].
  pose proof (on_nodup _ _ _ (fetch_once _ _ Hs)) as Hnd.
  pose proof Hstep as [Hctl|i Hi Htake|i t pc o e Hw He ->]%step_kind.
  - pose proof (ctl_step_frame _ _ _ Hctl) as (_ & _ & HW & _).
    destruct (ctl_step_trace _ _ _ Hctl) as (evs & Htr & _).
    intros t response [Hin|?]%(ctl_step_events _ _ _ _ Hctl); [|done].
    rewrite HW, Htr. destruct (Hcb _ _ Hin) as [?|?]; [by left|right].
    by apply called_app.
  - apply take_task_inv in Htake as (t & q & Hq & _ & ->).
    intros t' response Hin. simpl in *.
    destruct (Hcb _ _ Hin) as [(j & pc & Hj & ?)|?]; [left|by right].
    exists j, pc. split; [|done]. rewrite lookup_insert_ne; [done|].
    intros ->. by rewrite Hi in Hj.
  - intros t' response. rewrite apply_effect_trace, elem_of_app.
    intros [Hin|Hin].
    + destruct (Hcb _ _ Hin) as [(j & pcj & Hj & Hb)|?];
        [|right; by apply called_app].
      destruct (decide (j = i)) as [->|Hne].
      * rewrite Hw in Hj. simplify_eq.
        destruct o as [o|].
        { destruct pcj; try done. simpl in He. injection He as <-.
          left. exists i. eexists. split; [apply lookup_insert_eq|done]. }
        destruct (pc_step_called _ _ _ _ _ _ He Hb (Hpage _ _ Hw) Hnd Hin)
          as [(pc' & Hn & Hb')|[H1 H2]].
        -- left. exists i, pc'. split; [|done]. simpl. rewrite Hn.
           apply lookup_insert_eq.
        -- right. split; intros; rewrite elem_of_app; right; by auto.
      * left. exists j, pcj. split; [|done].
        change (next_workers i t (e_next e) (workers s) !! j = Some
                  {| w_task := t'; w_pc := pcj |}).
        by rewrite next_workers_ne.
    + apply (pc_step_fetch _ _ _ _ _ _ _ _ _ He) in Hin
        as (-> & _ & _ & Hn).
      left. exists i. eexists. simpl. rewrite Hn.
      split; [apply lookup_insert_eq|done].
Qed.

Lemma reachable_inv_cb s : reachable self s → inv_cb s.
Proof.
  revert s. apply reachable_ind; [|intros a s s' Hs; by apply inv_cb_step].
  by intros t response ?%elem_of_nil.
Qed.

End Callbacks.

(** ** The crawl as a whole *)

Lemma last_fetch_Some u fs o : last_fetch u fs = Some o → (u, o) ∈ fs.
Proof.
  induction fs as [|[u' o'] fs IH] using rev_ind; [done|].
  rewrite last_fetch_snoc, elem_of_app. case_decide as E.
  - intros [= ->]. right. subst. by left.
  - intros ?%IH. by left.
Qed.

Section Crawl.

Variable self : Spider.

Lemma level_bound s :
  reachable self s → cur_level (ctl s) ≤ Z.max 1 (maxDepth self).
Proof.
  intros Hs. pose proof (reachable_inv _ _ Hs) as [_ Hlevel _ _ _ _ _ _ _].
  pose proof (lv_ctl _ _ Hlevel) as Hok. unfold ctl_ok in Hok.
  destruct (ctl s); simpl; lia.
Qed.

Lemma event_level s e :
  reachable self s → e ∈ trace s → 1 ≤ ev_level e ≤ cur_level (ctl s).
Proof.
  intros Hs Hin. pose proof (reachable_inv _ _ Hs) as [_ Hlevel _ _ _ _ _ _ _].
  pose proof (reachable_inv_run _ _ Hs) as [_ Hpos _].
  destruct (lv_sorted _ _ Hlevel) as [Hle _].
  rewrite Forall_forall in Hpos, Hle. split; by auto.
Qed.

(** A task of a level after the first was discovered at the level
    before. *)
Lemma submit_discovered s t :
  reachable self s → EvSubmit t ∈ trace s → t_level t ≠ 1 →
  ∃ t', EvDiscover t' (t_url t) ∈ trace s ∧ t_level t' = t_level t - 1.
Proof.
  intros Hs Hin Hl.
  pose proof (reachable_inv _ _ Hs) as [_ Hlevel _ _ _ _ Hfr _ _].
  pose proof (event_level _ _ Hs Hin) as Hlv. simpl in Hlv.
  pose proof (lv_ctl _ _ Hlevel) as Hok. unfold ctl_ok in Hok.
  pose proof (fr_cur _ _ Hfr) as Hcur.
  apply (submitted_elem_of (t_level t)) in Hin; [|done].
  apply elem_of_discovered.
  destruct (decide (t_level t - 1 < done_level (ctl s))) as [Hlt|Hge].
  - rewrite <-(fr_sub _ _ Hfr (t_level t - 1)) by lia.
    by replace (t_level t - 1 + 1) with (t_level t) by lia.
  - destruct (ctl s) as [|d|d n|d|x]; simpl in *; try lia.
    replace (t_level t - 1) with d by lia. destruct Hcur as [<- _].
    apply elem_of_app. left. by replace (d + 1) with (t_level t) by lia.
Qed.

Lemma end_idle s d :
  reachable self s → ctl s = CDone d → queue s = [] ∧ workers s = ∅.
Proof.
  intros Hs Hd. pose proof (reachable_inv _ _ Hs) as [_ Hlevel _ _ _ _ _ _ _].
  pose proof (lv_ctl _ _ Hlevel) as Hok. unfold ctl_ok in Hok.
  rewrite Hd in Hok. by destruct Hok as (_ & ? & ?).
Qed.

Lemma not_running_at_end s d t :
  reachable self s → ctl s = CDone d → ¬ running s t.
Proof.
  intros Hs Hd. destruct (end_idle _ _ Hs Hd) as [Hq Hw].
  intros [Hin|(i & w & Hi & _)].
  - rewrite Hq in Hin. by apply elem_of_nil in Hin.
  - by rewrite Hw, lookup_empty in Hi.
Qed.

(** When [spider] has returned, every task that was submitted has
    called [urlopen], and every call is recorded. *)
Lemma submitted_fetched_at_end s d t :
  reachable self s → ctl s = CDone d → EvSubmit t ∈ trace s →
  ∃ o, EvFetch t o ∈ trace s.
Proof.
  intros Hs Hd Hin.
  pose proof (reachable_inv _ _ Hs) as [_ _ _ _ _ _ _ Hended _].
  pose proof (reachable_inv_page _ _ Hs) as [_ Hev].
  rewrite Forall_forall in Hev.
  destruct (Hended _ Hin) as [[x Hx]|Hrun];
    [|by destruct (not_running_at_end _ _ t Hs Hd)].
  specialize (Hev _ Hx). simpl in Hev. destruct x as [x|]; [|done].
  destruct Hev as (response & ? & _). by eauto.
Qed.



(** X12. Every page that has an adjacency list has a visit record, at
    every moment of a crawl.  When [spider] has returned, every URL
    whose record says that it is alive (dead = False) is a key of
    [graph]: [graph[u]] can be read for it. *)
Theorem graph_keys_visited (s : State) (Hs : reachable self s) :
  (∀ u, is_Some (graph (results s) !! u) →
        is_Some (visited (results s) !! u)) ∧
  (∀ d u v, ctl s = CDone d → visited (results s) !! u = Some v →
            dead v = false → is_Some (graph (results s) !! u)).
Proof.
  split; [apply (rc_graph _ (reachable_inv_rec _ _ Hs))|].
  intros d u v Hd Hv Hdead.
  pose proof (reachable_inv _ _ Hs) as [_ _ _ _ _ _ _ _ Hkeys].
  destruct (end_idle _ _ Hs Hd) as [_ Hw].
  rewrite (visited_at_end self s d u Hs Hd) in Hv.
  destruct (last_fetch u (fetches (trace s))) as [o|] eqn:Hlast; [|done].
  simpl in Hv. injection Hv as <-. simpl in Hdead.
  destruct o as [e|r]; [done|]. apply last_fetch_Some in Hlast.
  destruct (ky_fetched _ Hkeys _ _ Hlast) as [?|(i & t & pc & L & Hi & _)];
    [done|]. by rewrite Hw, lookup_empty in Hi.
Qed.

(** X13. Every entry of an adjacency list comes from an href link of
    an html document that was fetched from the page: [x] is in
    [graph[u]] only if some call of [urlopen] for [u] returned a
    response of type text/html whose document has a link to [x] in an
    href attribute.  No page is adjacent to itself. *)
Theorem edges_from_href_links (s : State) (u x : string)
    (Hs : reachable self s) (Hx : x ∈ adjacency (results s) u) :
  x ≠ u ∧
  ∃ response all lk,
    (u, Returns response) ∈ fetches (trace s) ∧
    ishtml response = inr true ∧ document response = Root all ∧
    lk ∈ all ∧ lk_attribute lk = Some "href" ∧ lk_link lk = x.
Proof.
  pose proof (reachable_inv _ _ Hs) as [_ _ _ _ _ Hgraph _ _ _].
  pose proof (reachable_inv_page _ _ Hs) as [_ Hev].
  rewrite Forall_forall in Hev.
  rewrite (gr_adj _ _ Hgraph) in Hx.
  apply elem_of_discovered_by in Hx as (t & Hin & <-).
  specialize (Hev _ Hin). simpl in Hev.
  destruct Hev
    as (Hne & lk & rest & (response & all & ? & ? & ? & Hsuf) & ? & ?).
  split; [done|]. exists response, all, lk. split_and!; try done.
  - apply elem_of_fetches. by eauto.
  - destruct Hsuf as [k ->]. apply elem_of_app. right. by left.
Qed.


(** X15. The callbacks are called for what they are meant for, and
    once.  [responseCallback] is called with a response only after the
    call of [urlopen] of the same task returned it, at most once for a
    task; [htmlCallback] only for a task whose response is of type
    text/html and has a root element, at most once; [linkCallback] only
    for an href link that was appended to [_urls].  A callback that is
    not set is never called.  When [spider] has returned,
    [responseCallback] has been called for every response that a call
    of [urlopen] returned and [htmlCallback] for each of them that is
    html with a root element. *)
Theorem callbacks_exact (s : State) (Hs : reachable self s) :
  (∀ t response, EvResponseCb t response ∈ trace s →
     responseCallback self = true ∧
     EvFetch t (Returns response) ∈ trace s) ∧
  (∀ t, EvHtmlCb t ∈ trace s →
     htmlCallback self = true ∧
     ∃ response all, EvFetch t (Returns response) ∈ trace s ∧
       ishtml response = inr true ∧ document response = Root all) ∧
  (∀ t lk, EvLinkCb t lk ∈ trace s →
     linkCallback self = true ∧ lk_attribute lk = Some "href" ∧
     EvDiscover t (lk_link lk) ∈ trace s) ∧
  (∀ l, EvLevelCb l ∈ trace s → levelCallback self = true) ∧
  NoDup (omap response_of (trace s)) ∧
  NoDup (omap html_of (trace s)) ∧
  (∀ d t response, ctl s = CDone d →
     EvFetch t (Returns response) ∈ trace s →
     (responseCallback self = true → EvResponseCb t response ∈ trace s) ∧
     (htmlCallback self = true → ishtml response = inr true →
      (∃ all, document response = Root all) → EvHtmlCb t ∈ trace s)).
Proof.
  pose proof (reachable_inv_page _ _ Hs) as [_ Hev].
  rewrite Forall_forall in Hev. split_and!.
  - intros t response Hin. apply (Hev _ Hin).
  - intros t Hin. destruct (Hev _ Hin) as (? & response & all & ? & ? & ? & _).
    by eauto 6.
  - intros t lk Hin. destruct (Hev _ Hin) as (? & ? & ? & _). done.
  - intros l Hin. apply (Hev _ Hin).
  - apply (on_nodup _ _ _ (response_once _ _ Hs)).
  - apply (on_nodup _ _ _ (html_once _ _ Hs)).
  - intros d t response Hd Hin.
    destruct (reachable_inv_cb _ _ Hs _ _ Hin) as [(i & pc & Hi & _)|?];
      [|done].
    destruct (end_idle _ _ Hs Hd) as [_ Hw].
    by rewrite Hw, lookup_empty in Hi.
Qed.


End Crawl.

(** ** How often a URL is fetched *)

Definition submit_of (e : Event) : option Task :=
  match e with EvSubmit t => Some t | _ => None end.

(** The levels at which [u] was fetched, in order. *)
Definition fetch_levels (u : string) (tr : list Event) : list Z :=
  omap (λ e, match e with
             | EvFetch t _ =>
                 if decide (t_url t = u) then Some (t_level t) else None
             | _ => None
             end) tr.

Lemma attempts_fetch_levels u tr :
  attempts u (fetches tr) = length (fetch_levels u tr).
Proof.
  induction tr as [|e tr IH]; [done|]. change (e :: tr) with ([e] ++ tr).
  unfold attempts, fetch_levels in *.
  rewrite fetches_app, filter_app, omap_app, !length_app, IH. f_equal.
  destruct e; try done. simpl. rewrite filter_cons. simpl.
  by case_decide.
Qed.

Lemma elem_of_fetch_levels u tr l :
  l ∈ fetch_levels u tr ↔
  ∃ o, EvFetch {| t_level := l; t_url := u |} o ∈ tr.
Proof.
  unfold fetch_levels. rewrite list_elem_of_omap. split.
  - intros (e & Hin & He). destruct e as [| |[l' u'] o| | | | |]; try done.
    simpl in He. case_decide; [|done]. simplify_eq. by eauto.
  - intros [o Hin]. eexists. split; [done|]. simpl. by rewrite decide_True.
Qed.

Lemma fetch_levels_NoDup u tr :
  NoDup (omap fetch_of tr) → NoDup (fetch_levels u tr).
Proof.
  induction tr as [|e tr IH]; [constructor|]. simpl.
  destruct e as [| |[l u'] o| | | | |]; simpl; try done.
  intros [Hnew Hnd]%NoDup_cons. case_decide as E; [|by apply IH].
  subst u'. apply NoDup_cons. split; [|by apply IH].
  intros [o' Hin]%elem_of_fetch_levels. apply Hnew.
  apply list_elem_of_omap.
  by exists (EvFetch {| t_level := l; t_url := u |} o').
Qed.

(** Integers that differ by one at most, no one twice: two at most. *)
Lemma close_levels (l : list Z) :
  NoDup l → (∀ a b, a ∈ l → b ∈ l → b ≤ a + 1) → (length l ≤ 2)%nat.
Proof.
  intros Hnd Hclose. destruct l as [|a [|b [|c l]]]; simpl; try lia.
  exfalso.
  apply NoDup_cons in Hnd as [Ha Hnd]. apply NoDup_cons in Hnd as [Hb _].
  apply not_elem_of_cons in Ha as [Hab Ha].
  apply not_elem_of_cons in Ha as [Hac _].
  apply not_elem_of_cons in Hb as [Hbc _].
  assert (a ∈ a :: b :: c :: l) as Ia by by left.
  assert (b ∈ a :: b :: c :: l) as Ib by (right; by left).
  assert (c ∈ a :: b :: c :: l) as Ic by (do 2 right; by left).
  pose proof (Hclose _ _ Ia Ib). pose proof (Hclose _ _ Ib Ia).
  pose proof (Hclose _ _ Ia Ic). pose proof (Hclose _ _ Ic Ia).
  pose proof (Hclose _ _ Ib Ic). pose proof (Hclose _ _ Ic Ib). lia.
Qed.

Lemma NoDup_all_equal {A} (l : list A) (a : A) :
  NoDup l → (∀ x, x ∈ l → x = a) → a ∈ l → l = [a].
Proof.
  intros Hnd Hall Hin. destruct l as [|x [|y l]].
  - by apply elem_of_nil in Hin.
  - f_equal. apply Hall. by left.
  - apply NoDup_cons in Hnd as [Hx _]. exfalso. apply Hx.
    rewrite (Hall x), <-(Hall y); [by left| |by left]. right. by left.
Qed.

Lemma fetches_urls tr : (fetches tr).*1 = t_url <$> omap fetch_of tr.
Proof.
  unfold fetches. induction tr as [|e tr IH]; [done|].
  destruct e; simpl; first [exact IH | f_equal; exact IH].
Qed.

Lemma omap_submit_nil evs :
  (∀ t, EvSubmit t ∉ evs) → omap submit_of evs = [].
Proof.
  induction evs as [|e evs IH]; [done|]. intros H.
  destruct e as [|t0| | | | | |]; simpl;
    try (apply IH; intros t' Ht'; apply (H t'); by right).
  destruct (H t0). by left.
Qed.

Section Twice.

Variable self : Spider.

Lemma ctl_step_submits_list s s' :
  ctl_step self s = Some s' →
  ∃ l, omap submit_of (trace s') = omap submit_of (trace s) ++ l ∧
       queue s' = queue s ++ l ∧ (length l ≤ 1)%nat.
Proof.
  intros H. ctl_cases H; simpl; rewrite ?omap_app; simpl.
  all: try (destruct (levelCallback self); simpl).
  all: rewrite ?app_nil_r.
  all: first [ by eexists [_]
             | exists []; rewrite !app_nil_r; split_and!;
               (done || simpl; lia) ].
Qed.

(** No task is submitted twice. *)
Lemma submitted_once s : reachable self s → NoDup (omap submit_of (trace s)).
Proof.
  revert s. apply reachable_ind; [constructor|].
  intros a s s' Hs Hnd Hstep.
  pose proof Hstep as [Hctl|i Hi Htake|i t pc o e Hw He ->]%step_kind.
  - destruct (ctl_step_submits_list _ _ Hctl) as (l & -> & Hq & Hlen).
    destruct l as [|t [|??]]; simpl in Hlen; [by rewrite app_nil_r| |lia].
    apply NoDup_app. split_and!; [done| |apply NoDup_singleton].
    intros t' (e & Hin & He)%list_elem_of_omap ->%list_elem_of_singleton.
    destruct e; simplify_eq/=.
    destruct (ctl_step_queue _ _ _ Hs Hctl)
      as [[Hq' _]|(t' & Hq' & _ & Hnew & _)]; rewrite Hq in Hq'.
    + rewrite <-(app_nil_r (queue s)) in Hq' at 2.
      by apply app_inv_head in Hq'.
    + apply app_inv_head in Hq'. by simplify_eq.
  - by apply take_task_inv in Htake as (t & q & _ & _ & ->).
  - rewrite apply_effect_trace, omap_app,
      (omap_submit_nil (effect_events t e)); [by rewrite app_nil_r|].
    intros t'. by eapply pc_step_no_submit.
Qed.

Lemma pc_step_discover_pc i t pc o s e t1 x :
  pc_step self i t pc o s = Some e →
  EvDiscover t1 x ∈ effect_events t e → before_links pc = false.
Proof.
  intros H Hin. unfold effect_events in Hin.
  pc_cases H; simpl in *; ev_cases; done.
Qed.

(** Once a page is in its link loop, the seed has its visit record. *)
Lemma seed_recorded s i w :
  reachable self s → workers s !! i = Some w →
  before_links (w_pc w) = false →
  url self ∈ dom (visited (results s)).
Proof.
  intros Hs Hw Hpc.
  pose proof (reachable_inv _ _ Hs) as [_ Hlevel _ _ Hlive _ Hfr Hended _].
  pose proof (reachable_inv_run _ _ Hs) as [Hsub _ Hseed].
  pose proof (reachable_inv_page _ _ Hs) as [_ Hev].
  rewrite Forall_forall in Hev.
  pose proof (lv_workers _ _ Hlevel _ _ Hw) as Hl.
  destruct (decide (t_level (w_task w) = 1)) as [Hone|Hone].
  - rewrite <-(Hseed (w_task w)); [|apply Hsub; right; by eauto|done].
    specialize (Hlive _ _ Hw). apply elem_of_dom.
    destruct (w_pc w); try done; simpl in Hlive;
      destruct Hlive as (_ & v & -> & _); by eauto.
  - pose (t0 := {| t_level := 1; t_url := url self |}).
    assert (EvSubmit t0 ∈ trace s) as Hin.
    { apply elem_of_submitted. rewrite (fr_seed _ _ Hfr); [by left|].
      intros Hc. pose proof (lv_ctl _ _ Hlevel) as Hok. unfold ctl_ok in Hok.
      rewrite Hc in Hok. destruct Hok as (_ & HW & _).
      by rewrite HW, lookup_empty in Hw. }
    assert (¬ running s t0) as Hnot.
    { intros [Hq|(j & wj & Hj & Ht)].
      - apply (lv_queue _ _ Hlevel) in Hq. simpl in Hq. congruence.
      - apply (lv_workers _ _ Hlevel) in Hj. rewrite Ht in Hj. simpl in Hj.
        congruence. }
    destruct (Hended _ Hin) as [[x Hx]|?]; [|done].
    assert (∃ o, EvFetch t0 o ∈ trace s) as [o Ho].
    { specialize (Hev _ Hx). simpl in Hev. destruct x; [|done].
      destruct Hev as (? & ? & _). by eauto. }
    destruct (rc_fetch _ (reachable_inv_rec _ _ Hs) _ _ Ho)
      as [?|(j & L & Hj)]; [done|].
    destruct Hnot. right. by eauto.
Qed.

(** The seed is never found as a new link. *)
Lemma seed_not_discovered s :
  reachable self s → ∀ t x, EvDiscover t x ∈ trace s → x ≠ url self.
Proof.
  revert s.
  apply (reachable_ind self
           (λ s, ∀ t x, EvDiscover t x ∈ trace s → x ≠ url self));
    [by intros t x ?%elem_of_nil|].
  intros a s s' Hs IH Hstep.
  pose proof Hstep as [Hctl|i Hi Htake|i t pc o e Hw He ->]%step_kind.
  - intros t x [Hin|?]%(ctl_step_events _ _ _ _ Hctl); [|done]. by eapply IH.
  - by apply take_task_inv in Htake as (t & q & _ & _ & ->).
  - intros t1 x. rewrite apply_effect_trace, elem_of_app.
    intros [Hin|Hin]; [by eapply IH|].
    destruct (pc_step_discover _ _ _ _ _ _ _ _ _ He Hin) as [_ Hnv].
    pose proof (pc_step_discover_pc _ _ _ _ _ _ _ _ He Hin) as Hpc.
    intros ->. apply Hnv. by eapply (seed_recorded s i).
Qed.

(** Two fetches of one URL are at the same level or at levels that
    follow each other. *)
Lemma fetch_levels_close s u a b :
  reachable self s →
  a ∈ fetch_levels u (trace s) → b ∈ fetch_levels u (trace s) → b ≤ a + 1.
Proof.
  intros Hs [oa Ha]%elem_of_fetch_levels [ob Hb]%elem_of_fetch_levels.
  pose proof (event_level _ _ _ Hs Ha) as Hla. simpl in Hla.
  destruct (decide (b = 1)) as [->|Hne]; [lia|].
  assert (EvSubmit {| t_level := b; t_url := u |} ∈ trace s) as Hsub.
  { apply (on_sub _ _ _ (fetch_once _ _ Hs)).
    apply list_elem_of_omap. by eexists (EvFetch _ ob). }
  destruct (submit_discovered _ _ _ Hs Hsub Hne) as (t' & Hin & Hl).
  pose proof (reachable_inv_disc _ _ Hs _ _ _ _ Hin Ha eq_refl) as Hle.
  simpl in *. lia.
Qed.

Lemma seed_fetch_level s l :
  reachable self s → l ∈ fetch_levels (url self) (trace s) → l = 1.
Proof.
  intros Hs [o Ho]%elem_of_fetch_levels.
  destruct (decide (l = 1)) as [|Hne]; [done|]. exfalso.
  assert (EvSubmit {| t_level := l; t_url := url self |} ∈ trace s) as Hsub.
  { apply (on_sub _ _ _ (fetch_once _ _ Hs)).
    apply list_elem_of_omap. by eexists (EvFetch _ o). }
  destruct (submit_discovered _ _ _ Hs Hsub Hne) as (t' & Hin & _).
  by apply (seed_not_discovered _ Hs _ _ Hin).
Qed.

(** The counter of a record counts calls of [urlopen] that were made. *)
Lemma visited_times s u v :
  reachable self s → visited (results s) !! u = Some v →
  (1 ≤ times v ≤ attempts u (fetches (trace s)))%nat.
Proof.
  intros Hs Hv.
  pose proof (reachable_inv _ _ Hs) as [_ _ _ Hvisit _ _ _ _ _].
  unfold inv_visit in Hvisit.
  assert (∃ fs, visited (results s) = replay fs ∧
            (attempts u fs ≤ attempts u (fetches (trace s)))%nat)
    as (fs & Hfs & Hle).
  { destruct (pending s) as [[t L]|].
    - destruct Hvisit as (fs & o & -> & _ & ->). exists fs. split; [done|].
      rewrite attempts_snoc. case_decide; lia.
    - by eauto. }
  rewrite Hfs, replay_lookup in Hv.
  destruct (last_fetch u fs) as [o|] eqn:Hlast; [|done].
  simpl in Hv. injection Hv as <-. simpl.
  pose proof (last_fetch_attempts _ _ _ Hlast). lia.
Qed.

(** X17. Every task that is handed to the pool calls [urlopen] once.
    No task (a URL at a level) is submitted twice, every call of
    [urlopen] belongs to a submitted task and no task calls it twice;
    the levels of the tasks lie between 1 and max(1, maxDepth).  When
    [spider] has returned, the tasks that called [urlopen] are the
    tasks that were submitted: there have been as many calls as calls
    of [add_task].  With maxDepth at most 1 there has been one call,
    for the seed. *)
Theorem one_fetch_per_task (s : State) (Hs : reachable self s) :
  NoDup (omap submit_of (trace s)) ∧
  NoDup (omap fetch_of (trace s)) ∧
  (∀ t, t ∈ omap fetch_of (trace s) → t ∈ omap submit_of (trace s)) ∧
  (∀ t, t ∈ omap submit_of (trace s) →
        1 ≤ t_level t ≤ Z.max 1 (maxDepth self)) ∧
  (∀ d, ctl s = CDone d →
     omap fetch_of (trace s) ≡ₚ omap submit_of (trace s) ∧
     length (fetches (trace s)) = length (omap submit_of (trace s)) ∧
     (maxDepth self ≤ 1 → ∃ o, fetches (trace s) = [(url self, o)])).
Proof.
  pose proof (submitted_once _ Hs) as Hnds.
  pose proof (fetch_once _ _ Hs) as [Hsub _ _ Hndf].
  pose proof (reachable_inv_run _ _ Hs) as [_ _ Hseed].
  pose proof (reachable_inv _ _ Hs) as [_ _ _ _ _ _ Hfr _ _].
  assert (∀ t, t ∈ omap submit_of (trace s) ↔ EvSubmit t ∈ trace s) as Hsm.
  { intros t. rewrite list_elem_of_omap. split.
    - intros (e & ? & ?). destruct e; by simplify_eq/=.
    - intros ?. by exists (EvSubmit t). }
  assert (∀ t, t ∈ omap submit_of (trace s) →
               1 ≤ t_level t ≤ Z.max 1 (maxDepth self)) as Hlv.
  { intros t Ht%Hsm. pose proof (event_level _ _ _ Hs Ht) as Hl.
    pose proof (level_bound _ _ Hs). simpl in Hl. lia. }
  split_and!; try done.
  - intros t Ht. by apply Hsm, Hsub.
  - intros d Hd.
    assert (omap fetch_of (trace s) ≡ₚ omap submit_of (trace s)) as Hperm.
    { apply NoDup_Permutation; try done. intros t. split.
      - intros Ht. by apply Hsm, Hsub.
      - intros [o Ho]%Hsm%(submitted_fetched_at_end _ _ _ _ Hs Hd).
        apply list_elem_of_omap. by exists (EvFetch t o). }
    assert (length (fetches (trace s)) = length (omap fetch_of (trace s)))
      as Hlen.
    { by rewrite <-(length_fmap fst), fetches_urls, length_fmap. }
    split_and!; [done|by rewrite Hlen, Hperm|].
    intros Hmax. pose (t0 := {| t_level := 1; t_url := url self |}).
    assert (omap fetch_of (trace s) = [t0]) as Hone.
    { apply NoDup_all_equal; [done| |].
      - intros [l u] Ht. rewrite Hperm in Ht.
        pose proof (Hlv _ Ht) as Hl. simpl in Hl.
        assert (l = 1) as -> by lia.
        apply Hsm in Ht. pose proof (Hseed _ Ht eq_refl) as E.
        simpl in E. by subst.
      - rewrite Hperm. apply Hsm, elem_of_submitted.
        rewrite (fr_seed _ _ Hfr); [by left|]. by rewrite Hd. }
    pose proof (fetches_urls (trace s)) as Hu. rewrite Hone in Hu.
    destruct (fetches (trace s)) as [|[u o] [|??]]; simplify_eq/=.
    by eauto.
Qed.

(** X18. No URL is fetched more than twice in a crawl, and the seed is
    fetched once.  A URL is fetched a second time when a page of its
    own level, processed before it, links to it: it is then neither in
    [_urls] nor in [visited] and is queued again for the next level.
    So the counter 'times' of a record is 1 or 2, that of the seed is
    1, the seed is in no adjacency list, and two fetches of one URL are
    at levels that follow each other. *)
Theorem fetched_at_most_twice (s : State) (u : string)
    (Hs : reachable self s) :
  (attempts u (fetches (trace s)) ≤ 2)%nat ∧
  (attempts (url self) (fetches (trace s)) ≤ 1)%nat ∧
  (∀ v, visited (results s) !! u = Some v → (1 ≤ times v ≤ 2)%nat) ∧
  (∀ v, visited (results s) !! url self = Some v → times v = 1%nat) ∧
  (∀ p, url self ∉ adjacency (results s) p) ∧
  (∀ a b, a ∈ fetch_levels u (trace s) → b ∈ fetch_levels u (trace s) →
          b ≤ a + 1).
Proof.
  pose proof (on_nodup _ _ _ (fetch_once _ _ Hs)) as Hnd.
  assert (attempts u (fetches (trace s)) ≤ 2)%nat as H2.
  { rewrite attempts_fetch_levels.
    apply close_levels; [by apply fetch_levels_NoDup|].
    intros a b. by apply fetch_levels_close. }
  assert (attempts (url self) (fetches (trace s)) ≤ 1)%nat as H1.
  { rewrite attempts_fetch_levels.
    pose proof (fetch_levels_NoDup (url self) _ Hnd) as Hndl.
    pose proof (seed_fetch_level s) as Hone.
    destruct (fetch_levels (url self) (trace s)) as [|a [|b l]];
      simpl; try lia.
    apply NoDup_cons in Hndl as [Hab _]. exfalso. apply Hab.
    rewrite (Hone a), (Hone b); [by left|done|right; by left|done|by left]. }
  split_and!; try done.
  - intros v Hv. pose proof (visited_times _ _ _ Hs Hv). lia.
  - intros v Hv. pose proof (visited_times _ _ _ Hs Hv). lia.
  - intros p Hin.
    pose proof (reachable_inv _ _ Hs) as [_ _ _ _ _ Hgraph _ _ _].
    rewrite (gr_adj _ _ Hgraph) in Hin.
    apply elem_of_discovered_by in Hin as (t & Hin & _).
    by apply (seed_not_discovered _ Hs _ _ Hin).
  - intros a b. by apply fetch_levels_close.
Qed.

End Twice.

(** ** The shape of the graph *)


Section Shape.

Variable self : Spider.

Lemma pc_step_discover_urls i t pc o s e t1 x :
  pc_step self i t pc o s = Some e →
  EvDiscover t1 x ∈ effect_events t e → x ∉ _urls (results s).
Proof.
  intros H Hin. unfold effect_events in Hin.
  pc_cases H; simpl in *; ev_cases.
  match goal with H : link_body _ _ _ = LinkFound _ |- _ =>
    apply link_body_found in H as (adj & _ & ? & _) end.
  done.
Qed.

(** The level whose pages are all in the pool is the current one or
    the one before. *)
Lemma done_level_cur s :
  ctl_ok self s → cur_level (ctl s) - 1 ≤ done_level (ctl s).
Proof. unfold ctl_ok. destruct (ctl s); simpl; lia. Qed.

(** A URL that was found at a level two or more below the current one
    has its visit record. *)
Lemma discovered_recorded s t x :
  reachable self s → EvDiscover t x ∈ trace s →
  t_level t + 1 < cur_level (ctl s) → x ∈ dom (visited (results s)).
Proof.
  intros Hs Hin Hlt.
  pose proof (reachable_inv _ _ Hs) as [_ Hlevel _ _ _ _ Hfr Hended _].
  pose proof (reachable_inv_page _ _ Hs) as [_ Hev].
  rewrite Forall_forall in Hev.
  pose proof (event_level _ _ _ Hs Hin) as Hl. simpl in Hl.
  pose proof (done_level_cur _ (lv_ctl _ _ Hlevel)) as Hdone.
  pose (t0 := {| t_level := t_level t + 1; t_url := x |}).
  assert (EvSubmit t0 ∈ trace s) as Hsub.
  { apply elem_of_submitted. rewrite (fr_sub _ _ Hfr) by lia.
    by eapply discovered_elem_of. }
  assert (¬ running s t0) as Hnot.
  { intros [Hq|(j & wj & Hj & Ht)].
    - apply (lv_queue _ _ Hlevel) in Hq. simpl in Hq. lia.
    - apply (lv_workers _ _ Hlevel) in Hj. rewrite Ht in Hj. simpl in Hj.
      lia. }
  destruct (Hended _ Hsub) as [[e He]|?]; [|done].
  assert (∃ o, EvFetch t0 o ∈ trace s) as [o Ho].
  { specialize (Hev _ He). simpl in Hev. destruct e; [|done].
    destruct Hev as (? & ? & _). by eauto. }
  destruct (rc_fetch _ (reachable_inv_rec _ _ Hs) _ _ Ho)
    as [?|(j & L & Hj)]; [done|].
  destruct Hnot. right. by eauto.
Qed.

(** Two discoveries of one URL are at the same level or at levels that
    follow each other. *)
Lemma discover_close s :
  reachable self s →
  ∀ t1 t2 x, EvDiscover t1 x ∈ trace s → EvDiscover t2 x ∈ trace s →
    t_level t2 ≤ t_level t1 + 1.
Proof.
  revert s.
  apply (reachable_ind self
           (λ s, ∀ t1 t2 x, EvDiscover t1 x ∈ trace s →
                   EvDiscover t2 x ∈ trace s →
                   t_level t2 ≤ t_level t1 + 1)).
  { by intros t1 t2 x ?%elem_of_nil. }
  intros a s s' Hs IH Hstep.
  pose proof (reachable_inv _ _ Hs) as [_ Hlevel _ _ _ _ _ _ _].
  pose proof Hstep as [Hctl|i Hi Htake|i t pc o e Hw He ->]%step_kind.
  - intros t1 t2 x [H1|?]%(ctl_step_events _ _ _ _ Hctl)
      [H2|?]%(ctl_step_events _ _ _ _ Hctl); try done. by eapply IH.
  - by apply take_task_inv in Htake as (t & q & _ & _ & ->).
  - pose proof (lv_workers _ _ Hlevel _ _ Hw) as Hlt. simpl in Hlt.
    pose proof (pc_step_events_level _ _ _ _ _ _ _ He) as Hev.
    rewrite Forall_forall in Hev.
    intros t1 t2 x. rewrite apply_effect_trace, !elem_of_app.
    intros [H1|H1] [H2|H2].
    + by eapply IH.
    + specialize (Hev _ H2). simpl in Hev.
      destruct (pc_step_discover _ _ _ _ _ _ _ _ _ He H2) as [_ Hnv].
      destruct (decide (t_level t1 + 1 < cur_level (ctl s))) as [Hfar|];
        [|lia].
      destruct Hnv. by eapply discovered_recorded.
    + pose proof (event_level _ _ _ Hs H2) as Hl. simpl in Hl.
      specialize (Hev _ H1). simpl in Hev. lia.
    + specialize (Hev _ H1) as E1. specialize (Hev _ H2) as E2.
      simpl in *. lia.
Qed.

(** X19. A URL is an entry of at most two adjacency lists: of any
    three pages that have [x] in their lists, two are the same page.
    Only the first page of a level that links to [x] gets the entry,
    and after the level that follows its first discovery [x] has its
    visit record and is found no more. *)
Theorem at_most_two_parents (s : State) (x p1 p2 p3 : string)
    (Hs : reachable self s)
    (H1 : x ∈ adjacency (results s) p1)
    (H2 : x ∈ adjacency (results s) p2)
    (H3 : x ∈ adjacency (results s) p3) :
  p1 = p2 ∨ p1 = p3 ∨ p2 = p3.
Proof.
  pose proof (reachable_inv _ _ Hs) as [_ _ _ _ _ Hgraph Hfr _ _].
  rewrite (gr_adj _ _ Hgraph) in H1, H2, H3.
  apply elem_of_discovered_by in H1 as (t1 & H1 & <-).
  apply elem_of_discovered_by in H2 as (t2 & H2 & <-).
  apply elem_of_discovered_by in H3 as (t3 & H3 & <-).
  pose proof (discover_close _ Hs) as Hclose.
  assert (∀ ta tb, EvDiscover ta x ∈ trace s → EvDiscover tb x ∈ trace s →
            t_level ta = t_level tb → t_url ta = t_url tb) as Hsame.
  { intros ta tb Ha Hb E. f_equal.
    by apply (discover_unique (t_level ta) (trace s) ta tb x
                (fr_nodup _ _ Hfr _)). }
  destruct (decide (t_level t1 = t_level t2)); [left; by apply Hsame|].
  destruct (decide (t_level t1 = t_level t3));
    [right; left; by apply Hsame|].
  destruct (decide (t_level t2 = t_level t3));
    [right; right; by apply Hsame|].
  pose proof (Hclose _ _ _ H1 H2). pose proof (Hclose _ _ _ H2 H1).
  pose proof (Hclose _ _ _ H1 H3). pose proof (Hclose _ _ _ H3 H1).
  pose proof (Hclose _ _ _ H2 H3). pose proof (Hclose _ _ _ H3 H2). lia.
Qed.



End Shape.

(** ** The properties on small sites *)

Module Sites.

Import Demo Runs.

(** A link that an image carries in its src attribute. *)
Definition src (n : nat) (link : string) : LinkOcc :=
  {| lk_element := n; lk_attribute := Some "src"; lk_link := link;
     lk_pos := 0 |}.

(** The crawl of [actsE] when worker 0 has taken the task of the seed. *)
Definition sStart : State :=
  Eval vm_compute in default init (run (spider1 2) (take 2 actsE) init).




(** The seed links to "a" and "b", and "a" links to "b": when "a" is
    processed, "b" has left [_urls] and is not fetched yet. *)
Definition twice : list Action :=
  [ACtl; AWork 0; AWork 0;
   AFetch 0 (page "r" [href 0 "a"; href 1 "b"])] ++ w 9 ++
  [ACtl; ACtl; ACtl; ACtl; AWork 0; AWork 0;
   AFetch 0 (page "a" [href 0 "b"])] ++ w 7 ++
  [AWork 0; AWork 0; AFetch 0 (page "b" [])] ++ w 5 ++
  [ACtl; ACtl; ACtl; AWork 0; AWork 0; AFetch 0 (page "b" [])] ++ w 5 ++
  [ACtl].

Definition sTwice : State :=
  Eval vm_compute in default init (run (spider1 3) twice init).

Lemma sStart_reachable : reachable (spider1 2) sStart.
Proof. exists (take 2 actsE). vm_compute. reflexivity. Qed.


Lemma sTwice_reachable : reachable (spider1 3) sTwice.
Proof. exists twice. vm_compute. reflexivity. Qed.

End Sites.

(** The theorems of this part at these sites. *)
Module Instances.

Import Demo Runs Sites.

Definition r0 : SpiderResults :=
  {| graph := {["r" := ["q"]]}; visited := {["r" := visit_info
       (get_try "r" (page "r" [])) 1]}; _urls := ["p"] |}.

Definition links0 : list LinkOcc :=
  [href 0 "a"; src 1 "i"; href 2 "p"; href 3 "a"; href 4 "r"; href 5 "b"].

Lemma link_loop_href_only_witness :
  ∃ r' found,
    link_loop "r" links0 r0 [] = inr (r', found) ∧
    found `sublist_of` filter (λ lk, lk_attribute lk = Some "href") links0 ∧
    NoDup (lk_link <$> found) ∧
    _urls r' = _urls r0 ++ (lk_link <$> found) ∧
    graph r' !! "r" = Some (["q"] ++ (lk_link <$> found)) ∧
    (∀ u, u ≠ "r" → graph r' !! u = graph r0 !! u) ∧
    visited r' = visited r0.
Proof. apply (link_loop_href_only "r" links0 r0 ["q"]). reflexivity. Defined.

Lemma task_alone_witness :
  ∃ n s' evs,
    run (spider1 2)
      ([AWork 0; AFetch 0 (page "r" [href 0 "a"])] ++ repeat (AWork 0) n)
      sStart = Some s' ∧
    results s' =
      (_processPage "r" (page "r" [href 0 "a"]) (results sStart)).1.2 ∧
    trace s' = trace sStart ++
      [EvFetch {| t_level := 1; t_url := "r" |} (page "r" [href 0 "a"])] ++
      evs ++
      [EvEnd {| t_level := 1; t_url := "r" |}
         (_processPage "r" (page "r" [href 0 "a"]) (results sStart)).1.1] ∧
    discovered_by "r" evs =
      lk_link <$> (_processPage "r" (page "r" [href 0 "a"])
                     (results sStart)).2 ∧
    linkcbs_by "r" evs =
      (_processPage "r" (page "r" [href 0 "a"]) (results sStart)).2 ∧
    workers s' = delete 0%nat (workers sStart) ∧
    connectLock s' = None ∧ graphLock s' = None ∧
    queue s' = queue sStart ∧ ctl s' = ctl sStart.
Proof.
  apply (task_alone (spider1 2) 0 {| t_level := 1; t_url := "r" |}
           (page "r" [href 0 "a"]) sStart); reflexivity.
Defined.

Lemma locks_exclusive_witness :
  connectLock sE = None ∧ graphLock sE = None.
Proof.
  destruct (locks_exclusive (spider1 2) sE sE_reachable) as (_ & _ & _ & H).
  destruct (H 2 eq_refl) as (_ & _ & ? & ?). by split.
Defined.

Lemma no_deadlock_witness :
  (∃ d, ctl sLink = CDone d) ∨ ∃ a s', step (spider1 2) a sLink = Some s'.
Proof.
  apply (no_deadlock (spider1 2) sLink sLink_reachable). simpl. lia.
Defined.

Lemma results_only_grow_witness :
  ∃ adj', graph (results sE) !! "r" = Some adj' ∧ ["p1"] `prefix_of` adj'.
Proof.
  assert (run (spider1 2) (drop 10 actsE)
            (default init (run (spider1 2) (take 10 actsE) init)) = Some sE)
    as Hrun by (vm_compute; reflexivity).
  destruct (results_only_grow (spider1 2) _ _ _ Hrun) as (_ & H & _).
  apply H. vm_compute. reflexivity.
Defined.

Lemma levelCallback_levels_witness :
  levels_started (trace sE) = seqZ 1 2.
Proof.
  destruct (levelCallback_levels (spider1 2) sE sE_reachable) as [H _].
  exact H.
Defined.

Lemma graph_keys_visited_witness :
  is_Some (visited (results sE) !! "p1").
Proof.
  destruct (graph_keys_visited (spider1 2) sE sE_reachable) as [H _].
  apply H. vm_compute. by eexists.
Defined.

Lemma edges_from_href_links_witness :
  ∃ response all lk,
    ("r", Returns response) ∈ fetches (trace sE) ∧
    ishtml response = inr true ∧ document response = Root all ∧
    lk ∈ all ∧ lk_attribute lk = Some "href" ∧ lk_link lk = "p2".
Proof.
  apply (edges_from_href_links (spider1 2) sE "r" "p2" sE_reachable).
  vm_compute. right. left.
Defined.


Lemma callbacks_exact_witness :
  lk_attribute (href 0 "x") = Some "href" ∧
  EvDiscover {| t_level := 2; t_url := "p1" |} "x" ∈ trace sE.
Proof.
  destruct (callbacks_exact (spider1 2) sE sE_reachable)
    as (_ & _ & H & _).
  apply (H {| t_level := 2; t_url := "p1" |} (href 0 "x")).
  vm_compute. repeat (first [by left|right]).
Defined.


Lemma one_fetch_per_task_witness :
  omap fetch_of (trace sTwice) ≡ₚ omap submit_of (trace sTwice).
Proof.
  destruct (one_fetch_per_task (spider1 3) sTwice sTwice_reachable)
    as (_ & _ & _ & _ & H).
  apply (H 3 eq_refl).
Defined.

Lemma fetched_at_most_twice_witness :
  ∃ v, visited (results sTwice) !! "b" = Some v ∧
       times v = 2%nat ∧ (1 ≤ times v ≤ 2)%nat.
Proof.
  eexists. split; [vm_compute; reflexivity|]. split; [reflexivity|].
  destruct (fetched_at_most_twice (spider1 3) sTwice "b" sTwice_reachable)
    as (_ & _ & H & _).
  apply H. vm_compute. reflexivity.
Defined.

Lemma at_most_two_parents_witness :
  "r" = "a" ∨ "r" = "a" ∨ "a" = "a".
Proof.
  apply (at_most_two_parents (spider1 3) sTwice "b" "r" "a" "a"
           sTwice_reachable); vm_compute; repeat (first [by left|right]).
Defined.


End Instances.
